(** * Open/R control plane: a shallow embedding of the routing daemon's
      neighbor discovery (Spark), metric-vector comparison, KvStore client,
      prefix manager and config store, with the properties of its
      specification. *)

From stdpp Require Import gmap strings list fin_maps.
From Stdlib Require Import ZArith Lia Sorted.

Local Open Scope Z_scope.

(* ===================================================================== *)
(** * Machine integers                                                     *)
(* ===================================================================== *)

(** [static_cast<uint32_t>] and [static_cast<uint64_t>] of a signed value. *)
Definition to_uint32 (z : Z) : Z := z mod 2 ^ 32.
Definition to_uint64 (z : Z) : Z := z mod 2 ^ 64.

Definition INT64_MAX : Z := 2 ^ 63 - 1.

(* ===================================================================== *)
(** * Computations on a state that may throw                              *)
(* ===================================================================== *)

(** A member function is a function of the state of its object; it returns
    or throws, and what it did to the state before it threw stays done. *)
Module StateExn.

Inductive Outcome (A : Type) :=
| Returned (a : A)
| Thrown (what : string).
Arguments Returned {A} a.
Arguments Thrown {A} what.

Definition M (S A : Type) : Type := S → Outcome A * S.

Definition ret {S A} (a : A) : M S A := λ st, (Returned a, st).
Definition throw {S A} (what : string) : M S A := λ st, (Thrown what, st).
Definition bind {S A B} (m : M S A) (k : A → M S B) : M S B :=
  λ st, match m st with
        | (Returned a, st') => k a st'
        | (Thrown what, st') => (Thrown what, st')
        end.
Definition get {S} : M S S := λ st, (Returned st, st).
Definition modify {S} (f : S → S) : M S unit := λ st, (Returned tt, f st).

Notation "'let*' x ':=' m 'in' k" := (bind m (λ x, k))
  (at level 10, x pattern, m at level 100, k at level 200).
Notation "m ';;' k" := (bind m (λ _, k))
  (at level 100, k at level 200, right associativity).

(** [std::unordered_map::at], which throws [std::out_of_range]. *)
Definition at_ {S V} (m : gmap string V) (key : string) : M S V :=
  match m !! key with
  | Some v => ret v
  | None => throw "std::out_of_range"
  end.

(** [m], run from a state of [P], leaves a state of [P] that [R] relates
    to the one it started from, whether it returns or throws. *)
Definition holds {S A} (P : S → Prop) (R : S → S → Prop) (m : M S A)
    : Prop :=
  ∀ st, P st → R st (m st).2 ∧ P (m st).2.

End StateExn.

(* ===================================================================== *)
(** * Spark: the neighbor state machine (Spark.cpp, [stateMap_])           *)
(* ===================================================================== *)

Module SparkFsm.

Inductive SparkNeighState :=
| IDLE | WARM | NEGOTIATE | ESTABLISHED | RESTART.

(** Modelled from the spec: the enumeration [SparkNeighEvent] is declared in
    Spark.h, which is not part of the sources; its order is the column
    order of the state table and agrees with the comments of [stateMap_]. *)
Inductive SparkNeighEvent :=
| HELLO_RCVD_INFO
| HELLO_RCVD_NO_INFO
| HELLO_RCVD_RESTART
| HEARTBEAT_RCVD
| HANDSHAKE_RCVD
| HEARTBEAT_TIMER_EXPIRE
| NEGOTIATE_TIMER_EXPIRE
| GR_TIMER_EXPIRE.

#[global] Instance SparkNeighState_eq_dec : EqDecision SparkNeighState.
Proof. solve_decision. Defined.
#[global] Instance SparkNeighEvent_eq_dec : EqDecision SparkNeighEvent.
Proof. solve_decision. Defined.

(** [static_cast<uint32_t>] of the two enumerations. *)
Definition state_index (s : SparkNeighState) : nat :=
  match s with
  | IDLE => 0 | WARM => 1 | NEGOTIATE => 2 | ESTABLISHED => 3 | RESTART => 4
  end%nat.

Definition event_index (e : SparkNeighEvent) : nat :=
  match e with
  | HELLO_RCVD_INFO => 0
  | HELLO_RCVD_NO_INFO => 1
  | HELLO_RCVD_RESTART => 2
  | HEARTBEAT_RCVD => 3
  | HANDSHAKE_RCVD => 4
  | HEARTBEAT_TIMER_EXPIRE => 5
  | NEGOTIATE_TIMER_EXPIRE => 6
  | GR_TIMER_EXPIRE => 7
  end%nat.

(** The table [Spark::stateMap_], row by row; [None] is [folly::none]. *)
Definition stateMap_ : list (list (option SparkNeighState)) :=
  [ (* index 0 - IDLE *)
    [Some WARM; Some WARM; None; None; None; None; None; None];
    (* index 1 - WARM *)
    [Some NEGOTIATE; None; None; None; None; None; None; None];
    (* index 2 - NEGOTIATE *)
    [None; None; None; None; Some ESTABLISHED; None; Some WARM; None];
    (* index 3 - ESTABLISHED *)
    [None; Some IDLE; Some RESTART; Some ESTABLISHED; None; Some IDLE;
     None; None];
    (* index 4 - RESTART *)
    [Some ESTABLISHED; None; None; None; None; None; None; Some IDLE] ].

(** [Spark::getNextState]: both [CHECK]s abort the process, which is the
    result [None] here. *)
Definition getNextState (currState : option SparkNeighState)
    (event : SparkNeighEvent) : option SparkNeighState :=
  match currState with
  | None => None
  | Some s =>
      match stateMap_ !! state_index s with
      | None => None
      | Some row =>
          match row !! event_index event with
          | Some (Some nextState) => Some nextState
          | _ => None
          end
      end
  end.

(** An execution of the machine: the states already left ([past], oldest
    first) and the current state.  A neighbor is created in [IDLE]. *)
Record Execution := mkExecution {
  past : list SparkNeighState;
  current : SparkNeighState;
}.

Definition initial : Execution := mkExecution [] IDLE.

Definition visited (x : Execution) : list SparkNeighState :=
  past x ++ [current x].

Definition fire (x : Execution) (event : SparkNeighEvent) : option Execution :=
  match getNextState (Some (current x)) event with
  | Some nextState => Some (mkExecution (visited x) nextState)
  | None => None
  end.

Fixpoint run (x : Execution) (events : list SparkNeighEvent)
    : option Execution :=
  match events with
  | [] => Some x
  | event :: rest =>
      match fire x event with
      | Some x' => run x' rest
      | None => None
      end
  end.

(** [h] went through [WARM] and, later, through [NEGOTIATE]. *)
Definition passed_warm_negotiate (h : list SparkNeighState) : Prop :=
  ∃ p1 p2 p3, h = p1 ++ WARM :: p2 ++ NEGOTIATE :: p3.

(** The invariant of every execution: what the past contains, by current
    state. *)
Definition fsm_inv (x : Execution) : Prop :=
  (∀ pre post, past x = pre ++ ESTABLISHED :: post →
               passed_warm_negotiate pre) ∧
  (current x = NEGOTIATE → WARM ∈ past x) ∧
  (current x = ESTABLISHED ∨ current x = RESTART →
   passed_warm_negotiate (past x)).

End SparkFsm.

(* ===================================================================== *)
(** * Metric vectors (Util.h, namespace [MetricVectorUtils])               *)
(* ===================================================================== *)

Module MetricVectorUtils.

Inductive CompareResult :=
| WINNER | TIE_WINNER | TIE | TIE_LOOSER | LOOSER | ERROR.

Inductive CompareType :=
| WIN_IF_PRESENT | WIN_IF_NOT_PRESENT | IGNORE_IF_NOT_PRESENT.

#[global] Instance CompareResult_eq_dec : EqDecision CompareResult.
Proof. solve_decision. Defined.
#[global] Instance CompareType_eq_dec : EqDecision CompareType.
Proof. solve_decision. Defined.

(** [thrift::MetricEntity] and [thrift::MetricVector], with the fields that
    [createMetricEntity] fills in; the integers are [int64_t]. *)
Record MetricEntity := mkMetricEntity {
  type : Z;
  priority : Z;
  op : CompareType;
  isBestPathTieBreaker : bool;
  metric : list Z;
}.

Record MetricVector := mkMetricVector {
  version : Z;
  metrics : list MetricEntity;
}.

#[global] Instance MetricEntity_eq_dec : EqDecision MetricEntity.
Proof. solve_decision. Defined.
#[global] Instance MetricVector_eq_dec : EqDecision MetricVector.
Proof. solve_decision. Defined.

(** [operator!] on [CompareResult]. *)
Definition negate (mv : CompareResult) : CompareResult :=
  match mv with
  | WINNER => LOOSER
  | TIE_WINNER => TIE_LOOSER
  | TIE => TIE
  | TIE_LOOSER => TIE_WINNER
  | LOOSER => WINNER
  | ERROR => ERROR
  end.

Definition isDecisive (result : CompareResult) : bool :=
  bool_decide (WINNER = result) || bool_decide (LOOSER = result)
  || bool_decide (ERROR = result).

(** The loop of [isSorted], with its running [priorPriority]. *)
Fixpoint isSorted_from (priorPriority : Z) (ents : list MetricEntity) : bool :=
  match ents with
  | [] => true
  | ent :: rest =>
      if priority ent >? priorPriority then false
      else isSorted_from (priority ent) rest
  end.

Definition isSorted (mv : list MetricEntity) : bool :=
  isSorted_from INT64_MAX mv.

(** [compareMetrics]; the loop runs over [l] and reads [r] in step. *)
Fixpoint compareMetrics_loop (l r : list Z) (tieBreaker : bool)
    : CompareResult :=
  match l, r with
  | lv :: l', rv :: r' =>
      if lv >? rv then (if tieBreaker then TIE_WINNER else WINNER)
      else if lv <? rv then (if tieBreaker then TIE_LOOSER else LOOSER)
      else compareMetrics_loop l' r' tieBreaker
  | _, _ => TIE
  end.

Definition compareMetrics (l r : list Z) (tieBreaker : bool) : CompareResult :=
  if negb (length l =? length r)%nat then ERROR
  else compareMetrics_loop l r tieBreaker.

Definition resultForLoner (entity : MetricEntity) : CompareResult :=
  if decide (WIN_IF_PRESENT = op entity) then
    (if isBestPathTieBreaker entity then TIE_WINNER else WINNER)
  else if decide (WIN_IF_NOT_PRESENT = op entity) then
    (if isBestPathTieBreaker entity then TIE_LOOSER else LOOSER)
  else TIE.

(** [maybeUpdate] returns the new value of its reference argument. *)
Definition maybeUpdate (target update : CompareResult) : CompareResult :=
  if isDecisive update || bool_decide (TIE = target) then update else target.

(** One order that [std::sort] with the comparator
    [l.priority > r.priority] may give: insertion into a list kept in
    decreasing order of priority.  It is not stable: entities of equal
    priority come out in the reverse of their order, where a library may
    keep it; [std::sort] promises neither. *)
Fixpoint insert_by_priority (e : MetricEntity) (sorted : list MetricEntity)
    : list MetricEntity :=
  match sorted with
  | [] => [e]
  | x :: rest =>
      if priority e >? priority x then e :: sorted
      else x :: insert_by_priority e rest
  end.

Definition sort_by_priority (ents : list MetricEntity) : list MetricEntity :=
  foldr insert_by_priority [] ents.

Section WithSort.
(** [std::sort] is not stable: the relative order it gives to entities of
    equal priority is left to the library, so the function is a parameter
    of the model. *)
Variable std_sort : list MetricEntity → list MetricEntity.

(** [sortMetricVector], which sorts [mv.metrics] in place; the result is
    the new content of the vector. *)
Definition sortMetricVector (mv : list MetricEntity) : list MetricEntity :=
  if isSorted mv then mv else std_sort mv.

(** The first [while] loop of [compareMetricVectors]; the state is the
    result and the two iterators, as the remaining suffixes.  Every
    iteration consumes one unit of [fuel]. *)
Fixpoint mainLoop (fuel : nat) (result : CompareResult)
    (lIter rIter : list MetricEntity)
    : CompareResult * list MetricEntity * list MetricEntity :=
  match fuel with
  | O => (result, lIter, rIter)
  | S fuel' =>
      if isDecisive result then (result, lIter, rIter)
      else
        match lIter, rIter with
        | le :: l', re :: r' =>
            if type le =? type re then
              if negb (eqb (isBestPathTieBreaker le)
                         (isBestPathTieBreaker re))
              then mainLoop fuel' (maybeUpdate result ERROR) l' r'
              else mainLoop fuel'
                     (maybeUpdate result
                        (compareMetrics (metric le) (metric re)
                           (isBestPathTieBreaker le)))
                     l' r'
            else if priority le >? priority re then
              mainLoop fuel' (maybeUpdate result (resultForLoner le))
                l' rIter
            else if priority le <? priority re then
              mainLoop fuel'
                (maybeUpdate result (negate (resultForLoner re)))
                lIter r'
            else
              (* priorities are the same but types are different *)
              mainLoop fuel' (maybeUpdate result ERROR) lIter rIter
        | _, _ => (result, lIter, rIter)
        end
  end.

(** The second and third loops: the loners left on either side. *)
Fixpoint lonersLeft (result : CompareResult) (lIter : list MetricEntity)
    : CompareResult :=
  if isDecisive result then result
  else
    match lIter with
    | [] => result
    | le :: l' => lonersLeft (maybeUpdate result (resultForLoner le)) l'
    end.

Fixpoint lonersRight (result : CompareResult) (rIter : list MetricEntity)
    : CompareResult :=
  if isDecisive result then result
  else
    match rIter with
    | [] => result
    | re :: r' =>
        lonersRight (maybeUpdate result (negate (resultForLoner re))) r'
    end.

(** Enough fuel for the first loop: it ends within one iteration per
    entity, plus one for the iteration that sets [ERROR] without moving
    an iterator, plus the final test. *)
Definition mainLoop_fuel (l r : list MetricEntity) : nat :=
  (length l + length r + 2)%nat.

Definition compareMetricVectors (l r : MetricVector) : CompareResult :=
  if negb (version l =? version r) then ERROR
  else
    let lm := sortMetricVector (metrics l) in
    let rm := sortMetricVector (metrics r) in
    let '(result, lIter, rIter) := mainLoop (mainLoop_fuel lm rm) TIE lm rm in
    lonersRight (lonersLeft result lIter) rIter.

(** The first loop has stopped: its condition is false. *)
Definition mainLoop_done
    (st : CompareResult * list MetricEntity * list MetricEntity) : Prop :=
  let '(result, lIter, rIter) := st in
  isDecisive result = true ∨ lIter = [] ∨ rIter = [].

End WithSort.

End MetricVectorUtils.

(* ===================================================================== *)
(** * Spark: packet validation, labels and hello processing (Spark.cpp)    *)
(* ===================================================================== *)

Module Spark.
Import SparkFsm StateExn.

Inductive PacketValidationResult := SUCCESS | FAILURE | NEIGHBOR_RESTART.

#[global] Instance PacketValidationResult_eq_dec :
  EqDecision PacketValidationResult.
Proof. solve_decision. Defined.

(** [thrift::SparkNeighbor], the originator of a hello packet;
    addresses are [thrift::BinaryAddress]es, kept as their bytes. *)
Record SparkNeighbor := mkSparkNeighbor {
  domainName : string;
  nodeName : string;
  holdTime : Z;
  transportAddressV6 : string;
  transportAddressV4 : string;
  ifName : string;
}.

(** [thrift::ReflectedNeighborInfo]: what the sender last heard from a
    neighbor. *)
Record ReflectedNeighborInfo := mkReflectedNeighborInfo {
  r_seqNum : Z;
  lastNbrMsgSentTsInUs : Z;
  lastMyMsgRcvdTsInUs : Z;
}.

Record SparkPayload := mkSparkPayload {
  originator : SparkNeighbor;
  p_seqNum : Z;                                    (* i64 *)
  neighborInfos : gmap string ReflectedNeighborInfo;
  timestamp : Z;                                   (* i64, microseconds *)
  solicitResponse : bool;
  supportFloodOptimization : bool;
  restarting : option bool;
  areas : option (gset string);
  p_version : Z;                                   (* i32 *)
}.

Record SparkHelloMsg := mkSparkHelloMsg {
  m_domainName : string;
  m_nodeName : string;
  m_ifName : string;
  m_seqNum : Z;
  m_neighborInfos : gmap string ReflectedNeighborInfo;
  m_version : Z;
  m_solicitResponse : bool;
}.

Record SparkHandshakeMsg := mkSparkHandshakeMsg {
  h_nodeName : string;
  isAdjEstablished : bool;
  h_holdTime : Z;
  gracefulRestartTime : Z;
  h_transportAddressV6 : string;
  h_transportAddressV4 : string;
  h_openrCtrlThriftPort : Z;
  h_kvStorePubPort : Z;
  h_kvStoreCmdPort : Z;
}.

Record SparkHelloPacket := mkSparkHelloPacket {
  payload : SparkPayload;
  helloMsg : option SparkHelloMsg;
  heartbeatMsg : option unit;
  handshakeMsg : option SparkHandshakeMsg;
}.

Inductive SparkNeighborEventType :=
| NEIGHBOR_UP | NEIGHBOR_DOWN | NEIGHBOR_RESTARTED | NEIGHBOR_RTT_CHANGE
| NEIGHBOR_RESTARTING.

(** The result of [createSparkNeighborEvent]. *)
Record SparkNeighborEvent := mkSparkNeighborEvent {
  eventType : SparkNeighborEventType;
  e_ifName : string;
  e_neighbor : SparkNeighbor;
  rttUs : Z;
  e_label : Z;
  e_supportFloodOptimization : bool;
  e_area : option string;
}.

(** [Spark::Neighbor].  [holdTimer] is the duration the timer is scheduled
    with, [None] while it is not running; [stepDetector] holds the samples
    given to the detector, newest first. *)
Record Neighbor := mkNeighbor {
  info : SparkNeighbor;
  holdTimer : option Z;
  label : Z;
  seqNum : Z;                                      (* uint64_t *)
  isAdjacent : bool;
  rtt : Z;
  rttLatest : Z;
  neighborTimestamp : Z;
  localTimestamp : Z;
  numRecvRestarting : Z;
  stepDetector : list (Z * Z);
  (* the originator captured by the callback [rttChangeCb] *)
  rttChangeCb : SparkNeighbor;
}.

(** The constructor [Spark::Neighbor::Neighbor]. *)
Definition newNeighbor (info : SparkNeighbor) (label seqNum : Z) : Neighbor :=
  mkNeighbor info None label (to_uint64 seqNum) false 0 0 0 0 0 [] info.

(** [Spark::Spark2Neighbor]; the two timers are present or reset. *)
Record Spark2Neighbor := mkSpark2Neighbor {
  s_domainName : string;
  s_nodeName : string;
  s_remoteIfName : string;
  s_label : Z;
  s_seqNum : Z;
  state : SparkNeighState;
  negotiateTimer : bool;
  negotiateHoldTimer : bool;
  s_transportAddressV6 : string;
  s_transportAddressV4 : string;
  s_openrCtrlThriftPort : Z;
  s_kvStorePubPort : Z;
  s_kvStoreCmdPort : Z;
  heartbeatHoldTime : Z;
  gracefulRestartHoldTime : Z;
  s_rtt : Z;
}.

Record Interface := mkInterface {
  ifIndex : Z;
  v4Network : string * Z;
  v6LinkLocalNetwork : string * Z;
}.

(** The constant members of [Spark]. *)
Record Config := mkConfig {
  myDomainName_ : string;
  myNodeName_ : string;
  kVersion_version : Z;
  kVersion_lowestSupportedVersion : Z;             (* i32 *)
  enableV4_ : bool;
  enableSubnetValidation_ : bool;
  enableSpark2_ : bool;
  areas_ : option (list string);
  myHoldTime_ : Z;
  myHeartbeatHoldTime_ : Z;
}.

(** What Spark.cpp takes from outside this file: the constants of
    Constants.h, the address functions of folly, the thrift deserializer
    and the step detector. *)
Record Env := mkEnv {
  kSrLocalRange : Z * Z;
  kMaxAllowedPps : Z;
  (* [toIPAddress] does not throw on this address *)
  folly_validAddress : string → bool;
  (* [myV4Addr.inSubnet(neigh/len)] *)
  folly_inSubnet : string → string → Z → bool;
  readThriftObjStr : string → option SparkHelloPacket;
  (* the new mean, when [StepDetector::addValue] detects a step and calls
     back *)
  StepDetector_step : list (Z * Z) → option Z;
  (* [Spark2Neighbor::toThrift], declared in Spark.h *)
  toThrift : Spark2Neighbor → SparkNeighbor;
  (* the size of the handshake packet written for an interface, when it
     fits the MTU and the socket sends all of it *)
  handshakeBytesSent : string → bool → option Z;
}.

(** What [IoProvider::recvMessage] returns for one packet, with the count
    of the rate-limiting time series of its (interface, address) pair once
    updated to the time of reception. *)
Record Received := mkReceived {
  bytesRead : Z;
  r_ifIndex : Z;
  clientAddr : string;
  hopLimit : Z;
  recvTime : Z;                                    (* microseconds *)
  buf : string;
  seriesCount : Z;
}.

Definition kMinIpv6Mtu : Z := 1280.
Definition kSparkHopLimit : Z := 255.

(** The mutable members of [Spark]. *)
Record SparkState := mkSparkState {
  mySeqNum_ : Z;
  interfaceDb_ : gmap string Interface;
  neighbors_ : gmap string (gmap string Neighbor);
  spark2Neighbors_ : gmap string (gmap string Spark2Neighbor);
  allocatedLabels_ : gset Z;
  tData_ : gmap string Z;
  (* the events sent on [reportSocket_], newest first *)
  reported : list SparkNeighborEvent;
  (* [scheduleTimeout(0, sendHelloPacket(ifName))], newest first *)
  scheduledHellos : list string;
  (* handshakes sent by [sendHandshakeMsg]: interface and
     [isAdjEstablished], newest first *)
  sentHandshakes : list (string * bool);
}.

Definition set_neighbors_ (v : gmap string (gmap string Neighbor))
    (st : SparkState) : SparkState :=
  mkSparkState (mySeqNum_ st) (interfaceDb_ st) v (spark2Neighbors_ st)
    (allocatedLabels_ st) (tData_ st) (reported st) (scheduledHellos st)
    (sentHandshakes st).

Definition set_spark2Neighbors_ (v : gmap string (gmap string Spark2Neighbor))
    (st : SparkState) : SparkState :=
  mkSparkState (mySeqNum_ st) (interfaceDb_ st) (neighbors_ st) v
    (allocatedLabels_ st) (tData_ st) (reported st) (scheduledHellos st)
    (sentHandshakes st).

Definition set_allocatedLabels_ (v : gset Z) (st : SparkState) : SparkState :=
  mkSparkState (mySeqNum_ st) (interfaceDb_ st) (neighbors_ st)
    (spark2Neighbors_ st) v (tData_ st) (reported st) (scheduledHellos st)
    (sentHandshakes st).

Definition set_tData_ (v : gmap string Z) (st : SparkState) : SparkState :=
  mkSparkState (mySeqNum_ st) (interfaceDb_ st) (neighbors_ st)
    (spark2Neighbors_ st) (allocatedLabels_ st) v (reported st)
    (scheduledHellos st) (sentHandshakes st).

Definition set_reported (v : list SparkNeighborEvent) (st : SparkState)
    : SparkState :=
  mkSparkState (mySeqNum_ st) (interfaceDb_ st) (neighbors_ st)
    (spark2Neighbors_ st) (allocatedLabels_ st) (tData_ st) v
    (scheduledHellos st) (sentHandshakes st).

Definition set_scheduledHellos (v : list string) (st : SparkState)
    : SparkState :=
  mkSparkState (mySeqNum_ st) (interfaceDb_ st) (neighbors_ st)
    (spark2Neighbors_ st) (allocatedLabels_ st) (tData_ st) (reported st) v
    (sentHandshakes st).

Definition set_sentHandshakes (v : list (string * bool)) (st : SparkState)
    : SparkState :=
  mkSparkState (mySeqNum_ st) (interfaceDb_ st) (neighbors_ st)
    (spark2Neighbors_ st) (allocatedLabels_ st) (tData_ st) (reported st)
    (scheduledHellos st) v.

(** ** Computations on the state of Spark that may throw *)

Abbreviation M := (StateExn.M SparkState).

(** [tData_.addStatValue(key, value, fbzmq::SUM)]. *)
Definition addStatValue (key : string) (value : Z) : M unit :=
  modify (λ st, set_tData_ (<[key := default 0 (tData_ st !! key) + value]>
                              (tData_ st)) st).

(** Sending an event on [reportSocket_]; a failed send is only logged. *)
Definition report (event : SparkNeighborEvent) : M unit :=
  modify (λ st, set_reported (event :: reported st) st).

Section WithEnv.
Context (env : Env) (cfg : Config).

(** [Spark::sanityCheckHelloPkt]; [remoteVersion] is a [uint32_t]. *)
Definition sanityCheckHelloPkt (domainName neighborName remoteIfName : string)
    (remoteVersion : Z) : M PacketValidationResult :=
  (* check if own packet has looped *)
  if decide (neighborName = myNodeName_ cfg) then
    addStatValue "spark.invalid_keepalive.looped_packet" 1 ;;
    ret FAILURE
  (* domain check *)
  else if decide (domainName ≠ myDomainName_ cfg) then
    addStatValue "spark.invalid_keepalive.different_domain" 1 ;;
    ret FAILURE
  (* version check *)
  else if remoteVersion <? to_uint32 (kVersion_lowestSupportedVersion cfg)
  then
    addStatValue "spark.invalid_keepalive.invalid_version" 1 ;;
    ret FAILURE
  else ret SUCCESS.

(** [Spark::validateV4AddressSubnet]. *)
Definition validateV4AddressSubnet (ifName : string) (neighV4Addr : string)
    : M PacketValidationResult :=
  let* st := get in
  let* iface := at_ (interfaceDb_ st) ifName in
  let myV4Addr := (v4Network iface).1 in
  let myV4PrefixLen := (v4Network iface).2 in
  if negb (folly_validAddress env neighV4Addr) then
    addStatValue "spark.invalid_keepalive.missing_v4_addr" 1 ;;
    ret FAILURE
  else if negb (folly_inSubnet env myV4Addr neighV4Addr myV4PrefixLen) then
    addStatValue "spark.invalid_keepalive.different_subnet" 1 ;;
    ret FAILURE
  else ret SUCCESS.

(** The loop [while (!allocatedLabels_.insert(label).second) label--;]
    as a search for the first label, going down, that is not allocated.
    (The scan leaves the [int32_t] range only with more than 2^31 labels
    allocated.) *)
Fixpoint scanDown (fuel : nat) (label : Z) (allocated : gset Z) : option Z :=
  match fuel with
  | O => None
  | S fuel' =>
      if decide (label ∈ allocated) then scanDown fuel' (label - 1) allocated
      else Some label
  end.

(** [Spark::getNewLabelForIface]. *)
Definition getNewLabelForIface (ifName : string) : M Z :=
  let* st := get in
  let* iface := at_ (interfaceDb_ st) ifName in
  (* We try to first assign label based on ifIndex if not already taken. *)
  let label := (kSrLocalRange env).1 + ifIndex iface in
  if decide (label ∉ allocatedLabels_ st) then
    modify (set_allocatedLabels_ ({[label]} ∪ allocatedLabels_ st)) ;;
    ret label
  else
    (* Label already exists let's try to find out a new one from the
       back *)
    match scanDown (S (size (allocatedLabels_ st))) (kSrLocalRange env).2
            (allocatedLabels_ st) with
    | None => throw "scanDown: out of fuel"
    | Some label =>
        modify (set_allocatedLabels_ ({[label]} ∪ allocatedLabels_ st)) ;;
        if label <? (kSrLocalRange env).1 then
          throw "Ran out of local label allocation space."
        else ret label
    end.

(** [Spark::validateHelloPacket]. *)
Definition validateHelloPacket (ifName_ : string)
    (helloPacket : SparkHelloPacket) : M PacketValidationResult :=
  let originator := originator (payload helloPacket) in
  let domainName := domainName originator in
  let neighborName := nodeName originator in
  let remoteIfName := ifName originator in
  let remoteVersion := to_uint32 (p_version (payload helloPacket)) in
  let* sane :=
    sanityCheckHelloPkt domainName neighborName remoteIfName remoteVersion in
  if decide (sane = FAILURE) then ret FAILURE
  else
    (* validate v4 address subnet *)
    let* v4 :=
      (if enableV4_ cfg && enableSubnetValidation_ cfg
       then validateV4AddressSubnet ifName_ (transportAddressV4 originator)
       else ret SUCCESS) in
    if decide (v4 = FAILURE) then ret FAILURE
    else
      (* get the map of tracked neighbors on this interface *)
      let* st := get in
      let* ifNeighbors := at_ (neighbors_ st) ifName_ in
      match ifNeighbors !! neighborName with
      | None =>
          (* first time we hear from this guy, add to tracking list *)
          let* label := getNewLabelForIface ifName_ in
          modify (λ st, set_neighbors_
            (<[ifName_ :=
                 <[neighborName :=
                     newNeighbor originator label
                       (p_seqNum (payload helloPacket))]> ifNeighbors]>
               (neighbors_ st)) st) ;;
          ret SUCCESS
      | Some neighbor =>
          let newSeqNum := to_uint64 (p_seqNum (payload helloPacket)) in
          if newSeqNum <=? seqNum neighbor then
            (* it has restarted: accept the new sequence number *)
            let neighbor' :=
              mkNeighbor originator (holdTimer neighbor) (label neighbor)
                newSeqNum (isAdjacent neighbor) (rtt neighbor)
                (rttLatest neighbor) (neighborTimestamp neighbor)
                (localTimestamp neighbor) (numRecvRestarting neighbor)
                (stepDetector neighbor) (rttChangeCb neighbor) in
            modify (set_neighbors_
              (<[ifName_ := <[neighborName := neighbor']> ifNeighbors]>
                 (neighbors_ st))) ;;
            ret NEIGHBOR_RESTART
          else
            (* update the sequence number *)
            let neighbor' :=
              mkNeighbor (info neighbor) (holdTimer neighbor)
                (label neighbor) newSeqNum (isAdjacent neighbor)
                (rtt neighbor) (rttLatest neighbor)
                (neighborTimestamp neighbor) (localTimestamp neighbor)
                (numRecvRestarting neighbor) (stepDetector neighbor)
                (rttChangeCb neighbor) in
            modify (set_neighbors_
              (<[ifName_ := <[neighborName := neighbor']> ifNeighbors]>
                 (neighbors_ st))) ;;
            (* consider neighbor restart if v4 address has changed *)
            if enableV4_ cfg
               && bool_decide (transportAddressV4 originator
                               ≠ transportAddressV4 (info neighbor))
            then ret NEIGHBOR_RESTART
            else ret SUCCESS
      end.

(** [Spark::processNeighborHoldTimeout]; the [SCOPE_EXIT] block runs
    last. *)
Definition processNeighborHoldTimeout (ifName_ neighborName : string)
    : M unit :=
  let* st := get in
  let* ifNeighbors := at_ (neighbors_ st) ifName_ in
  let* neighbor := at_ ifNeighbors neighborName in
  (if isAdjacent neighbor then
     report (mkSparkNeighborEvent NEIGHBOR_DOWN ifName_ (info neighbor)
               (rtt neighbor) (label neighbor) false None)
   else ret tt) ;;
  modify (λ st, set_allocatedLabels_
                  (allocatedLabels_ st ∖ {[label neighbor]}) st) ;;
  modify (λ st, set_neighbors_
                  (<[ifName_ := delete neighborName ifNeighbors]>
                     (neighbors_ st)) st).

(** [Spark::shouldProcessHelloPacket], on the count of the time series. *)
Definition shouldProcessHelloPacket (rx : Received) : bool :=
  negb (seriesCount rx >? kMaxAllowedPps env).

(** [Spark::findInterfaceFromIfindex]. *)
Definition findInterfaceFromIfindex (db : gmap string Interface)
    (index : Z) : option string :=
  fst <$> head (filter (λ kv, ifIndex kv.2 = index) (map_to_list db)).

(** [Spark::parsePacket]: the packet, the interface and the time of
    reception when it returns [true], [None] when it returns [false]. *)
Definition parsePacket (rx : Received)
    : M (option (SparkHelloPacket * string * Z)) :=
  if hopLimit rx <? kSparkHopLimit then ret None
  else
    let* st := get in
    match findInterfaceFromIfindex (interfaceDb_ st) (r_ifIndex rx) with
    | None => ret None
    | Some ifName_ =>
        addStatValue "spark.hello_packet_recv" 1 ;;
        addStatValue "spark.hello_packet_recv_size" (bytesRead rx) ;;
        if negb (shouldProcessHelloPacket rx) then
          addStatValue "spark.hello_packet_dropped" 1 ;;
          ret None
        else
          addStatValue "spark.hello_packet_processed" 1 ;;
          if (bytesRead rx >=? 0) && (bytesRead rx >? kMinIpv6Mtu) then
            ret None
          else if negb (bytesRead rx >=? 0) then ret None
          else
            match readThriftObjStr env (buf rx) with
            | None => ret None
            | Some pkt => ret (Some (pkt, ifName_, recvTime rx))
            end
    end.

(** [Spark::findCommonArea]: [None] is the error result. *)
Definition findCommonArea (adjAreas : option (gset string))
    (nodeName_ : string) : M (option (option string)) :=
  match areas_ cfg, adjAreas with
  | Some areas, Some adjAreas =>
      let commonArea := filter (λ area, area ∈ adjAreas) areas in
      match commonArea with
      | [] => addStatValue "spark.no_common_area" 1 ;; ret None
      | [area] => ret (Some (Some area))
      | _ => addStatValue "spark.multiple_common_area" 1 ;; ret None
      end
  | _, _ => ret (Some None)
  end.

(** Writing through the reference [neighbor] of [processHelloPacket]. *)
Definition modifyNeighbor (ifName_ neighborName : string)
    (f : Neighbor → Neighbor) : M unit :=
  modify (λ st, set_neighbors_
    (alter (alter f neighborName) ifName_ (neighbors_ st)) st).

Definition getNeighbor (ifName_ neighborName : string) : M Neighbor :=
  let* st := get in
  let* ifNeighbors := at_ (neighbors_ st) ifName_ in
  at_ ifNeighbors neighborName.

Definition set_rtt (v : Z) (n : Neighbor) : Neighbor :=
  mkNeighbor (info n) (holdTimer n) (label n) (seqNum n) (isAdjacent n) v
    (rttLatest n) (neighborTimestamp n) (localTimestamp n)
    (numRecvRestarting n) (stepDetector n) (rttChangeCb n).

Definition set_rttLatest (v : Z) (n : Neighbor) : Neighbor :=
  mkNeighbor (info n) (holdTimer n) (label n) (seqNum n) (isAdjacent n)
    (rtt n) v (neighborTimestamp n) (localTimestamp n)
    (numRecvRestarting n) (stepDetector n) (rttChangeCb n).

Definition set_timestamps (nbr loc : Z) (n : Neighbor) : Neighbor :=
  mkNeighbor (info n) (holdTimer n) (label n) (seqNum n) (isAdjacent n)
    (rtt n) (rttLatest n) nbr loc (numRecvRestarting n) (stepDetector n)
    (rttChangeCb n).

Definition set_numRecvRestarting (v : Z) (n : Neighbor) : Neighbor :=
  mkNeighbor (info n) (holdTimer n) (label n) (seqNum n) (isAdjacent n)
    (rtt n) (rttLatest n) (neighborTimestamp n) (localTimestamp n) v
    (stepDetector n) (rttChangeCb n).

Definition set_isAdjacent (v : bool) (n : Neighbor) : Neighbor :=
  mkNeighbor (info n) (holdTimer n) (label n) (seqNum n) v (rtt n)
    (rttLatest n) (neighborTimestamp n) (localTimestamp n)
    (numRecvRestarting n) (stepDetector n) (rttChangeCb n).

Definition set_holdTimer (v : option Z) (n : Neighbor) : Neighbor :=
  mkNeighbor (info n) v (label n) (seqNum n) (isAdjacent n) (rtt n)
    (rttLatest n) (neighborTimestamp n) (localTimestamp n)
    (numRecvRestarting n) (stepDetector n) (rttChangeCb n).

Definition push_sample (sample : Z * Z) (n : Neighbor) : Neighbor :=
  mkNeighbor (info n) (holdTimer n) (label n) (seqNum n) (isAdjacent n)
    (rtt n) (rttLatest n) (neighborTimestamp n) (localTimestamp n)
    (numRecvRestarting n) (sample :: stepDetector n) (rttChangeCb n).

(** [Spark::processNeighborRttChange], the callback of the step
    detector. *)
Definition processNeighborRttChange (ifName_ : string)
    (originator : SparkNeighbor) (newRtt : Z) : M unit :=
  let* neighbor := getNeighbor ifName_ (nodeName originator) in
  if negb (isAdjacent neighbor) then ret tt
  else
    modifyNeighbor ifName_ (nodeName originator) (set_rtt newRtt) ;;
    report (mkSparkNeighborEvent NEIGHBOR_RTT_CHANGE ifName_ originator
              newRtt (label neighbor) false None).

(** [neighbor.stepDetector.addValue(time, value)]; the callback carries
    the originator captured when the neighbor was created. *)
Definition stepDetector_addValue (ifName_ neighborName : string)
    (time value : Z) : M unit :=
  modifyNeighbor ifName_ neighborName (push_sample (time, value)) ;;
  let* neighbor := getNeighbor ifName_ neighborName in
  match StepDetector_step env (stepDetector neighbor) with
  | Some newRtt =>
      processNeighborRttChange ifName_ (rttChangeCb neighbor) newRtt
  | None => ret tt
  end.

(** The round-trip time of [processHelloPacket], in microseconds:
    the measurement, its masking to milliseconds, and the sample that
    reaches the step detector ([None] when the hello gives no sample). *)
Definition measuredRtt (mySentTime nbrRecvTime nbrSentTime myRecvTime : Z)
    : Z :=
  (myRecvTime - mySentTime) - (nbrSentTime - nbrRecvTime).

Definition maskedRtt (rtt : Z) : Z := Z.max (rtt ÷ 1000 * 1000) 1000.

Definition rttSample (mySentTime nbrRecvTime nbrSentTime myRecvTime : Z)
    : option Z :=
  (* Measure only if neighbor is reflecting our previous hello packet. *)
  if negb (mySentTime =? 0) && negb (nbrRecvTime =? 0) then
    let useRtt := true in
    let useRtt := if nbrSentTime <? nbrRecvTime then false else useRtt in
    let useRtt := if myRecvTime <? mySentTime then false else useRtt in
    if useRtt then
      let rtt :=
        measuredRtt mySentTime nbrRecvTime nbrSentTime myRecvTime in
      (* Mask off to millisecond accuracy! *)
      let rtt := maskedRtt rtt in
      if rtt <? 0 then None      (* "Measured negative RTT" *)
      else Some rtt
    else None
  else None.

(** A failed [CHECK] aborts the process; the computation ends there. *)
Definition CHECK (b : bool) (what : string) : M unit :=
  if b then ret tt else throw ("CHECK failed: " +:+ what).

Definition nextState (s : SparkNeighState) (event : SparkNeighEvent)
    : M SparkNeighState :=
  match getNextState (Some s) event with
  | Some s' => ret s'
  | None => throw "CHECK failed: Next state is 'UNEXPECTED'"
  end.

(** The old-Spark part of [Spark::processHelloPacket] (its step 3). *)
Definition processSparkHello (helloPacket : SparkHelloPacket)
    (ifName_ : string) (myRecvTime : Z) : M unit :=
  let* validationResult := validateHelloPacket ifName_ helloPacket in
  if decide (validationResult = FAILURE) then ret tt
  else
    let pl := payload helloPacket in
    let originator := originator pl in
    let name := nodeName originator in
    let* commonArea := findCommonArea (areas pl) name in
    match commonArea with
    | None => ret tt
    | Some adjArea =>
        (* the map of adjacent neighbors should have been already
           created *)
        let* neighbor := getNeighbor ifName_ name in
        let isAdjacent_ := isAdjacent neighbor in
        (* Update timestamps for received hello packet for neighbor *)
        let nbrSentTime := timestamp pl in
        modifyNeighbor ifName_ name (set_timestamps nbrSentTime myRecvTime) ;;
        (* check if it's a restarting packet *)
        if bool_decide (restarting pl = Some true) then
          modifyNeighbor ifName_ name
            (λ n, set_numRecvRestarting (numRecvRestarting n + 1) n) ;;
          let* neighbor := getNeighbor ifName_ name in
          if numRecvRestarting neighbor >? 1 then ret tt
          else
            report (mkSparkNeighborEvent NEIGHBOR_RESTARTING ifName_
                      originator (rtt neighbor) (label neighbor) false
                      adjArea)
        else
          (* Try to deduce RTT for this neighbor *)
          (match neighborInfos pl !! myNodeName_ cfg with
           | Some tstamps =>
               match rttSample (lastNbrMsgSentTsInUs tstamps)
                       (lastMyMsgRcvdTsInUs tstamps) nbrSentTime myRecvTime
               with
               | Some rtt_ =>
                   (* Add it to step detector *)
                   stepDetector_addValue ifName_ name (myRecvTime ÷ 1000)
                     rtt_ ;;
                   (* Set initial value if empty *)
                   let* neighbor := getNeighbor ifName_ name in
                   (if rtt neighbor =? 0
                    then modifyNeighbor ifName_ name (set_rtt rtt_)
                    else ret tt) ;;
                   (* Update rttLatest *)
                   modifyNeighbor ifName_ name (set_rttLatest rtt_)
               | None => ret tt
               end
           | None => ret tt
           end) ;;
          let* st := get in
          let foundSelf :=
            match neighborInfos pl !! myNodeName_ cfg with
            | Some myInfo => to_uint64 (r_seqNum myInfo) <? mySeqNum_ st
            | None => false
            end in
          (if negb foundSelf && solicitResponse pl
           then modify (λ st, set_scheduledHellos
                                (ifName_ :: scheduledHellos st) st)
           else ret tt) ;;
          let* neighbor := getNeighbor ifName_ name in
          if isAdjacent_ && bool_decide (validationResult = NEIGHBOR_RESTART)
          then
            modifyNeighbor ifName_ name (set_numRecvRestarting 0) ;;
            report (mkSparkNeighborEvent NEIGHBOR_RESTARTED ifName_
                      originator (rtt neighbor) (label neighbor)
                      (supportFloodOptimization pl) adjArea)
          else if foundSelf && isAdjacent_ then
            (* Reset the hold-timer for neighbor *)
            modifyNeighbor ifName_ name
              (set_holdTimer (Some (holdTime originator)))
          else if negb foundSelf && negb isAdjacent_ then ret tt
          else if foundSelf && negb isAdjacent_ then
            (* add new adjacency *)
            modifyNeighbor ifName_ name (set_numRecvRestarting 0) ;;
            report (mkSparkNeighborEvent NEIGHBOR_UP ifName_ originator
                      (rtt neighbor) (label neighbor)
                      (supportFloodOptimization pl) adjArea) ;;
            modifyNeighbor ifName_ name (set_isAdjacent true) ;;
            modifyNeighbor ifName_ name
              (set_holdTimer (Some (holdTime originator)))
          else
            (* the neighbor no longer hears us *)
            report (mkSparkNeighborEvent NEIGHBOR_DOWN ifName_ originator
                      (rtt neighbor) (label neighbor) false None) ;;
            modifyNeighbor ifName_ name (set_isAdjacent false) ;;
            modifyNeighbor ifName_ name (set_holdTimer None)
    end.

(** ** The Spark2 handlers *)

Definition set_state (v : SparkNeighState) (n : Spark2Neighbor)
    : Spark2Neighbor :=
  mkSpark2Neighbor (s_domainName n) (s_nodeName n) (s_remoteIfName n)
    (s_label n) (s_seqNum n) v (negotiateTimer n) (negotiateHoldTimer n)
    (s_transportAddressV6 n) (s_transportAddressV4 n)
    (s_openrCtrlThriftPort n) (s_kvStorePubPort n) (s_kvStoreCmdPort n)
    (heartbeatHoldTime n) (gracefulRestartHoldTime n) (s_rtt n).

Definition set_s_seqNum (v : Z) (n : Spark2Neighbor) : Spark2Neighbor :=
  mkSpark2Neighbor (s_domainName n) (s_nodeName n) (s_remoteIfName n)
    (s_label n) v (state n) (negotiateTimer n) (negotiateHoldTimer n)
    (s_transportAddressV6 n) (s_transportAddressV4 n)
    (s_openrCtrlThriftPort n) (s_kvStorePubPort n) (s_kvStoreCmdPort n)
    (heartbeatHoldTime n) (gracefulRestartHoldTime n) (s_rtt n).

Definition set_timers (nt nht : bool) (n : Spark2Neighbor)
    : Spark2Neighbor :=
  mkSpark2Neighbor (s_domainName n) (s_nodeName n) (s_remoteIfName n)
    (s_label n) (s_seqNum n) (state n) nt nht
    (s_transportAddressV6 n) (s_transportAddressV4 n)
    (s_openrCtrlThriftPort n) (s_kvStorePubPort n) (s_kvStoreCmdPort n)
    (heartbeatHoldTime n) (gracefulRestartHoldTime n) (s_rtt n).

Definition set_negotiated (msg : SparkHandshakeMsg) (n : Spark2Neighbor)
    : Spark2Neighbor :=
  mkSpark2Neighbor (s_domainName n) (s_nodeName n) (s_remoteIfName n)
    (s_label n) (s_seqNum n) (state n) (negotiateTimer n)
    (negotiateHoldTimer n)
    (h_transportAddressV6 msg) (h_transportAddressV4 msg)
    (h_openrCtrlThriftPort msg) (h_kvStorePubPort msg)
    (h_kvStoreCmdPort msg)
    (Z.max (h_holdTime msg) (myHeartbeatHoldTime_ cfg))
    (Z.max (gracefulRestartTime msg) (myHoldTime_ cfg)) (s_rtt n).

(** The constructor [Spark::Spark2Neighbor::Spark2Neighbor]. *)
Definition newSpark2Neighbor (domainName nodeName remoteIfName : string)
    (label seqNum : Z) : M Spark2Neighbor :=
  CHECK (negb (bool_decide (domainName = ""))) "domainName" ;;
  CHECK (negb (bool_decide (nodeName = ""))) "nodeName" ;;
  CHECK (negb (bool_decide (remoteIfName = ""))) "remoteIfName" ;;
  ret (mkSpark2Neighbor domainName nodeName remoteIfName label seqNum IDLE
         false false "" "" 0 0 0 0 0 0).

Definition modifySpark2Neighbor (ifName_ neighborName : string)
    (f : Spark2Neighbor → Spark2Neighbor) : M unit :=
  modify (λ st, set_spark2Neighbors_
    (alter (alter f neighborName) ifName_ (spark2Neighbors_ st)) st).

Definition getSpark2Neighbor (ifName_ neighborName : string)
    : M Spark2Neighbor :=
  let* st := get in
  let* ifNeighbors := at_ (spark2Neighbors_ st) ifName_ in
  at_ ifNeighbors neighborName.

(** [Spark::notifySparkNeighborEvent]. *)
Definition notifySparkNeighborEvent (eventType : SparkNeighborEventType)
    (ifName_ : string) (originator : SparkNeighbor) (rttUs label : Z)
    (supportFloodOptimization : bool) : M unit :=
  report (mkSparkNeighborEvent eventType ifName_ originator rttUs label
            supportFloodOptimization None).

(** [Spark::sendHandshakeMsg]. *)
Definition sendHandshakeMsg (ifName_ : string) (isAdjEstablished : bool)
    : M unit :=
  let* st := get in
  let* _ := at_ (interfaceDb_ st) ifName_ in
  match handshakeBytesSent env ifName_ isAdjEstablished with
  | None => ret tt
  | Some size =>
      modify (λ st, set_sentHandshakes
                      ((ifName_, isAdjEstablished) :: sentHandshakes st)
                      st) ;;
      addStatValue "spark.handshake.bytes_sent" size ;;
      addStatValue "spark.handshake.packets_sent" 1
  end.

(** [Spark::processNegotiateTimeout]. *)
Definition processNegotiateTimeout (ifName_ neighborName : string)
    : M unit :=
  let* neighbor := getSpark2Neighbor ifName_ neighborName in
  CHECK (bool_decide (state neighbor = NEGOTIATE)) "NEGOTIATE" ;;
  let* next := nextState (state neighbor) NEGOTIATE_TIMER_EXPIRE in
  modifySpark2Neighbor ifName_ neighborName (set_state next) ;;
  modifySpark2Neighbor ifName_ neighborName
    (λ n, set_timers false (negotiateHoldTimer n) n).

(** [Spark::processHelloMsg]. *)
Definition processHelloMsg (helloMsg : SparkHelloMsg) (ifName_ : string)
    : M unit :=
  let neighborName := m_nodeName helloMsg in
  let domainName := m_domainName helloMsg in
  let remoteIfName := m_ifName helloMsg in
  let neighborInfos := m_neighborInfos helloMsg in
  let remoteVersion := to_uint32 (m_version helloMsg) in
  let remoteSeqNum := to_uint64 (m_seqNum helloMsg) in
  let* sane :=
    sanityCheckHelloPkt domainName neighborName remoteIfName remoteVersion in
  if decide (sane = FAILURE) then ret tt
  else
    let* st := get in
    match spark2Neighbors_ st !! ifName_ with
    | None => ret tt                  (* unknown interface *)
    | Some ifNeighbors =>
        match ifNeighbors !! neighborName with
        | None =>
            let* label := getNewLabelForIface ifName_ in
            let* neighbor :=
              newSpark2Neighbor domainName neighborName remoteIfName label
                remoteSeqNum in
            modify (λ st, set_spark2Neighbors_
              (<[ifName_ := <[neighborName := neighbor]> ifNeighbors]>
                 (spark2Neighbors_ st)) st) ;;
            CHECK (bool_decide (state neighbor = IDLE)) "IDLE" ;;
            let* next := nextState (state neighbor) HELLO_RCVD_NO_INFO in
            modifySpark2Neighbor ifName_ neighborName (set_state next)
        | Some neighbor =>
            (* build SparkNeighbor to report to LinkMonitor *)
            let originator := toThrift env neighbor in
            if decide (state neighbor = WARM) then
              modifySpark2Neighbor ifName_ neighborName
                (set_s_seqNum remoteSeqNum) ;;
              match neighborInfos !! myNodeName_ cfg with
              | None =>
                  if m_solicitResponse helloMsg then
                    modify (λ st, set_scheduledHellos
                                    (ifName_ :: scheduledHellos st) st)
                  else ret tt
              | Some myInfo =>
                  let myRemoteSeqNum := to_uint64 (r_seqNum myInfo) in
                  if myRemoteSeqNum >=? mySeqNum_ st then ret tt
                  else
                    modifySpark2Neighbor ifName_ neighborName
                      (set_timers true true) ;;
                    (* Neighbor is aware of us. Promote to NEGOTIATE *)
                    let* next :=
                      nextState (state neighbor) HELLO_RCVD_INFO in
                    modifySpark2Neighbor ifName_ neighborName
                      (set_state next)
              end
            else if decide (state neighbor = ESTABLISHED) then
              modifySpark2Neighbor ifName_ neighborName
                (set_s_seqNum remoteSeqNum) ;;
              match neighborInfos !! myNodeName_ cfg with
              | None =>
                  (* Peer doesn't want to form adjacency with us. *)
                  let* next :=
                    nextState (state neighbor) HELLO_RCVD_NO_INFO in
                  modifySpark2Neighbor ifName_ neighborName
                    (set_state next) ;;
                  notifySparkNeighborEvent NEIGHBOR_DOWN ifName_ originator
                    (s_rtt neighbor) (s_label neighbor) true ;;
                  (* remove from spark2Neighbors_ collection *)
                  modify (λ st, set_allocatedLabels_
                            (allocatedLabels_ st ∖ {[s_label neighbor]})
                            st) ;;
                  modify (λ st, set_spark2Neighbors_
                            (alter (delete neighborName) ifName_
                               (spark2Neighbors_ st)) st)
              | Some _ => ret tt
              end
            else if decide (state neighbor = RESTART) then
              throw "CHECK failed: Not implemented yet"
            else ret tt
        end
    end.

(** [Spark::processHandshakeMsg]. *)
Definition processHandshakeMsg (handshakeMsg : SparkHandshakeMsg)
    (ifName_ : string) : M unit :=
  let neighborName := h_nodeName handshakeMsg in
  let* st := get in
  let* ifNeighbors := at_ (spark2Neighbors_ st) ifName_ in
  match ifNeighbors !! neighborName with
  | None => throw "CHECK failed: neighbor is NOT found"
  | Some neighbor =>
      (if negb (isAdjEstablished handshakeMsg)
       then sendHandshakeMsg ifName_
              (bool_decide (state neighbor = ESTABLISHED))
       else ret tt) ;;
      if negb (bool_decide (state neighbor = NEGOTIATE)) then ret tt
      else
        let* v4 :=
          (if enableV4_ cfg && enableSubnetValidation_ cfg
           then validateV4AddressSubnet ifName_
                  (h_transportAddressV4 handshakeMsg)
           else ret SUCCESS) in
        if decide (v4 = FAILURE) then ret tt
        else
          modifySpark2Neighbor ifName_ neighborName
            (set_negotiated handshakeMsg) ;;
          let* next := nextState (state neighbor) HANDSHAKE_RCVD in
          modifySpark2Neighbor ifName_ neighborName (set_state next) ;;
          modifySpark2Neighbor ifName_ neighborName
            (set_timers false false) ;;
          let* neighbor := getSpark2Neighbor ifName_ neighborName in
          notifySparkNeighborEvent NEIGHBOR_UP ifName_
            (toThrift env neighbor) (s_rtt neighbor) (s_label neighbor)
            true
  end.

(** [Spark::processHeartbeatMsg]. *)
Definition processHeartbeatMsg : M unit :=
  throw "CHECK failed: Not implemented yet".

(** [Spark::processHelloPacket]. *)
Definition processHelloPacket (rx : Received) : M unit :=
  (* Step 1: receive and parse pkt *)
  let* parsed := parsePacket rx in
  match parsed with
  | None => ret tt
  | Some (helloPacket, ifName_, myRecvTime) =>
      (* Step 2: Spark2 specific msg processing *)
      match enableSpark2_ cfg, helloMsg helloPacket,
            heartbeatMsg helloPacket, handshakeMsg helloPacket with
      | true, Some msg, _, _ => processHelloMsg msg ifName_
      | true, None, Some _, _ => processHeartbeatMsg
      | true, None, None, Some msg => processHandshakeMsg msg ifName_
      | _, _, _, _ =>
          (* Step 3: old spark way of processing logic *)
          processSparkHello helloPacket ifName_ myRecvTime
      end
  end.

End WithEnv.

(** The state after [addStatValue key 1]: one counter incremented, nothing
    else touched. *)
Definition bumped (key : string) (st : SparkState) : SparkState :=
  set_tData_ (<[key := default 0 (tData_ st !! key) + 1]> (tData_ st)) st.

(** A hello that the sanity check must refuse, and the counter that
    belongs to one of its defects. *)
Definition invalid_hello (cfg : Config) (domain name : string) (version : Z)
    : Prop :=
  name = myNodeName_ cfg ∨ domain ≠ myDomainName_ cfg ∨
  to_uint32 version < to_uint32 (kVersion_lowestSupportedVersion cfg).


(** The v4 subnet validation of [validateHelloPacket] is off, or it
    accepts the address. *)
Definition v4_accepted (env : Env) (cfg : Config) (st : SparkState)
    (ifName_ v4Addr : string) : Prop :=
  enableV4_ cfg && enableSubnetValidation_ cfg = false ∨
  ∃ iface, interfaceDb_ st !! ifName_ = Some iface ∧
           folly_validAddress env v4Addr = true ∧
           folly_inSubnet env (v4Network iface).1 v4Addr (v4Network iface).2
           = true.



(** The label of the neighbor tracked in a slot: Spark2 or not, the
    interface, the name of the neighbor. *)
Definition label_at (st : SparkState) (spark2 : bool)
    (ifName_ neighborName : string) : option Z :=
  if spark2
  then s_label <$> (spark2Neighbors_ st !! ifName_ ≫= (.!! neighborName))
  else label <$> (neighbors_ st !! ifName_ ≫= (.!! neighborName)).

(** The labels of the tracked neighbors are allocated, and no two
    neighbors have the same label. *)
Definition labels_inv (st : SparkState) : Prop :=
  ∀ spark2 ifName_ neighborName l,
    label_at st spark2 ifName_ neighborName = Some l →
    l ∈ allocatedLabels_ st ∧
    ∀ spark2' ifName' neighborName',
      label_at st spark2' ifName' neighborName' = Some l →
      (spark2', ifName', neighborName') = (spark2, ifName_, neighborName).

(** A step that keeps [labels_inv]. *)
Definition labels_step (st st' : SparkState) : Prop :=
  labels_inv st → labels_inv st'.

(** Between two states events were reported, none of which announces a
    neighbor as up. *)
Definition no_neighbor_up (st st' : SparkState) : Prop :=
  ∃ new, reported st' = new ++ reported st ∧
         Forall (λ e, eventType e ≠ NEIGHBOR_UP) new.

(** The hello reflects this node, with a sequence number below the one
    this node will send next: the neighbor has heard this node. *)
Definition reflects_me (cfg : Config) (pkt : SparkHelloPacket)
    (mySeqNum : Z) : Prop :=
  ∃ myInfo, neighborInfos (payload pkt) !! myNodeName_ cfg = Some myInfo ∧
            to_uint64 (r_seqNum myInfo) < mySeqNum.

End Spark.

(** ** A two-node scenario: this node "node-1" hears "node-2" on "iface1". *)

Module SparkScenario.
Import StateExn Spark.

Definition env : Env :=
  mkEnv (50000, 59999) 50 (λ _, true) (λ _ _ _, true) (λ _, None) (λ _, None)
    (λ n, mkSparkNeighbor (s_domainName n) (s_nodeName n)
            (gracefulRestartHoldTime n) (s_transportAddressV6 n)
            (s_transportAddressV4 n) (s_remoteIfName n))
    (λ _ _, Some 128).

Definition cfg : Config :=
  mkConfig "terragraph" "node-1" 20191122 20180307 false false false None
    30000 5000.

Definition iface1 : Interface :=
  mkInterface 10000 ("192.168.0.1", 24) ("fe80::1", 64).

Definition node2 : SparkNeighbor :=
  mkSparkNeighbor "terragraph" "node-2" 30000 "fe80::2" "192.168.0.2" "iface2".

(** "node-2" is tracked on "iface1" with sequence number 7. *)
Definition tracked : Neighbor :=
  mkNeighbor node2 None 59999 7 false 0 0 0 0 0 [] node2.

Definition st0 : SparkState :=
  mkSparkState 5 {[ "iface1" := iface1 ]} {[ "iface1" := ∅ ]}
    {[ "iface1" := ∅ ]} ∅ ∅ [] [] [].

Definition st1 : SparkState :=
  mkSparkState 5 {[ "iface1" := iface1 ]}
    {[ "iface1" := {[ "node-2" := tracked ]} ]}
    {[ "iface1" := ∅ ]} {[ 59999 ]} ∅ [] [] [].

(** A hello of [from] with a sequence number, reflecting this node's
    timestamps [(mySent, nbrRecv)] and sent at [nbrSent]. *)
Definition hello (from : SparkNeighbor) (seq mySent nbrRecv nbrSent : Z)
    : SparkHelloPacket :=
  mkSparkHelloPacket
    (mkSparkPayload from seq
       {[ "node-1" := mkReflectedNeighborInfo 4 mySent nbrRecv ]}
       nbrSent false false None None 20191122)
    None None None.


(** The same environment with a deserializer that reads one buffer, the
    hello of "node-2" with sequence number 8. *)
Definition env_wire : Env :=
  mkEnv (50000, 59999) 50 (λ _, true) (λ _ _ _, true)
    (λ buf, if decide (buf = "hello-8") then Some (hello node2 8 0 0 0)
            else None)
    (λ _, None) (toThrift env) (λ _ _, Some 128).

(** A hello of [from] that reflects no neighbor. *)
Definition hello_unheard (from : SparkNeighbor) (seq : Z)
    : SparkHelloPacket :=
  mkSparkHelloPacket
    (mkSparkPayload from seq ∅ 0 false false None None 20191122)
    None None None.


(** This node configured with the areas "a1" and "a2". *)
Definition cfg_areas : Config :=
  mkConfig "terragraph" "node-1" 20191122 20180307 false false false
    (Some ["a1"; "a2"]) 30000 5000.

End SparkScenario.

(* ===================================================================== *)
(** * KvStore records (Util.h, [createThriftValue])                        *)
(* ===================================================================== *)

Module KvStoreTypes.

(** [thrift::Value]. *)
Record Value := mkValue {
  version : Z;
  originatorId : string;
  value : option string;
  ttl : Z;
  ttlVersion : Z;
  hash : option Z;
}.

#[global] Instance Value_eq_dec : EqDecision Value.
Proof. solve_decision. Defined.

Definition createThriftValue (version : Z) (originatorId : string)
    (keyValue : option string) (ttl ttlVersion : Z) (hash : option Z)
    : Value :=
  mkValue version originatorId keyValue ttl ttlVersion hash.

End KvStoreTypes.

(* ===================================================================== *)
(** * The KvStore client (KvStoreClientInternal.cpp)                       *)
(* ===================================================================== *)

Module KvStoreClientInternal.
Import StateExn KvStoreTypes.

(** [ExponentialBackoff], of which only the interface is used here: an
    object is its two bounds and the reports it has received, newest
    first; what the clock makes of them is in [Env]. *)
Inductive BackoffReport := ReportError | ReportSuccess.

Record ExponentialBackoff := mkBackoff {
  initialBackoff : Z;
  maxBackoff : Z;
  reports : list BackoffReport;
}.

Definition reportError (b : ExponentialBackoff) : ExponentialBackoff :=
  mkBackoff (initialBackoff b) (maxBackoff b) (ReportError :: reports b).

(** The members of [KvStoreClientInternal].  Callbacks are observers:
    [keyCallbacks_] holds the keys that have one and [callbackLog] what
    they were called with.  [kvStoreSets] are the requests sent to the
    store with their success, newest first. *)
Record ClientState := mkClientState {
  persistedKeyVals_ : gmap string (gmap string Value);
  backoffs_ : gmap string ExponentialBackoff;
  keyTtlBackoffs_ : gmap string (gmap string (Value * ExponentialBackoff));
  keysToAdvertise_ : gmap string (gset string);
  keyCallbacks_ : gset string;
  callbackLog : list (string * Value);
  kvStoreSets : list (string * gmap string Value * bool);
  advertiseKeyValsTimer_ : option Z;
  ttlTimer_ : option Z;
}.

Abbreviation M := (StateExn.M ClientState).

(** The store behind [kvStore_], the clock and the constants of
    Constants.h. *)
Record Env := mkEnv {
  nodeId_ : string;
  kInitialBackoff : Z;
  kMaxBackoff : Z;
  kTtlInfinity : Z;
  kMaxTtlUpdateInterval : Z;
  (* [getKvStoreKeyVals] for one key, after the requests sent so far;
     [None] when the call throws or the key is not in the reply *)
  kvStoreGet : list (string * gmap string Value * bool) → string → string
               → option Value;
  (* whether [setKvStoreKeyVals] succeeds *)
  kvStoreSet : list (string * gmap string Value * bool) → string
               → gmap string Value → bool;
  canTryNow : ExponentialBackoff → bool;
  getTimeRemainingUntilRetry : ExponentialBackoff → Z;
}.

Definition set_persistedKeyVals_ (v : gmap string (gmap string Value))
    (st : ClientState) : ClientState :=
  mkClientState v (backoffs_ st) (keyTtlBackoffs_ st) (keysToAdvertise_ st)
    (keyCallbacks_ st) (callbackLog st) (kvStoreSets st)
    (advertiseKeyValsTimer_ st) (ttlTimer_ st).

Definition set_backoffs_ (v : gmap string ExponentialBackoff)
    (st : ClientState) : ClientState :=
  mkClientState (persistedKeyVals_ st) v (keyTtlBackoffs_ st)
    (keysToAdvertise_ st) (keyCallbacks_ st) (callbackLog st)
    (kvStoreSets st) (advertiseKeyValsTimer_ st) (ttlTimer_ st).

Definition set_keyTtlBackoffs_
    (v : gmap string (gmap string (Value * ExponentialBackoff)))
    (st : ClientState) : ClientState :=
  mkClientState (persistedKeyVals_ st) (backoffs_ st) v (keysToAdvertise_ st)
    (keyCallbacks_ st) (callbackLog st) (kvStoreSets st)
    (advertiseKeyValsTimer_ st) (ttlTimer_ st).

Definition set_keysToAdvertise_ (v : gmap string (gset string))
    (st : ClientState) : ClientState :=
  mkClientState (persistedKeyVals_ st) (backoffs_ st) (keyTtlBackoffs_ st) v
    (keyCallbacks_ st) (callbackLog st) (kvStoreSets st)
    (advertiseKeyValsTimer_ st) (ttlTimer_ st).

Definition set_callbackLog (v : list (string * Value)) (st : ClientState)
    : ClientState :=
  mkClientState (persistedKeyVals_ st) (backoffs_ st) (keyTtlBackoffs_ st)
    (keysToAdvertise_ st) (keyCallbacks_ st) v (kvStoreSets st)
    (advertiseKeyValsTimer_ st) (ttlTimer_ st).

Definition set_kvStoreSets (v : list (string * gmap string Value * bool))
    (st : ClientState) : ClientState :=
  mkClientState (persistedKeyVals_ st) (backoffs_ st) (keyTtlBackoffs_ st)
    (keysToAdvertise_ st) (keyCallbacks_ st) (callbackLog st) v
    (advertiseKeyValsTimer_ st) (ttlTimer_ st).

Definition set_advertiseKeyValsTimer_ (v : option Z) (st : ClientState)
    : ClientState :=
  mkClientState (persistedKeyVals_ st) (backoffs_ st) (keyTtlBackoffs_ st)
    (keysToAdvertise_ st) (keyCallbacks_ st) (callbackLog st)
    (kvStoreSets st) v (ttlTimer_ st).

Definition set_ttlTimer_ (v : option Z) (st : ClientState) : ClientState :=
  mkClientState (persistedKeyVals_ st) (backoffs_ st) (keyTtlBackoffs_ st)
    (keysToAdvertise_ st) (keyCallbacks_ st) (callbackLog st)
    (kvStoreSets st) (advertiseKeyValsTimer_ st) v.

(** [m[area]] on a map of maps: [operator[]] inserts an empty entry for an
    area that has none. *)
Definition touch `{Empty V} (area : string) (m : gmap string V)
    : gmap string V :=
  match m !! area with
  | Some _ => m
  | None => <[area := ∅]> m
  end.

Definition sub `{Empty V} (area : string) (m : gmap string V) : V :=
  default ∅ (m !! area).

Definition set_value (v : Value) (ver : Z) (orig : string)
    (val : option string) (t tv : Z) : Value :=
  mkValue ver orig val t tv (hash v).

Section WithEnv.
Context (env : Env).

(** [KvStoreClientInternal::getKey]. *)
Definition getKey (key area : string) : M (option Value) :=
  let* st := get in
  ret (kvStoreGet env (kvStoreSets st) area key).

(** [KvStoreClientInternal::setKeysHelper]: [true] for [folly::Unit()]. *)
Definition setKeysHelper (keyVals : gmap string Value) (area : string)
    : M bool :=
  if decide (keyVals = ∅) then ret true
  else
    let* st := get in
    let ok := kvStoreSet env (kvStoreSets st) area keyVals in
    modify (λ st, set_kvStoreSets ((area, keyVals, ok) :: kvStoreSets st)
                    st) ;;
    ret ok.

(** The body of the inner loop of [advertisePendingKeys], for one key;
    the accumulator is [timeout], [keyVals] and [keys]. *)
Definition advertisePendingKey (area key : string)
    (acc : Z * gmap string Value * list string)
    : M (Z * gmap string Value * list string) :=
  let '(timeout, keyVals, keys) := acc in
  let* st := get in
  let* thriftValue := at_ (sub area (persistedKeyVals_ st)) key in
  let* backoff := at_ (backoffs_ st) key in
  if negb (canTryNow env backoff) then
    ret (Z.min timeout (getTimeRemainingUntilRetry env backoff),
         keyVals, keys)
  else
    (* Apply backoff *)
    let backoff := reportError backoff in
    modify (λ st, set_backoffs_ (<[key := backoff]> (backoffs_ st)) st) ;;
    ret (Z.min timeout (getTimeRemainingUntilRetry env backoff),
         match keyVals !! key with
         | Some _ => keyVals
         | None => <[key := thriftValue]> keyVals
         end,
         keys ++ [key]).

Fixpoint forM {A B} (f : A → B → M B) (l : list A) (acc : B) : M B :=
  match l with
  | [] => ret acc
  | x :: rest => let* acc' := f x acc in forM f rest acc'
  end.

(** The body of the outer loop of [advertisePendingKeys], for one
    area. *)
Definition advertisePendingArea (area : string) (timeout : Z) : M Z :=
  let* st := get in
  let keysToAdvertise := sub area (keysToAdvertise_ st) in
  if decide (keysToAdvertise = ∅) then ret timeout
  else
    modify (λ st, set_persistedKeyVals_
                    (touch area (persistedKeyVals_ st)) st) ;;
    let* (timeout, keyVals, keys) :=
      forM (advertisePendingKey area) (elements keysToAdvertise)
        (timeout, ∅, []) in
    (* Advertise to KvStore *)
    let* ok := setKeysHelper keyVals area in
    (if ok then
       modify (λ st, set_keysToAdvertise_
         (<[area := sub area (keysToAdvertise_ st) ∖ list_to_set keys]>
            (keysToAdvertise_ st)) st)
     else ret tt) ;;
    ret timeout.

(** [KvStoreClientInternal::advertisePendingKeys]. *)
Definition advertisePendingKeys : M unit :=
  let* st := get in
  let* timeout :=
    forM advertisePendingArea (elements (dom (keysToAdvertise_ st)))
      (kMaxBackoff env) in
  modify (set_advertiseKeyValsTimer_ (Some timeout)).

(** The body of the inner loop of [advertiseTtlUpdates], for one key. *)
Definition advertiseTtlUpdate (area key : string)
    (acc : Z * gmap string Value) : M (Z * gmap string Value) :=
  let '(timeout, keyVals) := acc in
  let* st := get in
  let* (thriftValue, backoff) := at_ (sub area (keyTtlBackoffs_ st)) key in
  if negb (canTryNow env backoff) then
    ret (Z.min timeout (getTimeRemainingUntilRetry env backoff), keyVals)
  else
    (* Apply backoff *)
    let backoff := reportError backoff in
    let timeout := Z.min timeout (getTimeRemainingUntilRetry env backoff) in
    let thriftValue :=
      match sub area (persistedKeyVals_ st) !! key with
      | Some persisted =>
          (* we may have got a newer vesion for persisted key *)
          if version thriftValue <? version persisted then
            set_value thriftValue (version persisted)
              (originatorId thriftValue) (value thriftValue)
              (ttl thriftValue) (ttlVersion persisted)
          else thriftValue
      | None => thriftValue
      end in
    (* bump ttl version *)
    let thriftValue :=
      set_value thriftValue (version thriftValue)
        (originatorId thriftValue) (value thriftValue) (ttl thriftValue)
        (ttlVersion thriftValue + 1) in
    modify (λ st, set_keyTtlBackoffs_
      (<[area := <[key := (thriftValue, backoff)]>
                   (sub area (keyTtlBackoffs_ st))]>
         (keyTtlBackoffs_ st)) st) ;;
    ret (timeout,
         match keyVals !! key with
         | Some _ => keyVals
         | None => <[key := thriftValue]> keyVals
         end).

Definition advertiseTtlArea (area : string) (timeout : Z) : M Z :=
  let* st := get in
  modify (λ st, set_persistedKeyVals_
                  (touch area (persistedKeyVals_ st)) st) ;;
  let* (timeout, keyVals) :=
    forM (advertiseTtlUpdate area)
      (elements (dom (sub area (keyTtlBackoffs_ st)))) (timeout, ∅) in
  (if decide (keyVals = ∅) then ret tt
   else let* _ := setKeysHelper keyVals area in ret tt) ;;
  ret timeout.

(** [KvStoreClientInternal::advertiseTtlUpdates]. *)
Definition advertiseTtlUpdates : M unit :=
  let* st := get in
  let* timeout :=
    forM advertiseTtlArea (elements (dom (keyTtlBackoffs_ st)))
      (kMaxTtlUpdateInterval env) in
  modify (set_ttlTimer_ (Some timeout)).

(** [KvStoreClientInternal::scheduleTtlUpdates]; [version] and
    [ttlVersion] are [uint32_t] parameters. *)
Definition scheduleTtlUpdates (key : string) (version ttlVersion ttl : Z)
    (advertiseImmediately : bool) (area : string) : M unit :=
  let version := to_uint32 version in
  let ttlVersion := to_uint32 ttlVersion in
  modify (λ st, set_keyTtlBackoffs_ (touch area (keyTtlBackoffs_ st)) st) ;;
  if decide (ttl = kTtlInfinity env) then
    (* in case ttl is finite before *)
    modify (λ st, set_keyTtlBackoffs_
              (<[area := delete key (sub area (keyTtlBackoffs_ st))]>
                 (keyTtlBackoffs_ st)) st)
  else
    (* do not send value to reduce update overhead *)
    let ttlThriftValue :=
      createThriftValue version (nodeId_ env) None ttl ttlVersion
        (Some 0) in
    let backoff := mkBackoff (ttl ÷ 4) (ttl ÷ 4 + 1) [] in
    let backoff :=
      if negb advertiseImmediately then reportError backoff else backoff in
    modify (λ st, set_keyTtlBackoffs_
              (<[area := <[key := (ttlThriftValue, backoff)]>
                           (sub area (keyTtlBackoffs_ st))]>
                 (keyTtlBackoffs_ st)) st) ;;
    advertiseTtlUpdates.

(** [KvStoreClientInternal::persistKey]. *)
Definition persistKey (key value_ : string) (ttl_ : Z) (area : string)
    : M bool :=
  modify (λ st, set_persistedKeyVals_
                  (touch area (persistedKeyVals_ st)) st) ;;
  modify (λ st, set_keyTtlBackoffs_ (touch area (keyTtlBackoffs_ st)) st) ;;
  modify (λ st, set_keysToAdvertise_
                  (touch area (keysToAdvertise_ st)) st) ;;
  let* st := get in
  (* Default thrift value to use with invalid version=0 *)
  let thriftValue :=
    createThriftValue 0 (nodeId_ env) (Some value_) ttl_ 0 None in
  (* Retrieve the existing value for the key. *)
  let* existing :=
    match sub area (persistedKeyVals_ st) !! key with
    | None =>
        (* Get latest value from KvStore *)
        let* maybeValue := getKey key area in
        ret (Some (default thriftValue maybeValue))
    | Some thriftValue =>
        match value thriftValue with
        | None => throw "std::bad_optional_access"
        | Some stored =>
            if bool_decide (stored = value_)
               && bool_decide (ttl thriftValue = ttl_)
            then
              (* this is a no op, return early and change no state *)
              ret None
            else
              match sub area (keyTtlBackoffs_ st) !! key with
              | Some ttlIt =>
                  ret (Some (set_value thriftValue (version thriftValue)
                               (originatorId thriftValue)
                               (value thriftValue) (ttl thriftValue)
                               (ttlVersion ttlIt.1)))
              | None => ret (Some thriftValue)
              end
        end
    end in
  match existing with
  | None => ret false
  | Some thriftValue =>
      (* Decide if we need to re-advertise the key back to kv-store *)
      let '(thriftValue, valueChange) :=
        if version thriftValue =? 0 then
          (set_value thriftValue 1 (originatorId thriftValue)
             (value thriftValue) (ttl thriftValue)
             (ttlVersion thriftValue), true)
        else if bool_decide (originatorId thriftValue ≠ nodeId_ env)
                || bool_decide (value thriftValue ≠ Some value_) then
          (set_value thriftValue (version thriftValue + 1) (nodeId_ env)
             (Some value_) (ttl thriftValue) 0, true)
        else (thriftValue, false) in
      (* We must update ttl value to new one. *)
      let hasTtlChanged := bool_decide (ttl_ ≠ ttl thriftValue) in
      let thriftValue :=
        set_value thriftValue (version thriftValue)
          (originatorId thriftValue) (value thriftValue) ttl_
          (ttlVersion thriftValue) in
      (* Cache it in persistedKeyVals_. Override the existing one *)
      modify (λ st, set_persistedKeyVals_
                (<[area := <[key := thriftValue]>
                             (sub area (persistedKeyVals_ st))]>
                   (persistedKeyVals_ st)) st) ;;
      (* Override existing backoff as well *)
      modify (λ st, set_backoffs_
                (<[key := mkBackoff (kInitialBackoff env) (kMaxBackoff env)
                            []]> (backoffs_ st)) st) ;;
      (* Invoke callback with updated value *)
      (if bool_decide (key ∈ keyCallbacks_ st) && valueChange then
         modify (λ st, set_callbackLog ((key, thriftValue) :: callbackLog st)
                         st)
       else ret tt) ;;
      (* Add keys to list of pending keys *)
      (if valueChange then
         modify (λ st, set_keysToAdvertise_
                   (<[area := {[key]} ∪ sub area (keysToAdvertise_ st)]>
                      (keysToAdvertise_ st)) st)
       else ret tt) ;;
      (* Best effort to advertise pending keys *)
      advertisePendingKeys ;;
      scheduleTtlUpdates key (version thriftValue) (ttlVersion thriftValue)
        ttl_ hasTtlChanged area ;;
      ret true
  end.

(** [KvStoreClientInternal::unsetKey]. *)
Definition unsetKey (key area : string) : M unit :=
  modify (λ st, set_persistedKeyVals_
            (<[area := delete key (sub area (persistedKeyVals_ st))]>
               (persistedKeyVals_ st)) st) ;;
  modify (λ st, set_backoffs_ (delete key (backoffs_ st)) st) ;;
  modify (λ st, set_keyTtlBackoffs_
            (<[area := delete key (sub area (keyTtlBackoffs_ st))]>
               (keyTtlBackoffs_ st)) st) ;;
  modify (λ st, set_keysToAdvertise_
            (<[area := sub area (keysToAdvertise_ st) ∖ {[key]}]>
               (keysToAdvertise_ st)) st).

(** [KvStoreClientInternal::buildThriftValue]; [version] is a [uint32_t]
    parameter. *)
Definition buildThriftValue (key value_ : string) (version ttl_ : Z)
    (area : string) : M Value :=
  let version := to_uint32 version in
  (* Create 'thrift::Value' object which will be sent to KvStore *)
  let thriftValue :=
    createThriftValue version (nodeId_ env) (Some value_) ttl_ 0 (Some 0) in
  (* Use one version number higher than currently in KvStore if not
     specified *)
  if version =? 0 then
    let* maybeValue := getKey key area in
    match maybeValue with
    | Some current =>
        ret (set_value thriftValue (KvStoreTypes.version current + 1)
               (originatorId thriftValue) (value thriftValue)
               (ttl thriftValue) (ttlVersion thriftValue))
    | None =>
        ret (set_value thriftValue 1 (originatorId thriftValue)
               (value thriftValue) (ttl thriftValue)
               (ttlVersion thriftValue))
    end
  else ret thriftValue.

(** [KvStoreClientInternal::setKey] with a value, a version and a ttl;
    [true] for [folly::Unit()]. *)
Definition setKey (key value_ : string) (version ttl_ : Z) (area : string)
    : M bool :=
  (* Build new key-value pair *)
  let* thriftValue := buildThriftValue key value_ version ttl_ area in
  (* Advertise new key-value to KvStore *)
  let* ret_ := setKeysHelper {[ key := thriftValue ]} area in
  scheduleTtlUpdates key (KvStoreTypes.version thriftValue)
    (ttlVersion thriftValue) ttl_ false area ;;
  ret ret_.

(** [KvStoreClientInternal::clearKey]. *)
Definition clearKey (key keyValue : string) (ttl_ : Z) (area : string)
    : M unit :=
  (* erase keys *)
  unsetKey key area ;;
  (* if key doesn't exist in KvStore no need to add it as "empty". *)
  let* maybeValue := getKey key area in
  match maybeValue with
  | None => ret tt
  | Some thriftValue =>
      (* overwrite all values, increment version, reset value to empty *)
      let thriftValue :=
        set_value thriftValue (KvStoreTypes.version thriftValue + 1)
          (nodeId_ env) (Some keyValue) ttl_ 0 in
      (* Advertise to KvStore *)
      let* _ := setKeysHelper {[ key := thriftValue ]} area in
      ret tt
  end.

End WithEnv.

(** ** Publications of the store *)

(** [thrift::Publication]: the records by key, the expired keys and the
    area. *)
Module Publication.
Record t := mk {
  keyVals : gmap string Value;
  expiredKeys : list string;
  area : option string;
}.
End Publication.

(** A call of [kvCallback_], of the callback of a key for an expired key
    (it comes without a value), or of [keyPrefixFilterCallback_]. *)
Inductive Notification :=
| KvCallback (key : string) (v : option Value)
| ExpiredKeyCallback (key : string)
| KeyPrefixFilterCallback (key : string) (v : Value).

(** The client with the members that only the processing of publications
    reads: whether [kvCallback_] and [keyPrefixFilterCallback_] are set,
    [keyPrefixFilter_] as its [keyMatch], and the calls made so far, newest
    first.  A call of the callback of a key with a value goes to
    [callbackLog], as in [persistKey]. *)
Record Subscriber := mkSubscriber {
  client : ClientState;
  kvCallback_ : bool;
  keyPrefixFilterCallback_ : bool;
  keyPrefixFilter_ : string → Value → bool;
  notified : list Notification;
}.

Abbreviation MS := (StateExn.M Subscriber).

Definition set_client (c : ClientState) (s : Subscriber) : Subscriber :=
  mkSubscriber c (kvCallback_ s) (keyPrefixFilterCallback_ s)
    (keyPrefixFilter_ s) (notified s).

Definition notify (n : Notification) : MS unit :=
  modify (λ s, mkSubscriber (client s) (kvCallback_ s)
                 (keyPrefixFilterCallback_ s) (keyPrefixFilter_ s)
                 (n :: notified s)).

(** A member function of the client, run on the client of a
    subscriber. *)
Definition onClient {A} (m : M A) : MS A :=
  λ s, let '(result, c) := m (client s) in (result, set_client c s).

Definition modifyClient (f : ClientState → ClientState) : MS unit :=
  onClient (modify f).

(** A loop whose body returns nothing. *)
Fixpoint forEach {S A} (f : A → StateExn.M S unit) (l : list A)
    : StateExn.M S unit :=
  match l with
  | [] => ret tt
  | x :: rest => f x ;; forEach f rest
  end.

Section WithSubscriptions.
Context (env : Env).
(* [thrift::KvStore_constants::kDefaultArea()] *)
Context (kDefaultArea : string).

(** [KvStoreClientInternal::processExpiredKeys]. *)
Definition processExpiredKeys (publication : Publication.t) : MS unit :=
  forEach
    (λ key,
       let* s := get in
       (* callback registered by the thread *)
       (if kvCallback_ s then notify (KvCallback key None) else ret tt) ;;
       (* key specific registered callback *)
       (if bool_decide (key ∈ keyCallbacks_ (client s)) then
          notify (ExpiredKeyCallback key)
        else ret tt))
    (Publication.expiredKeys publication).

(** The body of the loop of [processPublication], for one received
    record. *)
Definition processKeyVal (area key : string) (rcvdValue : Value)
    : MS unit :=
  match value rcvdValue with
  | None => (* ignore TTL update *) ret tt
  | Some _ =>
      let* s := get in
      (if kvCallback_ s then notify (KvCallback key (Some rcvdValue))
       else ret tt) ;;
      (* Update local keyVals as per need *)
      let it := sub area (persistedKeyVals_ (client s)) !! key in
      let cb := bool_decide (key ∈ keyCallbacks_ (client s)) in
      (* set key w/ finite TTL *)
      let sk := sub area (keyTtlBackoffs_ (client s)) !! key in
      (* key set but not persisted *)
      (match sk, it with
       | Some (setValue, backoff), None =>
           if (version setValue <? version rcvdValue)
              || ((version rcvdValue =? version setValue)
                  && String.ltb (originatorId setValue)
                       (originatorId rcvdValue)) then
             (* key lost, cancel TTL update *)
             modifyClient (λ st, set_keyTtlBackoffs_
               (<[area := delete key (sub area (keyTtlBackoffs_ st))]>
                  (keyTtlBackoffs_ st)) st)
           else if (version rcvdValue =? version setValue)
                   && bool_decide (originatorId rcvdValue
                                   = originatorId setValue)
                   && (ttlVersion setValue <? ttlVersion rcvdValue) then
             (* update local value if rcvd ttlVersion is higher *)
             if ttlVersion setValue <? ttlVersion rcvdValue then
               let setValue :=
                 set_value setValue (version setValue)
                   (originatorId setValue) (value setValue)
                   (ttl setValue) (ttlVersion rcvdValue + 1) in
               modifyClient (λ st, set_keyTtlBackoffs_
                 (<[area := <[key := (setValue, backoff)]>
                              (sub area (keyTtlBackoffs_ st))]>
                    (keyTtlBackoffs_ st)) st)
             else ret tt
           else ret tt
       | _, _ => ret tt
       end) ;;
      match it with
      | None =>
          (* We need to alert callback if a key is not persisted and we
             received a change notification for it. *)
          (if cb then
             modifyClient (λ st, set_callbackLog
                             ((key, rcvdValue) :: callbackLog st) st)
           else ret tt) ;;
          (* callback for a given key filter *)
          (if keyPrefixFilterCallback_ s
              && keyPrefixFilter_ s key rcvdValue then
             notify (KeyPrefixFilterCallback key rcvdValue)
           else ret tt)
          (* Skip rest of the processing. We are not interested. *)
      | Some currentValue =>
          (* Ignore if received version is strictly old *)
          if version rcvdValue <? version currentValue then ret tt
          else
            (* Update if our version is old *)
            let '(currentValue, valueChange) :=
              if version currentValue <? version rcvdValue then
                (* Bump-up version number *)
                (set_value currentValue (version rcvdValue + 1)
                   (nodeId_ env) (value currentValue) (ttl currentValue) 0,
                 true)
              else (currentValue, false) in
            (* version is same but originator id is different. *)
            let '(currentValue, valueChange) :=
              if negb valueChange
                 && bool_decide (originatorId rcvdValue ≠ nodeId_ env) then
                (set_value currentValue (version currentValue + 1)
                   (nodeId_ env) (value currentValue) (ttl currentValue) 0,
                 true)
              else (currentValue, valueChange) in
            (* Need to re-advertise if value doesn't matches. *)
            let '(currentValue, valueChange) :=
              if negb valueChange
                 && bool_decide (value currentValue ≠ value rcvdValue) then
                (set_value currentValue (version currentValue + 1)
                   (nodeId_ env) (value currentValue) (ttl currentValue) 0,
                 true)
              else (currentValue, valueChange) in
            (* copy ttlVersion from ttl backoff map *)
            let currentValue :=
              match sk with
              | Some (setValue, _) =>
                  set_value currentValue (version currentValue)
                    (originatorId currentValue) (value currentValue)
                    (ttl currentValue) (ttlVersion setValue)
              | None => currentValue
              end in
            (* update local ttlVersion if received higher ttlVersion. *)
            let '(currentValue, sk) :=
              if ttlVersion currentValue <? ttlVersion rcvdValue then
                (set_value currentValue (version currentValue)
                   (originatorId currentValue) (value currentValue)
                   (ttl currentValue) (ttlVersion rcvdValue),
                 (λ '(setValue, backoff),
                    (set_value setValue (version setValue)
                       (originatorId setValue) (value setValue)
                       (ttl setValue) (ttlVersion rcvdValue), backoff))
                 <$> sk)
              else (currentValue, sk) in
            modifyClient (λ st, set_persistedKeyVals_
              (<[area := <[key := currentValue]>
                           (sub area (persistedKeyVals_ st))]>
                 (persistedKeyVals_ st)) st) ;;
            (match sk with
             | Some entry =>
                 modifyClient (λ st, set_keyTtlBackoffs_
                   (<[area := <[key := entry]>
                                (sub area (keyTtlBackoffs_ st))]>
                      (keyTtlBackoffs_ st)) st)
             | None => ret tt
             end) ;;
            (if valueChange && cb then
               modifyClient (λ st, set_callbackLog
                               ((key, currentValue) :: callbackLog st) st)
             else ret tt) ;;
            (if valueChange then
               modifyClient (λ st, set_keysToAdvertise_
                 (<[area := {[key]} ∪ sub area (keysToAdvertise_ st)]>
                    (keysToAdvertise_ st)) st)
             else ret tt)
      end
  end.

(** [KvStoreClientInternal::processPublication]; the records are taken in
    the order in which the map gives them. *)
Definition processPublication (publication : Publication.t) : MS unit :=
  (* Go through received key-values and find out the ones which need
     update *)
  let area := default kDefaultArea (Publication.area publication) in
  modifyClient (λ st, set_persistedKeyVals_
                        (touch area (persistedKeyVals_ st)) st) ;;
  modifyClient (λ st, set_keyTtlBackoffs_
                        (touch area (keyTtlBackoffs_ st)) st) ;;
  modifyClient (λ st, set_keysToAdvertise_
                        (touch area (keysToAdvertise_ st)) st) ;;
  forEach (λ kv, processKeyVal area kv.1 kv.2)
    (map_to_list (Publication.keyVals publication)) ;;
  onClient (advertisePendingKeys env) ;;
  if bool_decide (Publication.expiredKeys publication ≠ []) then
    processExpiredKeys publication
  else ret tt.

End WithSubscriptions.

(** The three maps that [persistKey] indexes by area have an entry for
    it, as they do once [persistKey] was called for the area. *)
Definition area_known (area : string) (st : ClientState) : Prop :=
  is_Some (persistedKeyVals_ st !! area) ∧
  is_Some (keyTtlBackoffs_ st !! area) ∧
  is_Some (keysToAdvertise_ st !! area).

(** The record a call of [persistKey] starts from: the persisted one, or
    else the one of the store. *)
Definition currentValue (env : Env) (st : ClientState) (key area : string)
    : option Value :=
  match sub area (persistedKeyVals_ st) !! key with
  | Some v => Some v
  | None => kvStoreGet env (kvStoreSets st) area key
  end.

(** Every key waiting to be advertised is persisted and has a backoff, so
    that the [at] of [advertisePendingKeys] do not throw. *)
Definition consistent (st : ClientState) : Prop :=
  ∀ area key,
    key ∈ sub area (keysToAdvertise_ st) →
    is_Some (sub area (persistedKeyVals_ st) !! key) ∧
    is_Some (backoffs_ st !! key).

(** Two states persist the same records. *)
Definition same_persisted (st st' : ClientState) : Prop :=
  ∀ area, sub area (persistedKeyVals_ st') = sub area (persistedKeyVals_ st).

(** What [advertiseTtlUpdates] leaves alone: the persisted records, the
    backoffs, the pending keys, and which keys have a TTL schedule. *)
Definition ttl_step (st st' : ClientState) : Prop :=
  same_persisted st st' ∧
  backoffs_ st' = backoffs_ st ∧
  keysToAdvertise_ st' = keysToAdvertise_ st ∧
  ∀ area, dom (sub area (keyTtlBackoffs_ st'))
          = dom (sub area (keyTtlBackoffs_ st)).

(** No map indexed by area loses an area. *)
Definition grows (st st' : ClientState) : Prop :=
  ∀ area,
    (is_Some (persistedKeyVals_ st !! area) →
     is_Some (persistedKeyVals_ st' !! area)) ∧
    (is_Some (keyTtlBackoffs_ st !! area) →
     is_Some (keyTtlBackoffs_ st' !! area)) ∧
    (is_Some (keysToAdvertise_ st !! area) →
     is_Some (keysToAdvertise_ st' !! area)).

(** What the advertising of pending keys and of ttl updates keeps, whether
    it returns or throws: the areas and the persisted records. *)
Definition kept (st st' : ClientState) : Prop :=
  grows st st' ∧ same_persisted st st'.

End KvStoreClientInternal.

(** ** A client of "node-1" that has persisted one key in area "0" *)

Module ClientScenario.
Import KvStoreTypes KvStoreClientInternal.

(** The store holds no key and accepts every request; a backoff lets a
    first attempt through and holds the next one back. *)
Definition env : Env :=
  mkEnv "node-1" 64 8192 (- 2 ^ 31) 7200000
    (λ _ _ _, None) (λ _ _ _, true)
    (λ b, match reports b with [] => true | _ => false end)
    (λ b, match reports b with [] => 0 | _ => initialBackoff b end).

Definition stored : Value :=
  mkValue 1 "node-1" (Some "value1") (- 2 ^ 31) 0 None.

Definition st0 : ClientState :=
  mkClientState {[ "0" := {[ "key1" := stored ]} ]}
    {[ "key1" := mkBackoff 64 8192 [ReportError] ]}
    {[ "0" := ∅ ]} {[ "0" := ∅ ]} ∅ [] [] (Some 64) None.

(** The client after it has set "key3" for a second, with nobody
    listening but the thread, and a publication of area "0" in which
    "node-2" has overwritten both keys. *)
Definition subscriber : Subscriber :=
  mkSubscriber (setKey env "key3" "value3" 0 1000 "0" st0).2 true false
    (λ _ _, false) [].

Definition publication : Publication.t :=
  Publication.mk
    {[ "key1" := mkValue 5 "node-2" (Some "theirs") 1000 0 None;
       "key3" := mkValue 2 "node-2" (Some "theirs") 1000 0 None ]}
    [] None.

(** The same client while the store refuses every request. *)
Definition env_down : Env :=
  mkEnv "node-1" 64 8192 (- 2 ^ 31) 7200000
    (λ _ _ _, None) (λ _ _ _, false)
    (λ b, match reports b with [] => true | _ => false end)
    (λ b, match reports b with [] => 0 | _ => initialBackoff b end).

End ClientScenario.

(* ===================================================================== *)
(** * PrefixManager (PrefixManager.h)                                      *)
(* ===================================================================== *)

Module PrefixManager.

(** [thrift::PrefixType], with the sources the specification names. *)
Inductive PrefixType := LOOPBACK | CLIENT | BGP | OtherType (code : Z).

Inductive PrefixForwardingType := IP | SR_MPLS.
Inductive PrefixForwardingAlgorithm := SP_ECMP | KSP2_ED_ECMP.

#[global] Instance PrefixType_eq_dec : EqDecision PrefixType.
Proof. solve_decision. Defined.

(** [thrift::IpPrefix]: the address and the prefix length. *)
Abbreviation IpPrefix := (string * Z)%type.

(** [thrift::PrefixEntry], with the fields of [createPrefixEntry]
    (Util.h). *)
Record PrefixEntry := mkPrefixEntry {
  prefix : IpPrefix;
  type : PrefixType;
  data : string;
  forwardingType : PrefixForwardingType;
  forwardingAlgorithm : PrefixForwardingAlgorithm;
  ephemeral : option bool;
  mv : option MetricVectorUtils.MetricVector;
}.

(** The helper [createPrefixEntry] of the control-handler test: prefix and
    type, the other fields as thrift initialises them. *)
Definition createPrefixEntry (prefix : IpPrefix) (prefixType : PrefixType)
    : PrefixEntry :=
  mkPrefixEntry prefix prefixType "" IP SP_ECMP None None.

(** The member [prefixMap_]: "the current prefix db this node is
    advertising", one entry per prefix. *)
Abbreviation PrefixMap := (gmap IpPrefix PrefixEntry).

#[global] Instance PrefixForwardingType_eq_dec :
  EqDecision PrefixForwardingType.
Proof. solve_decision. Defined.
#[global] Instance PrefixForwardingAlgorithm_eq_dec :
  EqDecision PrefixForwardingAlgorithm.
Proof. solve_decision. Defined.
#[global] Instance PrefixEntry_eq_dec : EqDecision PrefixEntry.
Proof. solve_decision. Defined.

(** Modelled from the spec: PrefixManager.cpp is not part of the sources;
    the helpers below are the ones PrefixManager.h declares ("helpers to
    modify prefix db, returns true if the db is modified"), with the
    behaviour the specification gives to [advertise], [withdraw],
    [withdraw_by_type], [sync_by_type], [get_all] and [get_by_type].

    [advertise]: each entry is added, or replaces the entry of its
    prefix. *)
Definition addOrUpdatePrefix (acc : bool * PrefixMap) (entry : PrefixEntry)
    : bool * PrefixMap :=
  let '(updated, prefixMap_) := acc in
  if decide (prefixMap_ !! prefix entry = Some entry) then acc
  else (true, <[prefix entry := entry]> prefixMap_).

Definition addOrUpdatePrefixes (prefixes : list PrefixEntry)
    (prefixMap_ : PrefixMap) : bool * PrefixMap :=
  foldl addOrUpdatePrefix (false, prefixMap_) prefixes.

(** Modelled from the spec: [withdraw] removes the entries; "no partial
    success for batched set/withdraw operations: either the full batch
    applies or the call fails without side effects", so a batch with an
    entry that is not advertised (with that type) changes nothing. *)
Definition advertised (prefixMap_ : PrefixMap) (entry : PrefixEntry) : bool :=
  match prefixMap_ !! prefix entry with
  | Some existing => bool_decide (type existing = type entry)
  | None => false
  end.

Definition removePrefixes (prefixes : list PrefixEntry)
    (prefixMap_ : PrefixMap) : bool * PrefixMap :=
  if forallb (advertised prefixMap_) prefixes then
    (negb (bool_decide (prefixes = [])),
     foldl (λ m entry, delete (prefix entry) m) prefixMap_ prefixes)
  else (false, prefixMap_).

(** Modelled from the spec: [withdraw_by_type] removes every entry of the
    type. *)
Definition removePrefixesByType (type_ : PrefixType) (prefixMap_ : PrefixMap)
    : bool * PrefixMap :=
  let kept := filter (λ kv, type kv.2 ≠ type_) prefixMap_ in
  (negb (bool_decide (kept = prefixMap_)), kept).

(** Modelled from the spec: [sync_by_type], "replace all prefixes of @type
    w/ @prefixes". *)
Definition syncPrefixesByType (type_ : PrefixType)
    (prefixes : list PrefixEntry) (prefixMap_ : PrefixMap)
    : bool * PrefixMap :=
  let kept := filter (λ kv, type kv.2 ≠ type_) prefixMap_ in
  let synced := (addOrUpdatePrefixes prefixes kept).2 in
  (negb (bool_decide (synced = prefixMap_)), synced).

(** Modelled from the spec: [get_all] and [get_by_type]. *)
Definition getPrefixes (prefixMap_ : PrefixMap) : list PrefixEntry :=
  (map_to_list prefixMap_).*2.

Definition getPrefixesByType (type_ : PrefixType) (prefixMap_ : PrefixMap)
    : list PrefixEntry :=
  filter (λ entry, type entry = type_) (getPrefixes prefixMap_).

(** The calls of the control API, on the db of the prefix manager. *)
Inductive Request :=
| advertise_prefixes (prefixes : list PrefixEntry)
| withdraw_prefixes (prefixes : list PrefixEntry)
| withdraw_prefixes_by_type (type_ : PrefixType)
| sync_prefixes_by_type (type_ : PrefixType) (prefixes : list PrefixEntry).

Definition processRequest (prefixMap_ : PrefixMap) (request : Request)
    : PrefixMap :=
  match request with
  | advertise_prefixes prefixes => (addOrUpdatePrefixes prefixes prefixMap_).2
  | withdraw_prefixes prefixes => (removePrefixes prefixes prefixMap_).2
  | withdraw_prefixes_by_type type_ =>
      (removePrefixesByType type_ prefixMap_).2
  | sync_prefixes_by_type type_ prefixes =>
      (syncPrefixesByType type_ prefixes prefixMap_).2
  end.

(** The scenario of the test [OpenrCtrlFixture.PrefixManagerApis]. *)
Definition lifecycle : list Request :=
  [ advertise_prefixes
      [ createPrefixEntry ("10.0.0.0", 8) LOOPBACK;
        createPrefixEntry ("11.0.0.0", 8) LOOPBACK;
        createPrefixEntry ("20.0.0.0", 8) BGP;
        createPrefixEntry ("21.0.0.0", 8) BGP ];
    withdraw_prefixes [ createPrefixEntry ("21.0.0.0", 8) BGP ];
    withdraw_prefixes_by_type LOOPBACK;
    sync_prefixes_by_type BGP [ createPrefixEntry ("23.0.0.0", 8) BGP ] ].

End PrefixManager.

(* ===================================================================== *)
(** * ConfigStore                                                          *)
(* ===================================================================== *)

Module ConfigStore.

(** [thrift::OpenrError], the typed error of the control API. *)
Inductive OpenrError := NotFound (key : string).

(** Modelled from the spec: PersistentStore and the handlers
    [setConfigKey], [getConfigKey] and [eraseConfigKey] of OpenrCtrlHandler
    are not part of the sources (only their test is).  The store is a
    "durable map {key → bytes}" with the operations
    [set_config_key(key, value)], [get_config_key(key) -> bytes | NotFound]
    and [erase_config_key(key)]; "last-writer-wins for a key". *)
Abbreviation Database := (gmap string string).

Definition set_config_key (key value : string) (database : Database)
    : Database :=
  <[key := value]> database.

Definition erase_config_key (key : string) (database : Database) : Database :=
  delete key database.

Definition get_config_key (key : string) (database : Database)
    : string + OpenrError :=
  match database !! key with
  | Some value => inl value
  | None => inr (NotFound key)
  end.

End ConfigStore.

(* ===================================================================== *)
(** * KvStore: filtered dumps                                              *)
(* ===================================================================== *)

Module KvStore.
Import KvStoreTypes.

(** [thrift::KeyDumpParams], with the fields the test sets. *)
Record KeyDumpParams := mkKeyDumpParams {
  p_prefix : string;
  originatorIds : gset string;
}.

(** Modelled from the spec: KvStore.cpp and [KvStoreFilters] are not part
    of the sources (KvStoreWrapper.cpp and the test only call them).  A
    record passes the filter when its "key matches configured key-prefix
    filters or [its] originator is in an allowlist"; a dump with a prefix
    returns the keys "whose name starts with" it "regardless of their
    originator"; an empty filter lets every record through. *)
Definition keyMatch (params : KeyDumpParams) (key : string) (value : Value)
    : bool :=
  let noPrefix := bool_decide (p_prefix params = "") in
  let noOriginators := bool_decide (originatorIds params = ∅) in
  (noPrefix && noOriginators)
  || (negb noPrefix && String.prefix (p_prefix params) key)
  || (negb noOriginators
      && bool_decide (originatorId value ∈ originatorIds params)).

(** Modelled from the spec: [get_kv_store_key_vals_filtered], the records
    that pass the filter. *)
Definition dumpAllWithFilters (params : KeyDumpParams)
    (kvStore_ : gmap string Value) : gmap string Value :=
  filter (λ kv, keyMatch params kv.1 kv.2 = true) kvStore_.

(** Modelled from the spec: [get_kv_store_hash_filtered], "the same keys
    with [value] omitted". *)
Definition omitValue (v : Value) : Value :=
  mkValue (version v) (originatorId v) None (ttl v) (ttlVersion v) (hash v).

Definition dumpHashWithFilters (params : KeyDumpParams)
    (kvStore_ : gmap string Value) : gmap string Value :=
  omitValue <$> dumpAllWithFilters params kvStore_.

Section Scenario.
(** [Constants::kTtlThreshold], the default ttl of
    [createThriftValue]. *)
Variable kTtlThreshold : Z.

Definition record (originator value : string) : Value :=
  createThriftValue 1 originator (Some value) kTtlThreshold 0 None.

(** The nine records of the test [OpenrCtrlFixture.KvStoreApis]. *)
Definition seeded : gmap string Value :=
  list_to_map
    [ ("key1", record "node1" "value1");
      ("key11", record "node1" "value11");
      ("key111", record "node1" "value111");
      ("key2", record "node1" "value2");
      ("key22", record "node1" "value22");
      ("key222", record "node1" "value222");
      ("key3", record "node3" "value3");
      ("key33", record "node33" "value33");
      ("key333", record "node33" "value333") ].

Definition key3_of_node3 : KeyDumpParams := mkKeyDumpParams "key3" {["node3"]}.
End Scenario.

End KvStore.

(* ===================================================================== *)
(** * MPLS labels and actions, set difference (Util.h)                     *)
(* ===================================================================== *)

Module Util.

(** [isMplsLabelValid]: the [int32_t] label is converted to [unsigned int],
    the type of the literal [0xfff00000], for the [&]. *)
Definition isMplsLabelValid (mplsLabel : Z) : bool :=
  Z.land (to_uint32 mplsLabel) 0xfff00000 =? 0.

Inductive MplsActionCode :=
| PUSH | SWAP | PHP | POP_AND_LOOKUP | UnknownCode (code : Z).

(** [thrift::MplsAction]; the labels are [int32_t]. *)
Record MplsAction := mkMplsAction {
  action : MplsActionCode;
  swapLabel : option Z;
  pushLabels : option (list Z);
}.

(** A failed [CHECK] aborts the process: no result. *)
Definition CHECK (b : bool) : option unit := if b then Some tt else None.

Definition hasValue {A} (o : option A) : bool :=
  match o with Some _ => true | None => false end.

(** [checkMplsAction], "validates mplsAction object and fatals". *)
Definition checkMplsAction (mplsAction : MplsAction) : option unit :=
  match action mplsAction with
  | PUSH =>
      (* Swap label shouldn't be set *)
      CHECK (negb (hasValue (swapLabel mplsAction))) ;;
      (* Push labels should be set *)
      labels ← pushLabels mplsAction;
      (* there should be atleast one push label *)
      CHECK (negb (bool_decide (labels = []))) ;;
      CHECK (forallb isMplsLabelValid labels)
  | SWAP =>
      (* Swap label should be set *)
      label ← swapLabel mplsAction;
      CHECK (isMplsLabelValid label) ;;
      (* Push labels shouldn't be set *)
      CHECK (negb (hasValue (pushLabels mplsAction)))
  | PHP | POP_AND_LOOKUP =>
      (* Swap label should not be set *)
      CHECK (negb (hasValue (swapLabel mplsAction))) ;;
      CHECK (negb (hasValue (pushLabels mplsAction)))
  | UnknownCode _ => CHECK false      (* "Unknown action code" *)
  end.

(** [createMplsAction]. *)
Definition createMplsAction (mplsActionCode : MplsActionCode)
    (maybeSwapLabel : option Z) (maybePushLabels : option (list Z))
    : option MplsAction :=
  let mplsAction :=
    mkMplsAction mplsActionCode maybeSwapLabel maybePushLabels in
  checkMplsAction mplsAction ;;     (* sanity checks *)
  Some mplsAction.

(** [buildSetDifference]: the values of [lhs] that [rhs.find] does not
    find are copied to a vector, from which the result is built. *)
Definition buildSetDifference `{Countable T} (lhs rhs : gset T) : gset T :=
  let result := filter (λ val, val ∉ rhs) (elements lhs) in
  list_to_set result.

End Util.

(* ===================================================================== *)
(** * Theorems                                                             *)
(* ===================================================================== *)

(** Unfolding the computations of [Spark.M] into functions of the state. *)
Ltac unfold_M :=
  unfold StateExn.bind, StateExn.get, StateExn.at_, StateExn.ret,
    StateExn.throw, StateExn.modify, Spark.addStatValue, Spark.report,
    Spark.CHECK, KvStoreClientInternal.getKey in *;
  cbn beta iota in *.

Section FsmFacts.
Import SparkFsm.

Lemma getNextState_established (s : SparkNeighState) (e : SparkNeighEvent) :
  getNextState (Some s) e = Some ESTABLISHED ↔
  (s = NEGOTIATE ∧ e = HANDSHAKE_RCVD) ∨
  (s = ESTABLISHED ∧ e = HEARTBEAT_RCVD) ∨
  (s = RESTART ∧ e = HELLO_RCVD_INFO).
Proof.
  split.
  - destruct s, e; cbn; intros H; try discriminate H; tauto.
  - intros [[-> ->] | [[-> ->] | [-> ->]]]; reflexivity.
Qed.

Lemma getNextState_restart (s : SparkNeighState) (e : SparkNeighEvent) :
  getNextState (Some s) e = Some RESTART ↔
  s = ESTABLISHED ∧ e = HELLO_RCVD_RESTART.
Proof.
  split.
  - destruct s, e; cbn; intros H; try discriminate H; tauto.
  - intros [-> ->]; reflexivity.
Qed.

Lemma getNextState_negotiate (s : SparkNeighState) (e : SparkNeighEvent) :
  getNextState (Some s) e = Some NEGOTIATE ↔ s = WARM ∧ e = HELLO_RCVD_INFO.
Proof.
  split.
  - destruct s, e; cbn; intros H; try discriminate H; tauto.
  - intros [-> ->]; reflexivity.
Qed.

Lemma passed_app (h t : list SparkNeighState) :
  passed_warm_negotiate h → passed_warm_negotiate (h ++ t).
Proof.
  intros (p1 & p2 & p3 & ->). exists p1, p2, (p3 ++ t).
  by rewrite <- !app_assoc; cbn; rewrite <- !app_assoc.
Qed.

Lemma passed_snoc_negotiate (h : list SparkNeighState) :
  WARM ∈ h → passed_warm_negotiate (h ++ [NEGOTIATE]).
Proof.
  intros (p1 & p2 & ->)%list_elem_of_split. exists p1, p2, [].
  by rewrite <- app_assoc.
Qed.

(** Splitting [h ++ [c]] at an occurrence of [ESTABLISHED]: the occurrence
    is the last element, or it lies inside [h]. *)
Lemma snoc_split_established (h pre post : list SparkNeighState)
    (c : SparkNeighState) :
  h ++ [c] = pre ++ ESTABLISHED :: post →
  (c = ESTABLISHED ∧ pre = h ∧ post = []) ∨
  (∃ post', post = post' ++ [c] ∧ h = pre ++ ESTABLISHED :: post').
Proof.
  intros E. destruct post as [|x post _] using rev_ind.
  - left. apply app_inj_tail in E as [-> ->]. done.
  - right. exists post.
    change (h ++ [c] = pre ++ (ESTABLISHED :: post) ++ [x]) in E.
    rewrite app_assoc in E. apply app_inj_tail in E as [-> ->]. done.
Qed.

Lemma fsm_inv_initial : fsm_inv initial.
Proof.
  repeat split; cbn.
  - intros pre post E. by destruct pre.
  - done.
  - intros [?|?]; done.
Qed.

Lemma fsm_inv_fire (x x' : Execution) (e : SparkNeighEvent) :
  fsm_inv x → fire x e = Some x' → fsm_inv x'.
Proof.
  intros (Ha & Hb & Hc). unfold fire.
  destruct (getNextState (Some (current x)) e) as [n|] eqn:En; [|done].
  intros [= <-]. unfold fsm_inv, visited; cbn. repeat split.
  - intros pre post E.
    apply snoc_split_established in E as [(Hc' & -> & _) | (post' & _ & E)].
    + apply Hc. by left.
    + by eapply Ha.
  - intros ->. apply getNextState_negotiate in En as [Hw _].
    rewrite Hw. set_solver.
  - intros [-> | ->].
    + apply getNextState_established in En
        as [[Hs _] | [[Hs _] | [Hs _]]]; rewrite Hs.
      * apply passed_snoc_negotiate, Hb, Hs.
      * apply passed_app, Hc. by left.
      * apply passed_app, Hc. by right.
    + apply getNextState_restart in En as [Hs _]. rewrite Hs.
      apply passed_app, Hc. by left.
Qed.

Lemma fsm_inv_run (events : list SparkNeighEvent) (x x' : Execution) :
  fsm_inv x → run x events = Some x' → fsm_inv x'.
Proof.
  revert x. induction events as [|e events IH]; cbn; intros x Hx.
  - by intros [= <-].
  - destruct (fire x e) as [x1|] eqn:E1; [|done].
    apply IH. by eapply fsm_inv_fire.
Qed.

(** C2: in every execution of the neighbor state machine that starts in
    IDLE, each visit of ESTABLISHED comes after a visit of WARM followed by
    a visit of NEGOTIATE; the only transitions of the table into ESTABLISHED
    are NEGOTIATE on HANDSHAKE_RCVD, ESTABLISHED on HEARTBEAT_RCVD and
    RESTART on HELLO_RCVD_INFO, and RESTART is entered from ESTABLISHED
    only. *)
Theorem established_only_after_warm_and_negotiate :
  (∀ (events : list SparkNeighEvent) (x : Execution)
     (pre post : list SparkNeighState),
      run initial events = Some x →
      visited x = pre ++ ESTABLISHED :: post →
      passed_warm_negotiate pre) ∧
  (∀ s e, getNextState (Some s) e = Some ESTABLISHED ↔
          (s = NEGOTIATE ∧ e = HANDSHAKE_RCVD) ∨
          (s = ESTABLISHED ∧ e = HEARTBEAT_RCVD) ∨
          (s = RESTART ∧ e = HELLO_RCVD_INFO)) ∧
  (∀ s e, getNextState (Some s) e = Some RESTART → s = ESTABLISHED).
Proof.
  split; [|split].
  - intros events x pre post Hrun E.
    pose proof (fsm_inv_run events initial x fsm_inv_initial Hrun)
      as (Ha & _ & Hc).
    apply snoc_split_established in E as [(Hc' & -> & _) | (post' & _ & E)].
    + apply Hc. by left.
    + by eapply Ha.
  - apply getNextState_established.
  - intros s e H. by apply getNextState_restart in H as [-> _].
Qed.

(** The hypotheses of the theorem hold on the shortest path to
    ESTABLISHED. *)
Lemma established_only_after_warm_and_negotiate_witness :
  run initial [HELLO_RCVD_NO_INFO; HELLO_RCVD_INFO; HANDSHAKE_RCVD]
    = Some (mkExecution [IDLE; WARM; NEGOTIATE] ESTABLISHED) ∧
  passed_warm_negotiate [IDLE; WARM; NEGOTIATE].
Proof.
  split; [reflexivity|].
  apply (proj1 established_only_after_warm_and_negotiate
           [HELLO_RCVD_NO_INFO; HELLO_RCVD_INFO; HANDSHAKE_RCVD]
           (mkExecution [IDLE; WARM; NEGOTIATE] ESTABLISHED)
           [IDLE; WARM; NEGOTIATE] []); reflexivity.
Defined.

End FsmFacts.

Section MetricVectorFacts.
Import MetricVectorUtils.

Lemma negate_involutive (r : CompareResult) : negate (negate r) = r.
Proof. by destruct r. Qed.

Lemma isDecisive_negate (r : CompareResult) :
  isDecisive (negate r) = isDecisive r.
Proof. by destruct r. Qed.

Lemma maybeUpdate_negate (target update : CompareResult) :
  maybeUpdate (negate target) (negate update)
  = negate (maybeUpdate target update).
Proof. by destruct target, update. Qed.

Lemma maybeUpdate_error (target : CompareResult) :
  maybeUpdate target ERROR = ERROR.
Proof. by destruct target. Qed.

Lemma compareMetrics_loop_swap (l r : list Z) (tieBreaker : bool) :
  compareMetrics_loop r l tieBreaker
  = negate (compareMetrics_loop l r tieBreaker).
Proof.
  revert r. induction l as [|lv l IH]; intros [|rv r]; cbn; try done.
  destruct (Z.gtb_spec rv lv), (Z.ltb_spec rv lv),
           (Z.gtb_spec lv rv), (Z.ltb_spec lv rv); try lia;
    by destruct tieBreaker.
Qed.

Lemma compareMetrics_swap (l r : list Z) (tieBreaker : bool) :
  compareMetrics r l tieBreaker = negate (compareMetrics l r tieBreaker).
Proof.
  unfold compareMetrics. rewrite (Nat.eqb_sym (length r)).
  destruct (length l =? length r)%nat; cbn; [|done].
  apply compareMetrics_loop_swap.
Qed.

(** Swapping the iterators of the first loop negates its result and swaps
    the iterators it stops at. *)
Lemma mainLoop_swap (fuel : nat) (result : CompareResult)
    (lIter rIter : list MetricEntity) :
  mainLoop fuel (negate result) rIter lIter
  = (let '(x, li, ri) := mainLoop fuel result lIter rIter in
     (negate x, ri, li)).
Proof.
  revert result lIter rIter.
  induction fuel as [|fuel IH]; intros result lIter rIter; cbn; [done|].
  rewrite isDecisive_negate. destruct (isDecisive result); [done|].
  destruct lIter as [|le l'], rIter as [|re r']; try done.
  rewrite (Z.eqb_sym (type re)).
  destruct (type le =? type re).
  - replace (eqb (isBestPathTieBreaker re) (isBestPathTieBreaker le))
      with (eqb (isBestPathTieBreaker le) (isBestPathTieBreaker re))
      by (by destruct (isBestPathTieBreaker le), (isBestPathTieBreaker re)).
    destruct (eqb (isBestPathTieBreaker le) (isBestPathTieBreaker re))
      eqn:Etb; cbn.
    + apply eqb_prop in Etb. rewrite <- Etb, compareMetrics_swap.
      rewrite maybeUpdate_negate. apply IH.
    + rewrite !maybeUpdate_error. apply (IH ERROR).
  - destruct (Z.gtb_spec (priority re) (priority le)),
             (Z.ltb_spec (priority re) (priority le)),
             (Z.gtb_spec (priority le) (priority re)),
             (Z.ltb_spec (priority le) (priority re)); try lia.
    + rewrite <- (negate_involutive (resultForLoner re)) at 1.
      rewrite maybeUpdate_negate. apply IH.
    + rewrite maybeUpdate_negate. apply IH.
    + rewrite !maybeUpdate_error. apply (IH ERROR).
Qed.

Lemma lonersLeft_negate (result : CompareResult) (it : list MetricEntity) :
  lonersLeft (negate result) it = negate (lonersRight result it).
Proof.
  revert result. induction it as [|e it IH]; intros result; cbn;
    rewrite isDecisive_negate; destruct (isDecisive result); try done.
  rewrite <- (negate_involutive (resultForLoner e)) at 1.
  rewrite maybeUpdate_negate. apply IH.
Qed.

Lemma lonersRight_negate (result : CompareResult) (it : list MetricEntity) :
  lonersRight (negate result) it = negate (lonersLeft result it).
Proof.
  revert result. induction it as [|e it IH]; intros result; cbn;
    rewrite isDecisive_negate; destruct (isDecisive result); try done.
  rewrite maybeUpdate_negate. apply IH.
Qed.

Lemma lonersLeft_decisive (result : CompareResult) (it : list MetricEntity) :
  isDecisive result = true → lonersLeft result it = result.
Proof. intros H. destruct it; cbn; by rewrite H. Qed.

Lemma lonersRight_decisive (result : CompareResult) (it : list MetricEntity) :
  isDecisive result = true → lonersRight result it = result.
Proof. intros H. destruct it; cbn; by rewrite H. Qed.

Lemma lonersLeft_nil (result : CompareResult) : lonersLeft result [] = result.
Proof. cbn. by destruct (isDecisive result). Qed.

Lemma lonersRight_nil (result : CompareResult) :
  lonersRight result [] = result.
Proof. cbn. by destruct (isDecisive result). Qed.

(** The fuel given to the first loop is enough: it stops because its
    condition is false, not because the fuel ran out. *)
Lemma mainLoop_stops (fuel : nat) (result : CompareResult)
    (lIter rIter : list MetricEntity) :
  (length lIter + length rIter + 2 ≤ fuel)%nat ∨
  (isDecisive result = true ∧ 1 ≤ fuel)%nat →
  mainLoop_done (mainLoop fuel result lIter rIter).
Proof.
  revert result lIter rIter.
  induction fuel as [|fuel IH]; intros result lIter rIter Hf; cbn.
  { destruct Hf as [Hf | [_ Hf]]; lia. }
  destruct (isDecisive result) eqn:Ed; [by left|].
  destruct Hf as [Hf | [Hf _]]; [|done].
  destruct lIter as [|le l'], rIter as [|re r']; cbn; try tauto.
  cbn in Hf.
  repeat match goal with
         | |- context [if ?b then _ else _] => destruct b
         end;
    apply IH; cbn; try (left; lia).
  right. rewrite maybeUpdate_error. split; [done | lia].
Qed.

Lemma loners_commute (result : CompareResult)
    (lIter rIter : list MetricEntity) :
  mainLoop_done (result, lIter, rIter) →
  lonersLeft (lonersRight result rIter) lIter
  = lonersRight (lonersLeft result lIter) rIter.
Proof.
  intros [Hd | [-> | ->]].
  - by rewrite !lonersLeft_decisive, !lonersRight_decisive
      by (rewrite ?lonersRight_decisive; done).
  - by rewrite !lonersLeft_nil.
  - by rewrite !lonersRight_nil.
Qed.

(** C8: for all metric vectors [l] and [r], and whatever order [std::sort]
    gives to entities of equal priority, comparing [r] with [l] yields the
    negation (WINNER/LOOSER and TIE_WINNER/TIE_LOOSER exchanged, TIE and
    ERROR fixed) of comparing [l] with [r]. *)
Theorem compareMetricVectors_swap
    (std_sort : list MetricEntity → list MetricEntity)
    (l r : MetricVector) :
  compareMetricVectors std_sort r l
  = negate (compareMetricVectors std_sort l r).
Proof.
  unfold compareMetricVectors. rewrite (Z.eqb_sym (version r)).
  destruct (version l =? version r); cbn; [|done].
  set (lm := sortMetricVector std_sort (metrics l)).
  set (rm := sortMetricVector std_sort (metrics r)).
  replace (mainLoop_fuel rm lm) with (mainLoop_fuel lm rm)
    by (unfold mainLoop_fuel; lia).
  pose proof (mainLoop_swap (mainLoop_fuel lm rm) TIE lm rm) as Hs.
  pose proof (mainLoop_stops (mainLoop_fuel lm rm) TIE lm rm) as Hd.
  cbn [negate] in Hs. rewrite Hs.
  destruct (mainLoop (mainLoop_fuel lm rm) TIE lm rm) as [[x li] ri].
  rewrite lonersLeft_negate, lonersRight_negate. f_equal.
  apply loners_commute, Hd. left. unfold mainLoop_fuel. lia.
Qed.

(** Two vectors that differ in one entity of the highest priority, given
    out of order: the larger metric wins, and loses when the vectors are
    exchanged; an entity only one side has decides by its operator. *)
Example compareMetricVectors_runs :
  let low := mkMetricEntity 1 10 WIN_IF_PRESENT false [5] in
  let high x := mkMetricEntity 2 20 WIN_IF_NOT_PRESENT false [x] in
  let extra := mkMetricEntity 3 5 WIN_IF_PRESENT true [0] in
  compareMetricVectors sort_by_priority
    (mkMetricVector 1 [low; high 7]) (mkMetricVector 1 [low; high 3])
  = WINNER ∧
  compareMetricVectors sort_by_priority
    (mkMetricVector 1 [low; high 3]) (mkMetricVector 1 [low; high 7])
  = LOOSER ∧
  compareMetricVectors sort_by_priority
    (mkMetricVector 1 [low; high 7; extra]) (mkMetricVector 1 [low; high 7])
  = TIE_WINNER ∧
  compareMetricVectors sort_by_priority
    (mkMetricVector 1 [low]) (mkMetricVector 2 [low])
  = ERROR.
Proof. by vm_compute. Qed.

End MetricVectorFacts.

Section LabelFacts.
Import StateExn Spark.

(** The scan stops within one step per allocated label. *)
Lemma scanDown_terminates (fuel : nat) (label : Z) (allocated X : gset Z) :
  (∀ x, x ∈ allocated → x ≤ label → x ∈ X) →
  (size X < fuel)%nat →
  is_Some (scanDown fuel label allocated).
Proof.
  revert label X. induction fuel as [|fuel IH]; intros label X HX Hsz; [lia|].
  cbn. destruct (decide (label ∈ allocated)) as [Hin|Hin]; [|by eexists].
  apply (IH (label - 1) (X ∖ {[label]})).
  - intros x Hx Hle. apply elem_of_difference. split; [apply HX; [done|lia]|].
    rewrite elem_of_singleton. lia.
  - assert (label ∈ X) as HlX by (apply HX; [done|lia]).
    assert (size X ≠ 0%nat).
    { intros H0. apply size_empty_inv in H0. set_solver. }
    rewrite size_difference by set_solver. rewrite size_singleton. lia.
Qed.

Lemma scanDown_total (label : Z) (allocated : gset Z) :
  is_Some (scanDown (S (size allocated)) label allocated).
Proof. apply (scanDown_terminates _ _ _ allocated); [done | lia]. Qed.

(** What the scan finds: the first free label at or below its start. *)
Lemma scanDown_spec (fuel : nat) (top label : Z) (allocated : gset Z) :
  scanDown fuel top allocated = Some label →
  (label ∉ allocated) ∧ label ≤ top ∧
  (∀ x, label < x ≤ top → x ∈ allocated).
Proof.
  revert top. induction fuel as [|fuel IH]; intros top; cbn; [done|].
  destruct (decide (top ∈ allocated)) as [Hin|Hin].
  - intros (Hfree & Hle & Hall)%IH. repeat split; [done|lia|].
    intros x Hx. destruct (decide (x = top)) as [->|]; [done|].
    apply Hall. lia.
  - intros [= <-]. repeat split; [done|lia|]. intros x Hx. lia.
Qed.

(** The three ways [getNewLabelForIface] ends on a known interface. *)
Lemma getNewLabelForIface_cases (env : Env) (ifName_ : string)
    (iface : Interface) (st : SparkState) :
  interfaceDb_ st !! ifName_ = Some iface →
  let preferred := (kSrLocalRange env).1 + ifIndex iface in
  ((preferred ∉ allocatedLabels_ st) ∧
   getNewLabelForIface env ifName_ st
   = (Returned preferred,
      set_allocatedLabels_ ({[preferred]} ∪ allocatedLabels_ st) st)) ∨
  (preferred ∈ allocatedLabels_ st ∧
   ∃ label,
     scanDown (S (size (allocatedLabels_ st))) (kSrLocalRange env).2
       (allocatedLabels_ st) = Some label ∧
     getNewLabelForIface env ifName_ st
     = (if label <? (kSrLocalRange env).1
        then Thrown "Ran out of local label allocation space."
        else Returned label,
        set_allocatedLabels_ ({[label]} ∪ allocatedLabels_ st) st)).
Proof.
  intros Hif preferred. unfold getNewLabelForIface. unfold_M. rewrite Hif.
  fold preferred.
  destruct (decide (preferred ∉ allocatedLabels_ st)) as [Hfree|Htaken].
  - left. done.
  - right. split; [by apply dec_stable|].
    destruct (scanDown_total (kSrLocalRange env).2 (allocatedLabels_ st))
      as [label Hscan].
    exists label. split; [done|]. rewrite Hscan.
    by destruct (label <? (kSrLocalRange env).1).
Qed.

(** A label that is returned was not allocated before, and is allocated
    after. *)
Lemma getNewLabelForIface_unique (env : Env) (ifName_ : string)
    (st st' : SparkState) (label : Z) :
  getNewLabelForIface env ifName_ st = (Returned label, st') →
  (label ∉ allocatedLabels_ st) ∧
  allocatedLabels_ st' = {[label]} ∪ allocatedLabels_ st.
Proof.
  destruct (interfaceDb_ st !! ifName_) as [iface|] eqn:Hif.
  - destruct (getNewLabelForIface_cases env ifName_ iface st Hif)
      as [[Hfree ->] | [_ (l & Hscan & ->)]].
    + by intros [= <- <-].
    + apply scanDown_spec in Hscan as (Hfree & _ & _).
      destruct (l <? (kSrLocalRange env).1); [done|]. by intros [= <- <-].
  - unfold getNewLabelForIface. unfold_M. by rewrite Hif.
Qed.

(** The label [base + ifIndex] is preferred. *)
Lemma getNewLabelForIface_preferred (env : Env) (ifName_ : string)
    (iface : Interface) (st : SparkState) :
  interfaceDb_ st !! ifName_ = Some iface →
  (kSrLocalRange env).1 + ifIndex iface ∉ allocatedLabels_ st →
  getNewLabelForIface env ifName_ st
  = (Returned ((kSrLocalRange env).1 + ifIndex iface),
     set_allocatedLabels_
       ({[(kSrLocalRange env).1 + ifIndex iface]} ∪ allocatedLabels_ st) st).
Proof.
  intros Hif Hfree.
  destruct (getNewLabelForIface_cases env ifName_ iface st Hif)
    as [[_ ->] | [Htaken _]]; done.
Qed.

(** On collision the label is the first free one from the top of the
    range, and it lies in the range. *)
Lemma getNewLabelForIface_collision (env : Env) (ifName_ : string)
    (iface : Interface) (st st' : SparkState) (label : Z) :
  interfaceDb_ st !! ifName_ = Some iface →
  (kSrLocalRange env).1 + ifIndex iface ∈ allocatedLabels_ st →
  getNewLabelForIface env ifName_ st = (Returned label, st') →
  (kSrLocalRange env).1 ≤ label ≤ (kSrLocalRange env).2 ∧
  (∀ x, label < x ≤ (kSrLocalRange env).2 → x ∈ allocatedLabels_ st).
Proof.
  intros Hif Htaken.
  destruct (getNewLabelForIface_cases env ifName_ iface st Hif)
    as [[Hfree _] | [_ (l & Hscan & ->)]]; [done|].
  apply scanDown_spec in Hscan as (_ & Hle & Hall).
  destruct (Z.ltb_spec l (kSrLocalRange env).1); [done|].
  intros [= <- <-]. split; [lia | done].
Qed.

(** With the preferred label taken and the whole range allocated, the
    allocation fails. *)
Lemma getNewLabelForIface_exhausted (env : Env) (ifName_ : string)
    (iface : Interface) (st : SparkState) :
  interfaceDb_ st !! ifName_ = Some iface →
  (kSrLocalRange env).1 + ifIndex iface ∈ allocatedLabels_ st →
  (∀ x, (kSrLocalRange env).1 ≤ x ≤ (kSrLocalRange env).2 →
        x ∈ allocatedLabels_ st) →
  (getNewLabelForIface env ifName_ st).1
  = Thrown "Ran out of local label allocation space.".
Proof.
  intros Hif Htaken Hfull.
  destruct (getNewLabelForIface_cases env ifName_ iface st Hif)
    as [[Hfree _] | [_ (l & Hscan & ->)]]; [done|].
  apply scanDown_spec in Hscan as (Hfree & Hle & _).
  destruct (Z.ltb_spec l (kSrLocalRange env).1); [done|].
  destruct Hfree. apply Hfull. lia.
Qed.

(** The hold timeout of a tracked neighbor releases its label and forgets
    the neighbor. *)
Lemma processNeighborHoldTimeout_releases (ifName_ neighborName : string)
    (ifNeighbors : gmap string Neighbor) (neighbor : Neighbor)
    (st : SparkState) :
  neighbors_ st !! ifName_ = Some ifNeighbors →
  ifNeighbors !! neighborName = Some neighbor →
  ∃ st', processNeighborHoldTimeout ifName_ neighborName st
         = (Returned tt, st') ∧
         allocatedLabels_ st' = allocatedLabels_ st ∖ {[label neighbor]} ∧
         neighbors_ st'
         = <[ifName_ := delete neighborName ifNeighbors]> (neighbors_ st).
Proof.
  intros Hif Hn. unfold processNeighborHoldTimeout. unfold_M.
  rewrite Hif, Hn. destruct (isAdjacent neighbor); eexists; done.
Qed.

End LabelFacts.

Section LabelTheorems.
Import StateExn Spark.

(** C7 (the label of every new adjacency lies within the configured local
    range): the preferred label [base + ifIndex] is handed out without a
    look at the top of the range, so an interface index larger than the
    size of the range yields a label above it. *)
Theorem getNewLabelForIface_outside_range (env : Env) (ifName_ : string)
    (iface : Interface) (st : SparkState) :
  interfaceDb_ st !! ifName_ = Some iface →
  (kSrLocalRange env).1 + ifIndex iface ∉ allocatedLabels_ st →
  (kSrLocalRange env).2 - (kSrLocalRange env).1 < ifIndex iface →
  ∃ label st',
    getNewLabelForIface env ifName_ st = (Returned label, st') ∧
    label ∈ allocatedLabels_ st' ∧
    (kSrLocalRange env).2 < label.
Proof.
  intros Hif Hfree Hbig. eexists _, _. split.
  - by apply getNewLabelForIface_preferred.
  - cbn. split; [set_solver | lia].
Qed.

(** With the range 50000..59999 the interface of index 10000 gets the
    label 60000. *)
Lemma getNewLabelForIface_outside_range_witness :
  ∃ label st',
    getNewLabelForIface SparkScenario.env "iface1" SparkScenario.st0
    = (Returned label, st') ∧
    label ∈ allocatedLabels_ st' ∧ 59999 < label.
Proof.
  apply (getNewLabelForIface_outside_range SparkScenario.env "iface1"
           SparkScenario.iface1 SparkScenario.st0).
  - reflexivity.
  - cbn. set_solver.
  - cbn. lia.
Defined.

Example getNewLabelForIface_60000 :
  (getNewLabelForIface SparkScenario.env "iface1" SparkScenario.st0).1
  = Returned 60000.
Proof. reflexivity. Qed.

End LabelTheorems.

Section RttFacts.
Import StateExn Spark.

(** Out-of-order timestamps give no sample. *)
Lemma rttSample_out_of_order (mySent nbrRecv nbrSent myRecv : Z) :
  nbrSent < nbrRecv ∨ myRecv < mySent →
  rttSample mySent nbrRecv nbrSent myRecv = None.
Proof.
  intros H. unfold rttSample.
  destruct (negb (mySent =? 0) && negb (nbrRecv =? 0)); [|done].
  destruct (Z.ltb_spec nbrSent nbrRecv), (Z.ltb_spec myRecv mySent);
    try done; lia.
Qed.

Lemma maskedRtt_bounds (rtt : Z) :
  1000 ≤ maskedRtt rtt ∧ maskedRtt rtt mod 1000 = 0.
Proof.
  unfold maskedRtt. split; [lia|].
  destruct (Z.max_spec (rtt ÷ 1000 * 1000) 1000) as [[_ ->] | [_ ->]].
  - reflexivity.
  - apply Z_mod_mult.
Qed.

(** Every accepted sample is the measurement masked to whole
    milliseconds, and at least one millisecond. *)
Lemma rttSample_accepted (mySent nbrRecv nbrSent myRecv rtt : Z) :
  rttSample mySent nbrRecv nbrSent myRecv = Some rtt →
  rtt = maskedRtt (measuredRtt mySent nbrRecv nbrSent myRecv) ∧
  1000 ≤ rtt ∧ rtt mod 1000 = 0 ∧
  mySent ≠ 0 ∧ nbrRecv ≠ 0 ∧ nbrRecv ≤ nbrSent ∧ mySent ≤ myRecv.
Proof.
  unfold rttSample.
  destruct (Z.eqb_spec mySent 0), (Z.eqb_spec nbrRecv 0); cbn; try done.
  destruct (Z.ltb_spec nbrSent nbrRecv), (Z.ltb_spec myRecv mySent);
    try done.
  destruct (Z.ltb_spec
              (maskedRtt (measuredRtt mySent nbrRecv nbrSent myRecv)) 0);
    [done|].
  intros [= <-].
  pose proof (maskedRtt_bounds (measuredRtt mySent nbrRecv nbrSent myRecv))
    as [Hlow Hmod].
  repeat split; try done; lia.
Qed.

(** C3 (a negative sample is rejected): the test for a negative round-trip
    time comes after the measurement was raised to one millisecond, so a
    negative measurement between in-order timestamps is accepted as a
    sample of 1000 microseconds. *)
Theorem rttSample_negative_accepted (mySent nbrRecv nbrSent myRecv : Z) :
  mySent ≠ 0 → nbrRecv ≠ 0 →
  nbrRecv ≤ nbrSent → mySent ≤ myRecv →
  measuredRtt mySent nbrRecv nbrSent myRecv < 0 →
  rttSample mySent nbrRecv nbrSent myRecv = Some 1000.
Proof.
  intros Hs Hr Hnbr Hmy Hneg. unfold rttSample.
  destruct (Z.eqb_spec mySent 0) as [|_]; [done|].
  destruct (Z.eqb_spec nbrRecv 0) as [|_]; [done|]. cbn.
  destruct (Z.ltb_spec nbrSent nbrRecv); [lia|].
  destruct (Z.ltb_spec myRecv mySent); [lia|].
  assert (maskedRtt (measuredRtt mySent nbrRecv nbrSent myRecv) = 1000)
    as ->; [|done].
  unfold maskedRtt. apply Z.max_r.
  assert (measuredRtt mySent nbrRecv nbrSent myRecv ÷ 1000 ≤ 0).
  { apply Z.quot_le_upper_bound; lia. }
  lia.
Qed.

(** Sent at 1000, received by the neighbor at 1000, answered at 5000 and
    heard at 2000: the measurement is -3000 microseconds. *)
Lemma rttSample_negative_accepted_witness :
  measuredRtt 1000 1000 5000 2000 = -3000 ∧
  rttSample 1000 1000 5000 2000 = Some 1000.
Proof.
  split; [reflexivity|].
  apply (rttSample_negative_accepted 1000 1000 5000 2000);
    unfold measuredRtt; lia.
Defined.

(** The same hello through [processSparkHello]: the tracked neighbor gets
    1000 microseconds as its round-trip time, and the sample reaches the
    step detector. *)
Example processSparkHello_negative_rtt :
  let '(result, st') :=
    processSparkHello SparkScenario.env SparkScenario.cfg
      (SparkScenario.hello SparkScenario.node2 8 1000 1000 5000)
      "iface1" 2000 SparkScenario.st1 in
  result = Returned tt ∧
  (neighbor ← (neighbors_ st' !! "iface1") ≫= (.!! "node-2");
   Some (rtt neighbor, rttLatest neighbor, stepDetector neighbor))
  = Some (1000, 1000, [(2, 1000)]).
Proof. vm_compute. done. Qed.

End RttFacts.

Section ValidationFacts.
Import StateExn Spark.
Context (env : Env) (cfg : Config).

(** The sanity check, as a function of the state. *)
Lemma sanityCheckHelloPkt_eq (domain name remoteIf : string) (version : Z)
    (st : SparkState) :
  sanityCheckHelloPkt cfg domain name remoteIf version st
  = if decide (name = myNodeName_ cfg) then
      (Returned FAILURE, bumped "spark.invalid_keepalive.looped_packet" st)
    else if decide (domain ≠ myDomainName_ cfg) then
      (Returned FAILURE, bumped "spark.invalid_keepalive.different_domain" st)
    else if version <? to_uint32 (kVersion_lowestSupportedVersion cfg) then
      (Returned FAILURE, bumped "spark.invalid_keepalive.invalid_version" st)
    else (Returned SUCCESS, st).
Proof.
  unfold sanityCheckHelloPkt.
  repeat case_decide; try done.
  by destruct (version <? _).
Qed.

Lemma to_uint32_idemp (z : Z) : to_uint32 (to_uint32 z) = to_uint32 z.
Proof. unfold to_uint32. by rewrite Z.mod_mod. Qed.


(** A valid hello passes it and changes nothing. *)
Lemma sanityCheckHelloPkt_valid (domain name remoteIf : string)
    (version : Z) (st : SparkState) :
  ¬ invalid_hello cfg domain name version →
  sanityCheckHelloPkt cfg domain name remoteIf (to_uint32 version) st
  = (Returned SUCCESS, st).
Proof.
  intros Hok. rewrite sanityCheckHelloPkt_eq. unfold invalid_hello in Hok.
  destruct (decide (name = myNodeName_ cfg)) as [Hn|Hn]; [tauto|].
  destruct (decide (domain ≠ myDomainName_ cfg)) as [Hd|Hd]; [tauto|].
  destruct (Z.ltb_spec (to_uint32 version)
              (to_uint32 (kVersion_lowestSupportedVersion cfg)));
    [tauto|done].
Qed.



End ValidationFacts.

Section ValidationWitness.
Import StateExn Spark.



End ValidationWitness.

Section SequenceFacts.
Import StateExn Spark.




(** The sequence number is an [i64] on the wire: the hello of the tracked
    "node-2" with the sequence number -1 (the stored one is 7) is compared
    as 2^64 - 1, is no restart, and 2^64 - 1 is stored. *)
Example validateHelloPacket_negative_seqNum :
  let outcome :=
    validateHelloPacket SparkScenario.env SparkScenario.cfg "iface1"
      (SparkScenario.hello SparkScenario.node2 (-1) 0 0 0)
      SparkScenario.st1 in
  outcome.1 = Returned SUCCESS ∧
  seqNum <$> (neighbors_ outcome.2 !! "iface1" ≫= (.!! "node-2"))
  = Some (2 ^ 64 - 1).
Proof. split; by vm_compute. Qed.

End SequenceFacts.

Section ClientFacts.
Import StateExn KvStoreTypes KvStoreClientInternal.
Context (env : Env).

Lemma touch_known `{Empty V} (area : string) (m : gmap string V) :
  is_Some (m !! area) → touch area m = m.
Proof. intros [v Hv]. unfold touch. by rewrite Hv. Qed.

Lemma sub_touch `{Empty V} (a area : string) (m : gmap string V) :
  sub a (touch area m) = sub a m.
Proof.
  unfold sub, touch. destruct (m !! area) eqn:E; [done|].
  destruct (decide (area = a)) as [->|Hne].
  - by rewrite lookup_insert_eq, E.
  - by rewrite lookup_insert_ne.
Qed.

Lemma touch_is_Some `{Empty V} (area : string) (m : gmap string V) :
  is_Some (touch area m !! area).
Proof.
  unfold touch. destruct (m !! area) eqn:E; [by rewrite E|].
  by rewrite lookup_insert_eq.
Qed.

Lemma sub_insert_eq `{Empty V} (area : string) (x : V) (m : gmap string V) :
  sub area (<[area := x]> m) = x.
Proof. unfold sub. by rewrite lookup_insert_eq. Qed.

Lemma sub_insert_ne `{Empty V} (a area : string) (x : V)
    (m : gmap string V) :
  area ≠ a → sub a (<[area := x]> m) = sub a m.
Proof. intros. unfold sub. by rewrite lookup_insert_ne. Qed.

Lemma sub_Some `{Empty V} (area : string) (x : V) (m : gmap string V) :
  m !! area = Some x → sub area m = x.
Proof. intros E. unfold sub. by rewrite E. Qed.

(** A loop whose body returns and keeps an invariant returns and keeps
    it. *)
Lemma forM_returns {A B} (f : A → B → M B) (P : ClientState → Prop)
    (l : list A) :
  (∀ x acc st, x ∈ l → P st →
     ∃ acc' st', f x acc st = (Returned acc', st') ∧ P st') →
  ∀ acc st, P st →
    ∃ acc' st', forM f l acc st = (Returned acc', st') ∧ P st'.
Proof.
  induction l as [|x l IH]; intros Hf acc st HP; cbn.
  - by eexists _, _.
  - destruct (Hf x acc st) as (acc1 & st1 & E1 & HP1); [set_solver|done|].
    unfold bind. rewrite E1. apply IH; [|done].
    intros y acc' st' Hy. apply Hf. set_solver.
Qed.

Lemma same_persisted_refl (st : ClientState) : same_persisted st st.
Proof. by intros a. Qed.

Lemma same_persisted_trans (st1 st2 st3 : ClientState) :
  same_persisted st1 st2 → same_persisted st2 st3 → same_persisted st1 st3.
Proof. intros H12 H23 a. by rewrite H23, H12. Qed.

(** The pending keys of one area: the body of the inner loop returns. *)
Lemma advertisePendingKey_returns (area key : string)
    (acc : Z * gmap string Value * list string) (st : ClientState) :
  consistent st → key ∈ sub area (keysToAdvertise_ st) →
  ∃ acc' st', advertisePendingKey env area key acc st = (Returned acc', st') ∧
              consistent st' ∧ same_persisted st st' ∧
              keysToAdvertise_ st' = keysToAdvertise_ st ∧
              keyTtlBackoffs_ st' = keyTtlBackoffs_ st.
Proof.
  intros Hc Hk. destruct acc as [[timeout keyVals] keys].
  destruct (Hc area key Hk) as [[v Hv] [b Hb]].
  unfold advertisePendingKey. unfold_M. rewrite Hv, Hb.
  destruct (canTryNow env b); cbn.
  - eexists _, _. split; [reflexivity|]. split; [|done].
    intros a k Hak. destruct (Hc a k Hak) as [Hp [b' Hb']].
    split; [done|]. cbn. destruct (decide (key = k)) as [->|Hne].
    + by rewrite lookup_insert_eq.
    + by rewrite lookup_insert_ne.
  - eexists _, _. split; [reflexivity|]. done.
Qed.

Lemma setKeysHelper_returns (keyVals : gmap string Value) (area : string)
    (st : ClientState) :
  ∃ ok st', setKeysHelper env keyVals area st = (Returned ok, st') ∧
            persistedKeyVals_ st' = persistedKeyVals_ st ∧
            backoffs_ st' = backoffs_ st ∧
            keysToAdvertise_ st' = keysToAdvertise_ st ∧
            keyTtlBackoffs_ st' = keyTtlBackoffs_ st.
Proof.
  unfold setKeysHelper. destruct (decide (keyVals = ∅)).
  - by eexists _, _.
  - unfold_M. by eexists _, _.
Qed.

Lemma advertisePendingArea_returns (area : string) (timeout : Z)
    (st : ClientState) :
  consistent st →
  ∃ timeout' st', advertisePendingArea env area timeout st
                  = (Returned timeout', st') ∧
                  consistent st' ∧ same_persisted st st' ∧
                  keyTtlBackoffs_ st' = keyTtlBackoffs_ st.
Proof.
  intros Hc. unfold advertisePendingArea. unfold bind at 1. unfold get.
  destruct (decide (sub area (keysToAdvertise_ st) = ∅)) as [He|Hne].
  { eexists _, _. split; [reflexivity|]. auto using same_persisted_refl. }
  unfold bind at 1. unfold modify at 1.
  set (st1 := set_persistedKeyVals_ (touch area (persistedKeyVals_ st)) st).
  assert (consistent st1) as Hc1.
  { intros a k Hak. cbn. rewrite sub_touch. by apply Hc. }
  assert (same_persisted st st1) as Hs1.
  { intros a. cbn. by rewrite sub_touch. }
  destruct (forM_returns (advertisePendingKey env area)
              (λ s, consistent s ∧ same_persisted st1 s ∧
                    keysToAdvertise_ s = keysToAdvertise_ st1 ∧
                    keyTtlBackoffs_ s = keyTtlBackoffs_ st1)
              (elements (sub area (keysToAdvertise_ st)))) with
    (acc := (timeout, (∅ : gmap string Value), ([] : list string)))
    (st := st1)
    as ([[t2 kv2] ks2] & st2 & E2 & Hc2 & Hs2 & Hk2 & Ht2).
  { intros x acc s Hx (Hcs & Hss & Hks & Hts).
    destruct (advertisePendingKey_returns area x acc s Hcs)
      as (acc' & s' & E & Hc' & Hs' & Hk' & Ht').
    { rewrite Hks. cbn. by apply elem_of_elements in Hx. }
    exists acc', s'. split; [done|]. split; [done|]. split; [|split].
    - by eapply same_persisted_trans.
    - by rewrite Hk'.
    - by rewrite Ht'. }
  { auto using same_persisted_refl. }
  unfold bind at 1. rewrite E2.
  destruct (setKeysHelper_returns kv2 area st2)
    as (ok & st3 & E3 & Hp3 & Hb3 & Hk3 & Ht3).
  unfold bind at 1. rewrite E3.
  assert (consistent st3) as Hc3.
  { intros a k Hak. rewrite Hp3, Hb3. apply Hc2. by rewrite <- Hk3. }
  assert (same_persisted st st3) as Hs3.
  { intros a. rewrite Hp3. by rewrite Hs2, Hs1. }
  destruct ok; unfold_M.
  - eexists _, _. split; [reflexivity|]. split; [|split].
    + intros a k Hak. cbn in *. apply Hc3.
      destruct (decide (area = a)) as [->|Hna].
      * rewrite sub_insert_eq in Hak.
        by apply elem_of_difference in Hak as [Hak _].
      * by rewrite sub_insert_ne in Hak.
    + done.
    + cbn. by rewrite Ht3, Ht2.
  - eexists _, _. split; [reflexivity|]. split; [done|]. split; [done|].
    by rewrite Ht3, Ht2.
Qed.

(** [advertisePendingKeys] returns on a consistent state, and persists
    what was persisted. *)
Lemma advertisePendingKeys_returns (st : ClientState) :
  consistent st →
  ∃ st', advertisePendingKeys env st = (Returned tt, st') ∧
         consistent st' ∧ same_persisted st st' ∧
         keyTtlBackoffs_ st' = keyTtlBackoffs_ st.
Proof.
  intros Hc. unfold advertisePendingKeys. unfold bind at 1. unfold get.
  destruct (forM_returns (advertisePendingArea env)
              (λ s, consistent s ∧ same_persisted st s ∧
                    keyTtlBackoffs_ s = keyTtlBackoffs_ st)
              (elements (dom (keysToAdvertise_ st)))) with
    (acc := kMaxBackoff env) (st := st)
    as (t & st1 & E1 & Hc1 & Hs1 & Ht1).
  { intros a acc s _ (Hcs & Hss & Hts).
    destruct (advertisePendingArea_returns a acc s Hcs)
      as (t' & s' & E & Hc' & Hs' & Ht').
    exists t', s'. split; [done|]. split; [done|]. split.
    - by eapply same_persisted_trans.
    - by rewrite Ht'. }
  { auto using same_persisted_refl. }
  unfold bind. rewrite E1. unfold modify.
  eexists. split; [reflexivity|]. done.
Qed.

Lemma ttl_step_refl (st : ClientState) : ttl_step st st.
Proof. by split; [intros a|]. Qed.

Lemma ttl_step_trans (st1 st2 st3 : ClientState) :
  ttl_step st1 st2 → ttl_step st2 st3 → ttl_step st1 st3.
Proof.
  intros (Hp & Hb & Hk & Hd) (Hp' & Hb' & Hk' & Hd').
  split; [by eapply same_persisted_trans|].
  split; [by rewrite Hb'|]. split; [by rewrite Hk'|].
  intros a. by rewrite Hd'.
Qed.

Lemma ttl_step_consistent (st st' : ClientState) :
  ttl_step st st' → consistent st → consistent st'.
Proof.
  intros (Hp & Hb & Hk & _) Hc a k Hak. rewrite Hp, Hb. apply Hc.
  by rewrite <- Hk.
Qed.

Lemma advertiseTtlUpdate_returns (area key : string)
    (acc : Z * gmap string Value) (st : ClientState) :
  key ∈ dom (sub area (keyTtlBackoffs_ st)) →
  ∃ acc' st', advertiseTtlUpdate env area key acc st = (Returned acc', st') ∧
              ttl_step st st'.
Proof.
  intros Hk. destruct acc as [timeout keyVals].
  apply elem_of_dom in Hk as [[v b] Hvb].
  unfold advertiseTtlUpdate. unfold_M. rewrite Hvb. cbn.
  destruct (canTryNow env b); cbn.
  - eexists _, _. split; [reflexivity|].
    split; [by intros a|]. split; [done|]. split; [done|].
    intros a. cbn. destruct (decide (area = a)) as [->|Hne].
    + rewrite sub_insert_eq, dom_insert_L.
      apply elem_of_dom_2 in Hvb.
      apply subseteq_union_1_L. by apply singleton_subseteq_l.
    + by rewrite sub_insert_ne.
  - eexists _, _. split; [reflexivity|]. apply ttl_step_refl.
Qed.

Lemma setKeysHelper_ttl_step (keyVals : gmap string Value) (area : string)
    (st : ClientState) :
  ∃ ok st', setKeysHelper env keyVals area st = (Returned ok, st') ∧
            ttl_step st st'.
Proof.
  destruct (setKeysHelper_returns keyVals area st)
    as (ok & st' & E & Hp & Hb & Hk & Ht).
  exists ok, st'. split; [done|].
  split; [intros a; by rewrite Hp|]. split; [done|]. split; [done|].
  intros a. by rewrite Ht.
Qed.

Lemma advertiseTtlArea_returns (area : string) (timeout : Z)
    (st : ClientState) :
  ∃ timeout' st', advertiseTtlArea env area timeout st
                  = (Returned timeout', st') ∧ ttl_step st st'.
Proof.
  unfold advertiseTtlArea. unfold bind at 1. unfold get.
  unfold bind at 1. unfold modify at 1.
  set (st1 := set_persistedKeyVals_ (touch area (persistedKeyVals_ st)) st).
  assert (ttl_step st st1) as H1.
  { split; [intros a; cbn; by rewrite sub_touch|]. done. }
  destruct (forM_returns (advertiseTtlUpdate env area) (ttl_step st1)
              (elements (dom (sub area (keyTtlBackoffs_ st)))))
    with (acc := (timeout, (∅ : gmap string Value))) (st := st1)
    as ([t2 kv2] & st2 & E2 & H2).
  { intros x acc s Hx Hs.
    destruct (advertiseTtlUpdate_returns area x acc s)
      as (acc' & s' & E & Hs').
    { destruct Hs as (_ & _ & _ & Hd). rewrite Hd. cbn.
      by apply elem_of_elements in Hx. }
    exists acc', s'. split; [done|]. by eapply ttl_step_trans. }
  { apply ttl_step_refl. }
  unfold bind at 1. rewrite E2.
  assert (ttl_step st st2) as H02 by (by eapply ttl_step_trans).
  destruct (decide (kv2 = ∅)).
  - unfold_M. by eexists _, _.
  - destruct (setKeysHelper_ttl_step kv2 area st2) as (ok & st3 & E3 & H3).
    unfold bind at 1. unfold bind at 1. rewrite E3. unfold_M.
    eexists _, _. split; [reflexivity|]. by eapply ttl_step_trans.
Qed.

Lemma advertiseTtlUpdates_returns (st : ClientState) :
  ∃ st', advertiseTtlUpdates env st = (Returned tt, st') ∧ ttl_step st st'.
Proof.
  unfold advertiseTtlUpdates. unfold bind at 1. unfold get.
  destruct (forM_returns (advertiseTtlArea env) (ttl_step st)
              (elements (dom (keyTtlBackoffs_ st))))
    with (acc := kMaxTtlUpdateInterval env) (st := st)
    as (t & st1 & E1 & H1).
  { intros a acc s _ Hs.
    destruct (advertiseTtlArea_returns a acc s) as (t' & s' & E & Hs').
    exists t', s'. split; [done|]. by eapply ttl_step_trans. }
  { apply ttl_step_refl. }
  unfold bind. rewrite E1. unfold modify.
  eexists. split; [reflexivity|].
  eapply ttl_step_trans; [done|]. by split; [intros a|].
Qed.

Lemma scheduleTtlUpdates_returns (key : string) (version ttlVersion ttl : Z)
    (advertiseImmediately : bool) (area : string) (st : ClientState) :
  ∃ st', scheduleTtlUpdates env key version ttlVersion ttl
           advertiseImmediately area st = (Returned tt, st') ∧
         same_persisted st st' ∧ backoffs_ st' = backoffs_ st ∧
         keysToAdvertise_ st' = keysToAdvertise_ st.
Proof.
  unfold scheduleTtlUpdates. unfold bind at 1. unfold modify at 1.
  destruct (decide (ttl = kTtlInfinity env)).
  - unfold modify. eexists. split; [reflexivity|]. by split; [intros a|].
  - unfold bind at 1. unfold modify at 1.
    match goal with
    | |- context [advertiseTtlUpdates env ?s] =>
        destruct (advertiseTtlUpdates_returns s)
          as (st' & E & Hp & Hb & Hk & _)
    end.
    exists st'. split; [done|]. split; [|done].
    intros a. by rewrite Hp.
Qed.

Lemma set_persistedKeyVals_same (st : ClientState) :
  set_persistedKeyVals_ (persistedKeyVals_ st) st = st.
Proof. by destruct st. Qed.

Lemma set_keyTtlBackoffs_same (st : ClientState) :
  set_keyTtlBackoffs_ (keyTtlBackoffs_ st) st = st.
Proof. by destruct st. Qed.

Lemma set_keysToAdvertise_same (st : ClientState) :
  set_keysToAdvertise_ (keysToAdvertise_ st) st = st.
Proof. by destruct st. Qed.

(** The first part of C10. *)
Lemma persistKey_same (key value_ : string) (ttl_ : Z) (area : string)
    (st : ClientState) (v : Value) :
  area_known area st →
  sub area (persistedKeyVals_ st) !! key = Some v →
  value v = Some value_ → ttl v = ttl_ →
  persistKey env key value_ ttl_ area st = (Returned false, st).
Proof.
  intros (Hp & Ht & Hk) Hv Hval Httl. unfold persistKey. unfold_M.
  rewrite (touch_known _ _ Hp), set_persistedKeyVals_same.
  rewrite (touch_known _ _ Ht), set_keyTtlBackoffs_same.
  rewrite (touch_known _ _ Hk), set_keysToAdvertise_same.
  rewrite Hv, Hval. cbn.
  rewrite (bool_decide_eq_true_2 (value_ = value_)) by done.
  by rewrite (bool_decide_eq_true_2 (ttl v = ttl_)) by done.
Qed.

(** Storing a record for a key, giving it a backoff and marking it
    pending keeps the state consistent. *)
Lemma consistent_store (key area : string) (thriftValue : Value)
    (b : ExponentialBackoff) (st st2 : ClientState) :
  consistent st →
  persistedKeyVals_ st2
  = <[area := <[key := thriftValue]> (sub area (persistedKeyVals_ st))]>
      (persistedKeyVals_ st) →
  backoffs_ st2 = <[key := b]> (backoffs_ st) →
  keysToAdvertise_ st2
  = <[area := {[key]} ∪ sub area (keysToAdvertise_ st)]>
      (keysToAdvertise_ st) →
  consistent st2.
Proof.
  intros Hc Hp Hb Hk a k Hak. rewrite Hp, Hb. rewrite Hk in Hak. split.
  - destruct (decide (area = a)) as [->|Hna].
    + rewrite sub_insert_eq in Hak. rewrite sub_insert_eq.
      destruct (decide (key = k)) as [->|Hnk].
      * by rewrite lookup_insert_eq.
      * rewrite lookup_insert_ne by done. apply Hc.
        apply elem_of_union in Hak as [Hak|Hak]; [|done].
        by apply elem_of_singleton in Hak.
    + rewrite sub_insert_ne in Hak by done.
      rewrite sub_insert_ne by done. by apply Hc.
  - destruct (decide (key = k)) as [->|Hnk].
    + by rewrite lookup_insert_eq.
    + rewrite lookup_insert_ne by done.
      destruct (decide (area = a)) as [->|Hna].
      * rewrite sub_insert_eq in Hak. apply (Hc a).
        apply elem_of_union in Hak as [Hak|Hak]; [|done].
        by apply elem_of_singleton in Hak.
      * rewrite sub_insert_ne in Hak by done. by apply (Hc a).
Qed.

(** The tail of [persistKey], once the record is stored. *)
Lemma persistKey_tail (key : string) (ttl_ : Z) (area : string)
    (thriftValue : Value) (hasTtlChanged : bool) (st2 : ClientState) :
  consistent st2 →
  sub area (persistedKeyVals_ st2) !! key = Some thriftValue →
  ∃ st', bind (advertisePendingKeys env)
           (λ _, bind (scheduleTtlUpdates env key (version thriftValue)
                         (ttlVersion thriftValue) ttl_ hasTtlChanged area)
                   (λ _, ret true)) st2
         = (Returned true, st') ∧
         sub area (persistedKeyVals_ st') !! key = Some thriftValue ∧
         consistent st'.
Proof.
  intros Hc2 Hv2.
  destruct (advertisePendingKeys_returns st2 Hc2)
    as (st3 & E3 & Hc3 & Hs3 & _).
  unfold bind at 1. rewrite E3.
  destruct (scheduleTtlUpdates_returns key (version thriftValue)
              (ttlVersion thriftValue) ttl_ hasTtlChanged area st3)
    as (st4 & E4 & Hs4 & Hb4 & Hk4).
  unfold bind. rewrite E4. exists st4. split; [done|]. split.
  - by rewrite Hs4, Hs3.
  - intros a k Hak. rewrite Hs4, Hb4. apply Hc3. by rewrite <- Hk4.
Qed.

(** A call of [persistKey] that changes the value of a record of non-zero
    version: up to the advertising, it stores the record with the version
    incremented, ttlVersion 0 and this node as originator, and marks the
    key as pending. *)
Lemma persistKey_changed (key value_ : string) (ttl_ : Z) (area : string)
    (st : ClientState) (v : Value) (old : string) :
  currentValue env st key area = Some v →
  value v = Some old → old ≠ value_ → version v ≠ 0 →
  ∃ st2 hasTtlChanged,
    persistKey env key value_ ttl_ area st
    = bind (advertisePendingKeys env)
        (λ _, bind (scheduleTtlUpdates env key (version v + 1) 0 ttl_
                      hasTtlChanged area)
                (λ _, ret true)) st2 ∧
    sub area (persistedKeyVals_ st2) !! key
    = Some (mkValue (version v + 1) (nodeId_ env) (Some value_) ttl_ 0
              (hash v)) ∧
    (consistent st → consistent st2).
Proof.
  intros Hcur Hval Hold Hver. unfold currentValue in Hcur.
  unfold persistKey.
  unfold bind at 1. unfold modify at 1.
  unfold bind at 1. unfold modify at 1.
  unfold bind at 1. unfold modify at 1.
  set (st1 := set_keysToAdvertise_ _ _).
  assert (consistent st → consistent st1) as Hc1.
  { intros Hc a k. subst st1. cbn. rewrite !sub_touch. apply Hc. }
  assert (sub area (persistedKeyVals_ st1) = sub area (persistedKeyVals_ st))
    as Hp1 by (subst st1; cbn; by rewrite sub_touch).
  assert (kvStoreSets st1 = kvStoreSets st) as Hs1 by done.
  unfold bind at 1. unfold get at 1. rewrite Hp1.
  match goal with
  | |- context [bind ?m _ st1] =>
      assert (∃ tv0, m st1 = (Returned (Some tv0), st1) ∧
                     version tv0 = version v ∧ value tv0 = Some old ∧
                     originatorId tv0 = originatorId v ∧
                     hash tv0 = hash v) as (tv0 & E0 & Hv0 & Hval0 & Ho0 & Hh0)
  end.
  { destruct (sub area (persistedKeyVals_ st) !! key) as [p|] eqn:Ep.
    - injection Hcur as ->. rewrite Hval.
      rewrite (bool_decide_eq_false_2 (old = value_)) by done. cbn.
      match goal with
      | |- context [match ?x with Some _ => _ | None => _ end] =>
          destruct x
      end; eexists; (split; [reflexivity|]); done.
    - unfold getKey. unfold_M. rewrite Hs1, Hcur. cbn.
      eexists. split; [reflexivity|]. done. }
  unfold bind at 1. rewrite E0.
  destruct (Z.eqb_spec (version tv0) 0) as [Hz|_]; [congruence|].
  rewrite (bool_decide_eq_true_2 (value tv0 ≠ Some value_))
    by (rewrite Hval0; congruence).
  rewrite orb_true_r.
  set (tv := mkValue (version v + 1) (nodeId_ env) (Some value_) ttl_ 0
               (hash v)).
  set (hasTtlChanged := bool_decide (ttl_ ≠ ttl tv0)).
  unfold set_value. cbn [version originatorId value ttl ttlVersion hash].
  rewrite Hv0, Hh0. fold tv.
  destruct (bool_decide (key ∈ keyCallbacks_ st1)); cbn [andb].
  - eexists _, hasTtlChanged. split; [reflexivity|]. split.
    + cbn. by rewrite sub_insert_eq, lookup_insert_eq.
    + intros Hc. by eapply consistent_store; [apply Hc1| | |].
  - eexists _, hasTtlChanged. split; [reflexivity|]. split.
    + cbn. by rewrite sub_insert_eq, lookup_insert_eq.
    + intros Hc. by eapply consistent_store; [apply Hc1| | |].
Qed.

(** ** Areas are never forgotten, whether a call returns or throws *)

Lemma grows_refl (st : ClientState) : grows st st.
Proof. by intros a. Qed.

Lemma grows_trans (st1 st2 st3 : ClientState) :
  grows st1 st2 → grows st2 st3 → grows st1 st3.
Proof.
  intros H12 H23 a. destruct (H12 a) as (?&?&?), (H23 a) as (?&?&?).
  auto.
Qed.

Lemma is_Some_touch `{Empty V} (a area : string) (m : gmap string V) :
  is_Some (m !! a) → is_Some (touch area m !! a).
Proof.
  intros Ha. unfold touch. destruct (m !! area) eqn:E; [done|].
  destruct (decide (area = a)) as [->|Hne].
  - by rewrite lookup_insert_eq.
  - by rewrite lookup_insert_ne.
Qed.

Lemma is_Some_insert {V} (a area : string) (x : V) (m : gmap string V) :
  is_Some (m !! a) → is_Some (<[area := x]> m !! a).
Proof.
  intros Ha. destruct (decide (area = a)) as [->|Hne].
  - by rewrite lookup_insert_eq.
  - by rewrite lookup_insert_ne.
Qed.

Lemma grows_bind {A B} (m : M A) (k : A → M B) (st : ClientState) :
  grows st (m st).2 → (∀ a st1, grows st1 (k a st1).2) →
  grows st (bind m k st).2.
Proof.
  intros Hm Hk. unfold bind. destruct (m st) as [[a|what] st1]; cbn in *.
  - eapply grows_trans; [done|apply Hk].
  - done.
Qed.

Lemma grows_modify (f : ClientState → ClientState) (st : ClientState) :
  grows st (f st) → grows st (modify f st).2.
Proof. done. Qed.

Lemma grows_at {V} (m : gmap string V) (key : string) (st : ClientState) :
  grows st (at_ m key st).2.
Proof. unfold at_. destruct (m !! key); apply grows_refl. Qed.

Ltac grows_step :=
  first
    [ apply grows_refl
    | apply grows_at
    | apply grows_bind; [|intros]
    | match goal with
      | |- grows _ ((match ?x with _ => _ end) _).2 => destruct x
      end
    | try apply grows_modify; unfold grows; intros ?; cbn;
      repeat split; intros;
      first [ assumption | by apply is_Some_insert | by apply is_Some_touch ]
    ].

Lemma kept_refl (st : ClientState) : kept st st.
Proof. split; [apply grows_refl | apply same_persisted_refl]. Qed.

Lemma kept_trans (st1 st2 st3 : ClientState) :
  kept st1 st2 → kept st2 st3 → kept st1 st3.
Proof.
  intros [Hg Hs] [Hg' Hs'].
  split; [by eapply grows_trans | by eapply same_persisted_trans].
Qed.

Lemma kept_bind {A B} (m : M A) (k : A → M B) (st : ClientState) :
  kept st (m st).2 → (∀ a st1, kept st1 (k a st1).2) →
  kept st (bind m k st).2.
Proof.
  intros Hm Hk. unfold bind. destruct (m st) as [[a|what] st1]; cbn in *.
  - eapply kept_trans; [done|apply Hk].
  - done.
Qed.

Lemma kept_at {V} (m : gmap string V) (key : string) (st : ClientState) :
  kept st (at_ m key st).2.
Proof. unfold at_. destruct (m !! key); apply kept_refl. Qed.

Lemma kept_forM {A B} (f : A → B → M B) (l : list A) :
  (∀ x acc st, kept st (f x acc st).2) →
  ∀ acc st, kept st (forM f l acc st).2.
Proof.
  intros Hf. induction l as [|x l IH]; intros acc st; cbn.
  - apply kept_refl.
  - apply kept_bind; [apply Hf | intros; apply IH].
Qed.

(** A step of a computation that keeps the areas and the records. *)
Ltac kept_step :=
  first
    [ apply kept_refl
    | apply kept_at
    | apply kept_bind; [|intros]
    | match goal with
      | |- kept _ ((match ?x with _ => _ end) _).2 => destruct x
      end
    | split;
      [ unfold grows; intros ?; cbn; repeat split; intros;
        first [ assumption | by apply is_Some_insert | by apply is_Some_touch ]
      | unfold same_persisted; intros ?; cbn;
        first [ reflexivity | apply sub_touch ] ]
    ].

Lemma kept_setKeysHelper (keyVals : gmap string Value) (area : string)
    (st : ClientState) :
  kept st (setKeysHelper env keyVals area st).2.
Proof. unfold setKeysHelper. repeat kept_step. Qed.

Lemma kept_advertisePendingKey (area key : string)
    (acc : Z * gmap string Value * list string) (st : ClientState) :
  kept st (advertisePendingKey env area key acc st).2.
Proof. unfold advertisePendingKey. repeat kept_step. Qed.

Lemma kept_advertisePendingArea (area : string) (timeout : Z)
    (st : ClientState) :
  kept st (advertisePendingArea env area timeout st).2.
Proof.
  unfold advertisePendingArea.
  repeat first [ apply kept_setKeysHelper
               | apply kept_forM; intros; apply kept_advertisePendingKey
               | kept_step ].
Qed.

Lemma kept_advertisePendingKeys (st : ClientState) :
  kept st (advertisePendingKeys env st).2.
Proof.
  unfold advertisePendingKeys.
  repeat first [ apply kept_forM; intros; apply kept_advertisePendingArea
               | kept_step ].
Qed.

Lemma kept_advertiseTtlUpdate (area key : string)
    (acc : Z * gmap string Value) (st : ClientState) :
  kept st (advertiseTtlUpdate env area key acc st).2.
Proof. unfold advertiseTtlUpdate. repeat kept_step. Qed.

Lemma kept_advertiseTtlArea (area : string) (timeout : Z)
    (st : ClientState) :
  kept st (advertiseTtlArea env area timeout st).2.
Proof.
  unfold advertiseTtlArea.
  repeat first [ apply kept_setKeysHelper
               | apply kept_forM; intros; apply kept_advertiseTtlUpdate
               | kept_step ].
Qed.

Lemma kept_advertiseTtlUpdates (st : ClientState) :
  kept st (advertiseTtlUpdates env st).2.
Proof.
  unfold advertiseTtlUpdates.
  repeat first [ apply kept_forM; intros; apply kept_advertiseTtlArea
               | kept_step ].
Qed.

Lemma kept_scheduleTtlUpdates (key : string) (version ttlVersion ttl : Z)
    (advertiseImmediately : bool) (area : string) (st : ClientState) :
  kept st (scheduleTtlUpdates env key version ttlVersion ttl
             advertiseImmediately area st).2.
Proof.
  unfold scheduleTtlUpdates.
  repeat first [ apply kept_advertiseTtlUpdates | kept_step ].
Qed.

(** Once [persistKey] was called for an area, the area is known. *)
Lemma persistKey_area_known (key value_ : string) (ttl_ : Z) (area : string)
    (st : ClientState) :
  area_known area (persistKey env key value_ ttl_ area st).2.
Proof.
  unfold persistKey.
  unfold bind at 1. unfold modify at 1.
  unfold bind at 1. unfold modify at 1.
  unfold bind at 1. unfold modify at 1.
  set (st1 := set_keysToAdvertise_ _ _).
  assert (area_known area st1) as H1.
  { subst st1. repeat split; cbn; apply touch_is_Some. }
  match goal with
  | |- area_known _ (?m st1).2 => cut (grows st1 (m st1).2)
  end.
  { intros Hg. destruct (Hg area) as (Hp & Ht & Hk).
    destruct H1 as (H1p & H1t & H1k). split; [|split]; auto. }
  repeat first [ apply (proj1 (kept_advertisePendingKeys _))
               | apply (proj1 (kept_scheduleTtlUpdates _ _ _ _ _ _ _))
               | grows_step
               | progress unfold getKey ].
Qed.

End ClientFacts.

Section ClientTheorems.
Import StateExn KvStoreTypes KvStoreClientInternal.

(** C10: [persistKey] called for a key that is persisted in the area with
    the same value and the same ttl returns false and leaves the state of
    the client as it is.  Called with another value, for a record of valid
    (non-zero) version, persisted or of the store, it persists the record
    with the version incremented, ttlVersion 0, this node as originator and
    the new value and ttl, whatever the advertising that follows does; it
    returns true when every key waiting to be advertised is persisted and
    has a backoff; and repeating that call returns false and changes
    nothing. *)
Theorem persistKey_idempotent (env : Env) (key value_ : string) (ttl_ : Z)
    (area : string) (st : ClientState) :
  (∀ v, area_known area st →
        sub area (persistedKeyVals_ st) !! key = Some v →
        value v = Some value_ → ttl v = ttl_ →
        persistKey env key value_ ttl_ area st = (Returned false, st)) ∧
  (∀ v old,
        currentValue env st key area = Some v →
        value v = Some old → old ≠ value_ → version v ≠ 0 →
        ∃ result st',
          persistKey env key value_ ttl_ area st = (result, st') ∧
          sub area (persistedKeyVals_ st') !! key
          = Some (mkValue (version v + 1) (nodeId_ env) (Some value_)
                    ttl_ 0 (hash v)) ∧
          (consistent st → result = Returned true) ∧
          persistKey env key value_ ttl_ area st' = (Returned false, st')).
Proof.
  split.
  - intros v. apply persistKey_same.
  - intros v old Hcur Hval Hold Hver.
    destruct (persistKey_changed env key value_ ttl_ area st v old)
      as (st2 & hasTtlChanged & E & Hst2 & Hc2); try done.
    pose proof (persistKey_area_known env key value_ ttl_ area st) as Hk.
    destruct (persistKey env key value_ ttl_ area st) as [result st'].
    exists result, st'. split; [done|].
    assert (sub area (persistedKeyVals_ st') !! key
            = Some (mkValue (version v + 1) (nodeId_ env) (Some value_)
                      ttl_ 0 (hash v))) as Hst.
    { assert (kept st2 (result, st').2) as [_ Hs].
      { rewrite E. apply kept_bind; [apply kept_advertisePendingKeys|].
        intros. apply kept_bind; [apply kept_scheduleTtlUpdates|].
        intros. apply kept_refl. }
      cbn in Hs. by rewrite (Hs area). }
    split; [done|]. split.
    + intros Hc.
      destruct (persistKey_tail env key ttl_ area _ hasTtlChanged st2
                  (Hc2 Hc) Hst2) as (st'' & E' & _).
      cbn [version ttlVersion] in E'. rewrite <- E in E'. congruence.
    + by eapply persistKey_same.
Qed.

Lemma scenario_consistent : consistent ClientScenario.st0.
Proof.
  intros a k Hk. exfalso. unfold sub in Hk. cbn in Hk.
  destruct (decide (a = "0")) as [->|Hne].
  - rewrite lookup_singleton_eq in Hk. cbn in Hk. set_solver.
  - rewrite lookup_singleton_ne in Hk by done. cbn in Hk. set_solver.
Defined.

(** "key1" is persisted in area "0" with "value1": persisting "value1"
    again, then "value2". *)
Lemma persistKey_idempotent_witness :
  persistKey ClientScenario.env "key1" "value1" (- 2 ^ 31) "0"
    ClientScenario.st0
  = (Returned false, ClientScenario.st0) ∧
  ∃ st', persistKey ClientScenario.env "key1" "value2" (- 2 ^ 31) "0"
           ClientScenario.st0 = (Returned true, st') ∧
         sub "0" (persistedKeyVals_ st') !! "key1"
         = Some (mkValue 2 "node-1" (Some "value2") (- 2 ^ 31) 0 None) ∧
         persistKey ClientScenario.env "key1" "value2" (- 2 ^ 31) "0" st'
         = (Returned false, st').
Proof.
  split.
  - apply (proj1 (persistKey_idempotent ClientScenario.env "key1" "value1"
                    (- 2 ^ 31) "0" ClientScenario.st0)
             ClientScenario.stored).
    + split; [|split]; vm_compute; by eexists.
    + reflexivity.
    + reflexivity.
    + reflexivity.
  - destruct (proj2 (persistKey_idempotent ClientScenario.env "key1" "value2"
                       (- 2 ^ 31) "0" ClientScenario.st0)
                ClientScenario.stored "value1")
      as (result & st' & E & Hst & Hres & Hagain).
    + reflexivity.
    + reflexivity.
    + done.
    + done.
    + exists st'. rewrite E, (Hres scenario_consistent). by repeat split.
Defined.

(** The same two calls, computed: the second record is sent to the
    store. *)
Example persistKey_value2_sent :
  let '(result, st') :=
    persistKey ClientScenario.env "key1" "value2" (- 2 ^ 31) "0"
      ClientScenario.st0 in
  result = Returned true ∧
  kvStoreSets st'
  = [("0", {[ "key1" := mkValue 2 "node-1" (Some "value2") (- 2 ^ 31) 0
                           None ]}, true)] ∧
  sub "0" (keysToAdvertise_ st') = ∅.
Proof. by vm_compute. Qed.

End ClientTheorems.

Section PrefixManagerFacts.
Import PrefixManager.

(** C1: from an empty prefix manager, after advertising 10/8 and 11/8 as
    LOOPBACK and 20/8 and 21/8 as BGP, withdrawing 21/8, withdrawing the
    type LOOPBACK and syncing the type BGP to 23/8, [get_prefixes] returns
    the one entry 23/8:BGP and [get_prefixes_by_type(LOOPBACK)] returns
    nothing. *)
Theorem prefix_lifecycle :
  let prefixMap_ := foldl processRequest ∅ lifecycle in
  getPrefixes prefixMap_ = [createPrefixEntry ("23.0.0.0", 8) BGP] ∧
  getPrefixesByType LOOPBACK prefixMap_ = [].
Proof. by vm_compute. Qed.

End PrefixManagerFacts.

Section ConfigStoreFacts.
Import ConfigStore.

(** C5: a key that was set reads back its value; a key that was erased
    reads as the error NotFound; erasing a key leaves the value of every
    other key as it was. *)
Theorem config_store_operations :
  (∀ (k v : string) (database : Database),
      get_config_key k (set_config_key k v database) = inl v) ∧
  (∀ (k : string) (database : Database),
      get_config_key k (erase_config_key k database) = inr (NotFound k)) ∧
  (∀ (k k' : string) (database : Database),
      k ≠ k' →
      get_config_key k' (erase_config_key k database)
      = get_config_key k' database).
Proof.
  unfold get_config_key, set_config_key, erase_config_key.
  split; [|split].
  - intros k v database. by rewrite lookup_insert_eq.
  - intros k database. by rewrite lookup_delete_eq.
  - intros k k' database Hne. by rewrite lookup_delete_ne.
Qed.

(** The scenario of the test: "key1" and "key2" are set, "key1" is
    erased. *)
Lemma config_store_operations_witness :
  let database :=
    erase_config_key "key1"
      (set_config_key "key2" "value2" (set_config_key "key1" "value1" ∅)) in
  get_config_key "key2" database = inl "value2" ∧
  get_config_key "key1" database = inr (NotFound "key1").
Proof.
  destruct config_store_operations as (Hset & Herase & Hother).
  cbn zeta. split.
  - rewrite Hother by done. apply Hset.
  - apply Herase.
Defined.

End ConfigStoreFacts.

Section KvStoreFacts.
Import KvStoreTypes KvStore.

Lemma omitValue_fields (v : Value) :
  value (omitValue v) = None ∧
  version (omitValue v) = version v ∧
  originatorId (omitValue v) = originatorId v ∧
  ttl (omitValue v) = ttl v ∧
  ttlVersion (omitValue v) = ttlVersion v ∧
  hash (omitValue v) = hash v.
Proof. done. Qed.

(** The hash dump has the keys of the full dump, each record without its
    value and otherwise unchanged. *)
Lemma dumpHashWithFilters_lookup (params : KeyDumpParams)
    (kvStore_ : gmap string Value) (key : string) :
  dumpHashWithFilters params kvStore_ !! key
  = omitValue <$> dumpAllWithFilters params kvStore_ !! key.
Proof. unfold dumpHashWithFilters. by rewrite lookup_fmap. Qed.

(** C4: with the nine records of the test in the store, the dump filtered
    by the prefix "key3" and the originator "node3" returns exactly key3,
    key33 and key333 with their stored records, and the hash dump with the
    same parameters exactly these keys with records that have no value and
    are otherwise the stored ones. *)
Theorem filtered_dump_key3 (kTtlThreshold : Z) :
  let store := seeded kTtlThreshold in
  dumpAllWithFilters key3_of_node3 store
  = list_to_map
      [ ("key3", record kTtlThreshold "node3" "value3");
        ("key33", record kTtlThreshold "node33" "value33");
        ("key333", record kTtlThreshold "node33" "value333") ] ∧
  dom (dumpHashWithFilters key3_of_node3 store)
  = {[ "key3"; "key33"; "key333" ]} ∧
  (∀ key stored,
      dumpAllWithFilters key3_of_node3 store !! key = Some stored →
      store !! key = Some stored ∧
      ∃ returned,
        dumpHashWithFilters key3_of_node3 store !! key = Some returned ∧
        value returned = None ∧
        version returned = version stored ∧
        originatorId returned = originatorId stored ∧
        ttl returned = ttl stored ∧
        ttlVersion returned = ttlVersion stored ∧
        hash returned = hash stored).
Proof.
  intros store.
  assert (dumpAllWithFilters key3_of_node3 store
          = list_to_map
              [ ("key3", record kTtlThreshold "node3" "value3");
                ("key33", record kTtlThreshold "node33" "value33");
                ("key333", record kTtlThreshold "node33" "value333") ])
    as Hdump.
  { by vm_compute. }
  split; [done|]. split.
  - by vm_compute.
  - intros key stored Hl. split.
    + unfold dumpAllWithFilters in Hl.
      by apply map_lookup_filter_Some in Hl as [Hl _].
    + exists (omitValue stored). split; [|apply omitValue_fields].
      by rewrite dumpHashWithFilters_lookup, Hl.
Qed.

(** The record of "key33" (originator "node33") in both dumps, with the
    ttl threshold of 500 ms. *)
Lemma filtered_dump_key3_witness :
  dumpAllWithFilters key3_of_node3 (seeded 500) !! "key33"
  = Some (record 500 "node33" "value33") ∧
  ∃ returned,
    dumpHashWithFilters key3_of_node3 (seeded 500) !! "key33" = Some returned ∧
    value returned = None ∧ originatorId returned = "node33".
Proof.
  split; [reflexivity|].
  destruct (proj2 (proj2 (filtered_dump_key3 500)) "key33"
              (record 500 "node33" "value33"))
    as (_ & returned & Hl & Hv & _ & Ho & _).
  - reflexivity.
  - exists returned. split; [exact Hl|]. split; [exact Hv|]. exact Ho.
Defined.

End KvStoreFacts.

(* ===================================================================== *)
(** * Util.h                                                               *)
(* ===================================================================== *)

Section UtilFacts.
Import Util.

Lemma label_mask : 0xfff00000 = Z.shiftl (Z.ones 12) 20.
Proof. reflexivity. Qed.

Lemma land_label_mask (x : Z) :
  0 ≤ x < 2 ^ 32 → (Z.land x 0xfff00000 = 0 ↔ x < 2 ^ 20).
Proof.
  intros Hx. rewrite label_mask. split.
  - intros Hland.
    assert (Z.shiftr x 20 = 0) as Hhigh.
    { apply Z.bits_inj'. intros n Hn.
      rewrite Z.shiftr_spec, Z.bits_0 by done.
      destruct (decide (n < 12)) as [Hlt|Hge].
      - assert (Z.testbit (Z.land x (Z.shiftl (Z.ones 12) 20)) (n + 20)
                = false) as Hbit by (by rewrite Hland, Z.bits_0).
        rewrite Z.land_spec, Z.shiftl_spec in Hbit by lia.
        replace (n + 20 - 20) with n in Hbit by lia.
        rewrite Z.ones_spec_low, andb_true_r in Hbit by lia. done.
      - apply Z.bits_above_log2; [lia|].
        destruct (decide (x = 0)) as [->|Hnz]; [cbn; lia|].
        apply Z.log2_lt_pow2; [lia|].
        apply Z.lt_le_trans with (2 ^ 32); [lia|].
        apply Z.pow_le_mono_r; lia. }
    rewrite Z.shiftr_div_pow2 in Hhigh by lia.
    apply Z.div_small_iff in Hhigh; lia.
  - intros Hlt. apply Z.bits_inj'. intros n Hn.
    rewrite Z.land_spec, Z.bits_0.
    destruct (decide (n < 20)) as [Hlow|Hhigh].
    + by rewrite Z.shiftl_spec_low, andb_false_r.
    + destruct (decide (x = 0)) as [->|Hnz]; [by rewrite Z.bits_0|].
      rewrite Z.bits_above_log2; [done|lia|].
      apply Z.log2_lt_pow2; [lia|].
      apply Z.lt_le_trans with (2 ^ 20); [lia|].
      apply Z.pow_le_mono_r; lia.
Qed.

(** The mask of [isMplsLabelValid] on the [uint32_t] of a label. *)
Lemma land_to_uint32_label (mplsLabel : Z) :
  - 2 ^ 31 ≤ mplsLabel < 2 ^ 31 →
  (Z.land (to_uint32 mplsLabel) 0xfff00000 = 0 ↔ 0 ≤ mplsLabel < 2 ^ 20).
Proof.
  intros Hrange. unfold to_uint32.
  rewrite land_label_mask by (apply Z.mod_pos_bound; lia).
  destruct (decide (0 ≤ mplsLabel)) as [Hpos|Hneg].
  - rewrite Z.mod_small by lia. lia.
  - replace (mplsLabel mod 2 ^ 32) with (mplsLabel + 2 ^ 32); [lia|].
    apply Z.mod_unique with (-1); lia.
Qed.

Lemma isMplsLabelValid_20_bits (mplsLabel : Z) :
  - 2 ^ 31 ≤ mplsLabel < 2 ^ 31 →
  (isMplsLabelValid mplsLabel = true ↔ 0 ≤ mplsLabel < 2 ^ 20).
Proof.
  intros Hrange. unfold isMplsLabelValid.
  by rewrite Z.eqb_eq, land_to_uint32_label.
Qed.

(** X1: [isMplsLabelValid] accepts exactly the labels of 20 bits: a label of
    the type [int32_t] is valid when it is at least 0 and below 2^20; negative
    labels are refused. *)
Theorem isMplsLabelValid_range (mplsLabel : Z) :
  - 2 ^ 31 ≤ mplsLabel < 2 ^ 31 →
  (isMplsLabelValid mplsLabel = true ↔ 0 ≤ mplsLabel < 2 ^ 20).
Proof.
  intros Hrange. unfold isMplsLabelValid.
  rewrite Z.eqb_eq. by apply land_to_uint32_label.
Qed.

Lemma isMplsLabelValid_range_witness :
  - 2 ^ 31 ≤ 1048575 < 2 ^ 31 ∧
  (isMplsLabelValid 1048575 = true ↔ 0 ≤ 1048575 < 2 ^ 20).
Proof. split; [lia | apply (isMplsLabelValid_range 1048575); lia]. Defined.

(** The two ends of the range, and a negative label, computed. *)
Example isMplsLabelValid_runs :
  isMplsLabelValid 0 = true ∧ isMplsLabelValid 1048575 = true ∧
  isMplsLabelValid 1048576 = false ∧ isMplsLabelValid (-1) = false.
Proof. by vm_compute. Qed.

Lemma forallb_isMplsLabelValid (labels : list Z) :
  Forall (λ l, - 2 ^ 31 ≤ l < 2 ^ 31) labels →
  (forallb isMplsLabelValid labels = true
   ↔ Forall (λ l, 0 ≤ l < 2 ^ 20) labels).
Proof.
  induction 1 as [|l labels Hl _ IH]; cbn.
  - split; [by constructor | done].
  - rewrite andb_true_iff, IH, (isMplsLabelValid_20_bits l Hl).
    split; [intros [? ?]; by constructor | by inversion 1].
Qed.

(** The two sides of an equivalence between an aborted or returned
    computation and the shape of its arguments. *)
Ltac refused :=
  split; [done|];
  intros (_ & Hshape);
  repeat match type of Hshape with
         | _ ∧ _ => destruct Hshape as [? Hshape]
         | ∃ _, _ => destruct Hshape as [? Hshape]
         end;
  by simplify_eq.

Ltac accepted := split; [by intros [= <-] | by intros [-> _]].

(** X2: [createMplsAction] returns an action, the one of its arguments, only
    when it is well formed, and aborts otherwise: PUSH carries no swap label
    and at least one push label, all of 20 bits; SWAP carries a swap label of
    20 bits and no push labels; PHP and POP_AND_LOOKUP carry no label; no other
    code is accepted. The labels are [int32_t]. *)
Theorem createMplsAction_well_formed (code : MplsActionCode)
    (swap : option Z) (push : option (list Z)) (a : MplsAction) :
  (∀ label, swap = Some label → - 2 ^ 31 ≤ label < 2 ^ 31) →
  (∀ labels, push = Some labels →
             Forall (λ l, - 2 ^ 31 ≤ l < 2 ^ 31) labels) →
  (createMplsAction code swap push = Some a ↔
   a = mkMplsAction code swap push ∧
   match code with
   | PUSH => swap = None ∧
             ∃ labels, push = Some labels ∧ labels ≠ [] ∧
                       Forall (λ l, 0 ≤ l < 2 ^ 20) labels
   | SWAP => push = None ∧
             ∃ label, swap = Some label ∧ 0 ≤ label < 2 ^ 20
   | PHP | POP_AND_LOOKUP => swap = None ∧ push = None
   | UnknownCode _ => False
   end).
Proof.
  intros Hswap Hpush. unfold createMplsAction, checkMplsAction. cbn.
  destruct code as [| | | |c].
  - destruct swap as [s|]; cbn; [refused|].
    destruct push as [labels|]; cbn; [|refused].
    pose proof (forallb_isMplsLabelValid labels (Hpush labels eq_refl))
      as Hall.
    destruct (decide (labels = [])) as [->|Hne].
    { rewrite bool_decide_eq_true_2 by done. cbn. refused. }
    rewrite bool_decide_eq_false_2 by done. cbn.
    destruct (forallb isMplsLabelValid labels); cbn.
    + split; [|by intros [-> _]]. intros [= <-].
      split; [done|]. split; [done|]. exists labels.
      by rewrite <- Hall.
    + split; [done|]. intros (_ & _ & labels' & [= <-] & _ & Hf).
      apply Hall in Hf. done.
  - destruct swap as [label|]; cbn; [|refused].
    pose proof (isMplsLabelValid_20_bits label (Hswap label eq_refl))
      as Hv.
    destruct (isMplsLabelValid label); cbn.
    + destruct push; cbn; [refused|].
      split; [|by intros [-> _]]. intros [= <-].
      split; [done|]. split; [done|]. exists label. by rewrite <- Hv.
    + split; [done|]. intros (_ & _ & label' & [= <-] & Hr).
      apply Hv in Hr. done.
  - destruct swap, push; cbn; first [refused | accepted].
  - destruct swap, push; cbn; first [refused | accepted].
  - cbn. refused.
Qed.

Lemma createMplsAction_well_formed_witness :
  createMplsAction PUSH None (Some [100; 200])
  = Some (mkMplsAction PUSH None (Some [100; 200])).
Proof.
  apply (createMplsAction_well_formed PUSH None (Some [100; 200])).
  - done.
  - intros labels [= <-]. repeat constructor; lia.
  - split; [done|]. split; [done|]. exists [100; 200].
    split; [done|]. split; [done|]. repeat constructor; lia.
Defined.

(** X3: [buildSetDifference lhs rhs] is the set of the values of [lhs] that are
    not in [rhs]. *)
Theorem buildSetDifference_difference `{Countable T} (lhs rhs : gset T) :
  buildSetDifference lhs rhs = lhs ∖ rhs.
Proof.
  unfold buildSetDifference. apply set_eq. intros x.
  rewrite elem_of_list_to_set, list_elem_of_filter, elem_of_elements,
    elem_of_difference.
  tauto.
Qed.

End UtilFacts.

(* ===================================================================== *)
(** * Metric vectors: what the comparison decides                          *)
(* ===================================================================== *)

Section MetricVectorOrder.
Import MetricVectorUtils.

Lemma compareMetrics_loop_not_error (l r : list Z) (tieBreaker : bool) :
  compareMetrics_loop l r tieBreaker ≠ ERROR.
Proof.
  revert r. induction l as [|lv l IH]; intros [|rv r]; cbn; try done.
  destruct (lv >? rv); [by destruct tieBreaker|].
  destruct (lv <? rv); [by destruct tieBreaker|]. apply IH.
Qed.

Lemma compareMetrics_loop_tie (l r : list Z) (tieBreaker : bool) :
  length l = length r →
  (compareMetrics_loop l r tieBreaker = TIE ↔ l = r).
Proof.
  revert r. induction l as [|lv l IH]; intros [|rv r] Hlen; cbn in *;
    try done.
  destruct (Z.gtb_spec lv rv).
  { split; [by destruct tieBreaker | intros [= ? _]; lia]. }
  destruct (Z.ltb_spec lv rv).
  { split; [by destruct tieBreaker | intros [= ? _]; lia]. }
  rewrite IH by lia. replace rv with lv by lia.
  split; [by intros -> | by intros [= ->]].
Qed.

Lemma compareMetrics_tie (l r : list Z) (tieBreaker : bool) :
  compareMetrics l r tieBreaker = TIE ↔ l = r.
Proof.
  unfold compareMetrics.
  destruct (Nat.eqb_spec (length l) (length r)) as [Hlen|Hlen]; cbn.
  - by apply compareMetrics_loop_tie.
  - split; [done|]. intros ->. done.
Qed.

(** X4: [compareMetrics] is an error exactly when the two metrics differ in
    length, and a tie exactly when they are the same list. *)
Theorem compareMetrics_tie_error (l r : list Z) (tieBreaker : bool) :
  (compareMetrics l r tieBreaker = ERROR ↔ length l ≠ length r) ∧
  (compareMetrics l r tieBreaker = TIE ↔ l = r).
Proof.
  split; [|apply compareMetrics_tie].
  unfold compareMetrics.
  destruct (Nat.eqb_spec (length l) (length r)) as [Hlen|Hlen]; cbn.
  - split; [|done]. intros Herr.
    by apply compareMetrics_loop_not_error in Herr.
  - done.
Qed.

(** X5: [compareMetrics] is lexicographic: between metrics of one length, the
    first position where they differ decides, the larger value winning (as a
    tie-break when the entity is a tie-breaker). *)
Theorem compareMetrics_first_difference (same l r : list Z) (a b : Z)
    (tieBreaker : bool) :
  length l = length r → a ≠ b →
  compareMetrics (same ++ a :: l) (same ++ b :: r) tieBreaker
  = if a >? b then (if tieBreaker then TIE_WINNER else WINNER)
    else (if tieBreaker then TIE_LOOSER else LOOSER).
Proof.
  intros Hlen Hab. unfold compareMetrics.
  rewrite !length_app. cbn [length]. rewrite Hlen, Nat.eqb_refl. cbn.
  induction same as [|x same IH]; cbn.
  - destruct (Z.gtb_spec a b); [done|].
    destruct (Z.ltb_spec a b); [done|lia].
  - destruct (Z.gtb_spec x x); [lia|].
    destruct (Z.ltb_spec x x); [lia|]. apply IH.
Qed.

Lemma compareMetrics_first_difference_witness :
  compareMetrics [4; 7; 1] [4; 9; 0] false = LOOSER.
Proof.
  apply (compareMetrics_first_difference [4] [1] [0] 7 9 false);
    [reflexivity | lia].
Defined.

Lemma compareMetrics_refl (l : list Z) (tieBreaker : bool) :
  compareMetrics l l tieBreaker = TIE.
Proof. by apply compareMetrics_tie. Qed.

Lemma mainLoop_same (fuel : nat) (m : list MetricEntity) :
  (length m ≤ fuel)%nat → mainLoop fuel TIE m m = (TIE, [], []).
Proof.
  revert m. induction fuel as [|fuel IH]; intros [|e m] Hlen; cbn in *;
    try done; [lia|].
  rewrite Z.eqb_refl, eqb_reflx, compareMetrics_refl. cbn.
  apply IH. lia.
Qed.

(** X6: Comparing a metric vector with itself is a tie, whatever the order
    [std::sort] gives to its entities. *)
Theorem compareMetricVectors_refl
    (std_sort : list MetricEntity → list MetricEntity) (l : MetricVector) :
  compareMetricVectors std_sort l l = TIE.
Proof.
  unfold compareMetricVectors. rewrite Z.eqb_refl. cbn.
  rewrite mainLoop_same; [done|]. unfold mainLoop_fuel. lia.
Qed.

Lemma isSorted_from_spec (priorPriority : Z) (ents : list MetricEntity) :
  isSorted_from priorPriority ents = true ↔
  Forall (λ e, priority e ≤ priorPriority) ents ∧
  StronglySorted (λ a b, priority b ≤ priority a) ents.
Proof.
  revert priorPriority. induction ents as [|e ents IH]; intros p; cbn.
  - split; [by repeat constructor | done].
  - destruct (Z.gtb_spec (priority e) p) as [Hgt|Hle].
    + split; [done|]. intros [Hall _]. inversion Hall; lia.
    + rewrite IH. split.
      * intros [Hall Hsorted]. split; [|by constructor].
        constructor; [done|].
        eapply Forall_impl; [exact Hall|]. cbn. intros; lia.
      * intros [_ Hsorted]. by inversion Hsorted.
Qed.

(** X7: [isSorted] holds exactly of the vectors whose priorities never
    increase: every entity has a priority at least that of every later one. The
    priorities are [int64_t]. *)
Theorem isSorted_descending (mv : list MetricEntity) :
  Forall (λ e, priority e ≤ INT64_MAX) mv →
  (isSorted mv = true ↔
   StronglySorted (λ a b, priority b ≤ priority a) mv).
Proof.
  intros Hmax. unfold isSorted. rewrite isSorted_from_spec. tauto.
Qed.

Lemma isSorted_descending_witness :
  let mv := [mkMetricEntity 1 20 WIN_IF_PRESENT false [];
             mkMetricEntity 2 20 WIN_IF_PRESENT false [];
             mkMetricEntity 3 10 WIN_IF_PRESENT false []] in
  Forall (λ e, priority e ≤ INT64_MAX) mv ∧
  (isSorted mv = true ↔
   StronglySorted (λ a b, priority b ≤ priority a) mv).
Proof.
  split.
  - repeat constructor; by vm_compute.
  - apply isSorted_descending. repeat constructor; by vm_compute.
Defined.

(** A result that is no tie-break. *)
Lemma maybeUpdate_cases (target update : CompareResult) :
  maybeUpdate target update = target ∨ maybeUpdate target update = update.
Proof. destruct target, update; cbn; auto. Qed.

Lemma compareMetrics_no_tie_break (l r : list Z) :
  compareMetrics l r false ≠ TIE_WINNER ∧
  compareMetrics l r false ≠ TIE_LOOSER.
Proof.
  unfold compareMetrics. destruct (negb _); [done|].
  revert r. induction l as [|lv l IH]; intros [|rv r]; cbn; try done.
  destruct (lv >? rv); [done|]. destruct (lv <? rv); [done|]. apply IH.
Qed.

Lemma resultForLoner_no_tie_break (e : MetricEntity) :
  isBestPathTieBreaker e = false →
  resultForLoner e ≠ TIE_WINNER ∧ resultForLoner e ≠ TIE_LOOSER ∧
  negate (resultForLoner e) ≠ TIE_WINNER ∧
  negate (resultForLoner e) ≠ TIE_LOOSER.
Proof.
  intros Htb. unfold resultForLoner. rewrite Htb.
  destruct (decide _); [done|]. by destruct (decide _).
Qed.

Lemma mainLoop_no_tie_break (fuel : nat) (result : CompareResult)
    (lIter rIter : list MetricEntity) :
  result ≠ TIE_WINNER ∧ result ≠ TIE_LOOSER →
  Forall (λ e, isBestPathTieBreaker e = false) lIter →
  Forall (λ e, isBestPathTieBreaker e = false) rIter →
  let '(x, li, ri) := mainLoop fuel result lIter rIter in
  (x ≠ TIE_WINNER ∧ x ≠ TIE_LOOSER) ∧
  Forall (λ e, isBestPathTieBreaker e = false) li ∧
  Forall (λ e, isBestPathTieBreaker e = false) ri.
Proof.
  revert result lIter rIter.
  induction fuel as [|fuel IH]; intros result lIter rIter Hr Hl Hrr; cbn;
    [done|].
  destruct (isDecisive result); [done|].
  destruct lIter as [|le l'], rIter as [|re r']; try done.
  inversion Hl as [|? ? Hle Hl']; inversion Hrr as [|? ? Hre Hr']; subst.
  assert (∀ u, u ≠ TIE_WINNER ∧ u ≠ TIE_LOOSER →
               maybeUpdate result u ≠ TIE_WINNER ∧
               maybeUpdate result u ≠ TIE_LOOSER) as Hup.
  { intros u Hu. by destruct (maybeUpdate_cases result u) as [-> | ->]. }
  destruct (type le =? type re).
  - rewrite Hle, Hre. cbn. apply IH; [|done|done].
    apply Hup, compareMetrics_no_tie_break.
  - destruct (priority le >? priority re).
    { apply IH; [|done|done]. apply Hup.
      by destruct (resultForLoner_no_tie_break le Hle) as (? & ? & _). }
    destruct (priority le <? priority re).
    { apply IH; [|done|done]. apply Hup.
      by destruct (resultForLoner_no_tie_break re Hre) as (_ & _ & ? & ?). }
    apply IH; [|done|done]. by apply Hup.
Qed.

Lemma loners_no_tie_break (result : CompareResult)
    (it : list MetricEntity) :
  result ≠ TIE_WINNER ∧ result ≠ TIE_LOOSER →
  Forall (λ e, isBestPathTieBreaker e = false) it →
  (lonersLeft result it ≠ TIE_WINNER ∧ lonersLeft result it ≠ TIE_LOOSER) ∧
  (lonersRight result it ≠ TIE_WINNER ∧
   lonersRight result it ≠ TIE_LOOSER).
Proof.
  intros Hr Hit. revert result Hr.
  induction Hit as [|e it He _ IH]; intros result Hr; cbn.
  - by destruct (isDecisive result).
  - destruct (isDecisive result); [done|].
    destruct (resultForLoner_no_tie_break e He) as (? & ? & ? & ?).
    split.
    + apply IH.
      by destruct (maybeUpdate_cases result (resultForLoner e))
        as [-> | ->].
    + apply IH.
      by destruct (maybeUpdate_cases result (negate (resultForLoner e)))
        as [-> | ->].
Qed.

(** X8: Between vectors none of whose entities is a best-path tie-breaker the
    comparison never returns a tie-break: the result is WINNER, TIE, LOOSER or
    ERROR. [std::sort] rearranges the entities it is given. *)
Theorem compareMetricVectors_no_tie_break
    (std_sort : list MetricEntity → list MetricEntity) (l r : MetricVector) :
  (∀ m, std_sort m ≡ₚ m) →
  Forall (λ e, isBestPathTieBreaker e = false) (metrics l) →
  Forall (λ e, isBestPathTieBreaker e = false) (metrics r) →
  compareMetricVectors std_sort l r ≠ TIE_WINNER ∧
  compareMetricVectors std_sort l r ≠ TIE_LOOSER.
Proof.
  intros Hsort Hl Hr. unfold compareMetricVectors.
  destruct (negb _); [done|].
  assert (∀ m, Forall (λ e, isBestPathTieBreaker e = false) m →
               Forall (λ e, isBestPathTieBreaker e = false)
                 (sortMetricVector std_sort m)) as Hkeep.
  { intros m Hm. unfold sortMetricVector. destruct (isSorted m); [done|].
    by rewrite Hsort. }
  assert (TIE ≠ TIE_WINNER ∧ TIE ≠ TIE_LOOSER) as Htie by done.
  pose proof (mainLoop_no_tie_break
                (mainLoop_fuel (sortMetricVector std_sort (metrics l))
                   (sortMetricVector std_sort (metrics r)))
                TIE _ _ Htie (Hkeep _ Hl) (Hkeep _ Hr)) as Hmain.
  destruct (mainLoop _ TIE _ _) as [[x li] ri].
  destruct Hmain as (Hx & Hli & Hri).
  apply loners_no_tie_break; [|done].
  by apply loners_no_tie_break.
Qed.

Lemma insert_by_priority_perm (e : MetricEntity) (m : list MetricEntity) :
  insert_by_priority e m ≡ₚ e :: m.
Proof.
  induction m as [|x m IH]; cbn; [done|].
  destruct (priority e >? priority x); [done|].
  by rewrite IH, Permutation_swap.
Qed.

Lemma sort_by_priority_perm (m : list MetricEntity) :
  sort_by_priority m ≡ₚ m.
Proof.
  unfold sort_by_priority. induction m as [|x m IH]; cbn; [done|].
  by rewrite insert_by_priority_perm, IH.
Qed.

Lemma compareMetricVectors_no_tie_break_witness :
  let l := mkMetricVector 1 [mkMetricEntity 1 10 WIN_IF_PRESENT false [5];
                             mkMetricEntity 2 20 WIN_IF_PRESENT false [7]] in
  let r := mkMetricVector 1 [mkMetricEntity 1 10 WIN_IF_PRESENT false [5]] in
  compareMetricVectors sort_by_priority l r ≠ TIE_WINNER ∧
  compareMetricVectors sort_by_priority l r ≠ TIE_LOOSER.
Proof.
  apply (compareMetricVectors_no_tie_break sort_by_priority).
  - apply sort_by_priority_perm.
  - by repeat constructor.
  - by repeat constructor.
Defined.

Lemma mainLoop_decisive (fuel : nat) (result : CompareResult)
    (lIter rIter : list MetricEntity) :
  isDecisive result = true →
  mainLoop fuel result lIter rIter = (result, lIter, rIter).
Proof. intros Hd. destruct fuel; cbn; [done|]. by rewrite Hd. Qed.

(** X9: Between two sorted vectors of one version whose first entities have the
    same type, are no tie-breakers and carry different metrics, the first
    entities decide: the result is the comparison of their metrics, and no
    later entity is looked at. *)
Theorem compareMetricVectors_head_decides
    (std_sort : list MetricEntity → list MetricEntity) (version : Z)
    (le re : MetricEntity) (l r : list MetricEntity) :
  isSorted (le :: l) = true → isSorted (re :: r) = true →
  type le = type re →
  isBestPathTieBreaker le = false → isBestPathTieBreaker re = false →
  metric le ≠ metric re →
  compareMetricVectors std_sort (mkMetricVector version (le :: l))
    (mkMetricVector version (re :: r))
  = compareMetrics (metric le) (metric re) false.
Proof.
  intros Hl Hr Htype Hle Hre Hmetric. unfold compareMetricVectors.
  cbn [MetricVectorUtils.version metrics]. rewrite Z.eqb_refl. cbn [negb].
  unfold sortMetricVector. rewrite Hl, Hr.
  unfold mainLoop_fuel. cbn [length Nat.add mainLoop].
  change (isDecisive TIE) with false. cbn iota.
  rewrite Htype, Z.eqb_refl, Hle, Hre. cbn [eqb negb].
  pose proof (compareMetrics_tie (metric le) (metric re) false) as Htie.
  pose proof (compareMetrics_no_tie_break (metric le) (metric re))
    as [Hw Hlo].
  assert (isDecisive (compareMetrics (metric le) (metric re) false) = true
          ∧ maybeUpdate TIE (compareMetrics (metric le) (metric re) false)
            = compareMetrics (metric le) (metric re) false) as [Hd ->].
  { destruct (compareMetrics (metric le) (metric re) false); try done.
    by destruct Hmetric; apply Htie. }
  rewrite mainLoop_decisive by done.
  by rewrite lonersLeft_decisive, lonersRight_decisive.
Qed.

Lemma compareMetricVectors_head_decides_witness :
  compareMetricVectors sort_by_priority
    (mkMetricVector 1 [mkMetricEntity 2 20 WIN_IF_PRESENT false [3];
                       mkMetricEntity 1 10 WIN_IF_PRESENT false [9]])
    (mkMetricVector 1 [mkMetricEntity 2 20 WIN_IF_PRESENT false [7];
                       mkMetricEntity 1 10 WIN_IF_PRESENT false [1]])
  = compareMetrics [3] [7] false.
Proof.
  by apply (compareMetricVectors_head_decides sort_by_priority 1
              (mkMetricEntity 2 20 WIN_IF_PRESENT false [3])
              (mkMetricEntity 2 20 WIN_IF_PRESENT false [7])
              [mkMetricEntity 1 10 WIN_IF_PRESENT false [9]]
              [mkMetricEntity 1 10 WIN_IF_PRESENT false [1]]).
Defined.

End MetricVectorOrder.

(* ===================================================================== *)
(** * The neighbor state machine: no dead end                              *)
(* ===================================================================== *)

Section FsmConnected.
Import SparkFsm.

(** X10: From every state of the neighbor state machine every state can be
    reached by some sequence of events: no state is a dead end, and a neighbor
    that left ESTABLISHED can come back to it. *)
Theorem stateMap_connected (s s' : SparkNeighState)
    (past : list SparkNeighState) :
  ∃ events x', run (mkExecution past s) events = Some x' ∧ current x' = s'.
Proof.
  pose (toIdle := λ s, match s with
                       | IDLE => []
                       | WARM => [HELLO_RCVD_INFO; HANDSHAKE_RCVD;
                                  HEARTBEAT_TIMER_EXPIRE]
                       | NEGOTIATE => [HANDSHAKE_RCVD; HEARTBEAT_TIMER_EXPIRE]
                       | ESTABLISHED => [HEARTBEAT_TIMER_EXPIRE]
                       | RESTART => [GR_TIMER_EXPIRE]
                       end).
  pose (fromIdle := λ s, match s with
                         | IDLE => []
                         | WARM => [HELLO_RCVD_NO_INFO]
                         | NEGOTIATE => [HELLO_RCVD_NO_INFO; HELLO_RCVD_INFO]
                         | ESTABLISHED => [HELLO_RCVD_NO_INFO; HELLO_RCVD_INFO;
                                           HANDSHAKE_RCVD]
                         | RESTART => [HELLO_RCVD_NO_INFO; HELLO_RCVD_INFO;
                                       HANDSHAKE_RCVD; HELLO_RCVD_RESTART]
                         end).
  exists (toIdle s ++ fromIdle s').
  destruct s, s'; cbn; eexists; (split; [reflexivity|reflexivity]).
Qed.

End FsmConnected.

(* ===================================================================== *)
(** * Spark: reception and areas                                           *)
(* ===================================================================== *)

Section ReceptionFacts.
Import StateExn Spark.
Context (env : Env) (cfg : Config).

Lemma findInterfaceFromIfindex_Some (db : gmap string Interface) (index : Z)
    (ifName_ : string) :
  findInterfaceFromIfindex db index = Some ifName_ →
  ∃ iface, db !! ifName_ = Some iface ∧ ifIndex iface = index.
Proof.
  unfold findInterfaceFromIfindex. intros Hfind.
  destruct (head _) as [[name iface]|] eqn:Hhead; [|done].
  injection Hfind as <-. apply head_Some_elem_of in Hhead.
  apply list_elem_of_filter in Hhead as [Hidx Hin].
  apply elem_of_map_to_list in Hin. by exists iface.
Qed.

(** X11: A packet that [parsePacket] hands on for processing came with hop
    limit 255 or more, on a tracked interface (the one of its interface index),
    within the rate limit, with at most 1280 bytes read, and is what the
    deserializer made of the buffer; its time is the time of reception. *)
Theorem parsePacket_accepts (rx : Received) (st : SparkState)
    (pkt : SparkHelloPacket) (ifName_ : string) (myRecvTime : Z) :
  (parsePacket env rx st).1 = Returned (Some (pkt, ifName_, myRecvTime)) →
  kSparkHopLimit ≤ hopLimit rx ∧
  (∃ iface, interfaceDb_ st !! ifName_ = Some iface ∧
            ifIndex iface = r_ifIndex rx) ∧
  seriesCount rx ≤ kMaxAllowedPps env ∧
  0 ≤ bytesRead rx ≤ kMinIpv6Mtu ∧
  readThriftObjStr env (buf rx) = Some pkt ∧
  myRecvTime = recvTime rx.
Proof.
  unfold parsePacket.
  destruct (Z.ltb_spec (hopLimit rx) kSparkHopLimit) as [|Hhop]; [done|].
  unfold_M.
  destruct (findInterfaceFromIfindex _ _) as [name|] eqn:Hif; [|done].
  apply findInterfaceFromIfindex_Some in Hif.
  unfold shouldProcessHelloPacket.
  destruct (Z.gtb_spec (seriesCount rx) (kMaxAllowedPps env)) as [|Hrate];
    [done|].
  cbn [negb].
  destruct (Z.geb_spec (bytesRead rx) 0) as [Hpos|Hneg]; cbn [andb negb];
    [|done].
  destruct (Z.gtb_spec (bytesRead rx) kMinIpv6Mtu) as [|Hsize]; [done|].
  destruct (readThriftObjStr env (buf rx)) as [p|] eqn:Hread; [|done].
  cbn. intros [= <- <- <-]. repeat split; try done; lia.
Qed.

Lemma filter_singleton {A} (P : A → Prop) `{∀ x, Decision (P x)}
    (l : list A) (a : A) :
  NoDup l →
  (filter P l = [a] ↔ a ∈ l ∧ P a ∧ ∀ b, b ∈ l → P b → b = a).
Proof.
  intros Hnd. split.
  - intros Hf.
    assert (∀ b, b ∈ filter P l ↔ b = a) as Hin
      by (intros b; rewrite Hf; apply list_elem_of_singleton).
    setoid_rewrite list_elem_of_filter in Hin.
    destruct (proj2 (Hin a) eq_refl) as [HP Ha].
    split; [done|]. split; [done|]. intros b Hb HPb. by apply Hin.
  - intros (Ha & HP & Huniq).
    assert (NoDup (filter P l)) as Hndf by (by apply NoDup_filter).
    assert (a ∈ filter P l) as Haf by (by apply list_elem_of_filter).
    assert (∀ b, b ∈ filter P l → b = a) as Hall.
    { intros b [HPb Hb]%list_elem_of_filter. by apply Huniq. }
    destruct (filter P l) as [|x [|y rest]].
    + by apply elem_of_nil in Haf.
    + f_equal. apply Hall. by left.
    + exfalso. apply NoDup_cons in Hndf as [Hx _]. apply Hx.
      rewrite (Hall x), (Hall y); [by left | by right; left | by left].
Qed.

End ReceptionFacts.

Section ReceptionWitness.
Import StateExn Spark.

Lemma parsePacket_accepts_witness :
  let rx := mkReceived 120 10000 "fe80::2" 255 2000 "hello-8" 3 in
  (parsePacket SparkScenario.env_wire rx SparkScenario.st1).1
  = Returned (Some (SparkScenario.hello SparkScenario.node2 8 0 0 0,
                    "iface1", 2000)) ∧
  kSparkHopLimit ≤ hopLimit rx ∧ 0 ≤ bytesRead rx ≤ kMinIpv6Mtu.
Proof.
  intros rx.
  assert ((parsePacket SparkScenario.env_wire rx SparkScenario.st1).1
          = Returned (Some (SparkScenario.hello SparkScenario.node2 8 0 0 0,
                            "iface1", 2000))) as Hparse
    by (vm_compute; reflexivity).
  split; [exact Hparse|].
  destruct (parsePacket_accepts SparkScenario.env_wire rx SparkScenario.st1
              _ _ _ Hparse) as (Hhop & _ & _ & Hsize & _).
  exact (conj Hhop Hsize).
Defined.

(** X12: When this node and the neighbor both announce areas, [findCommonArea]
    returns an area exactly when it is the only area of this node that the
    neighbor announces too; this node's areas are a set. *)
Theorem findCommonArea_unique (cfg : Config) (areas : list string)
    (adjAreas : gset string) (nodeName_ area : string) (st : SparkState) :
  areas_ cfg = Some areas → NoDup areas →
  ((findCommonArea cfg (Some adjAreas) nodeName_ st).1
   = Returned (Some (Some area)) ↔
   area ∈ areas ∧ area ∈ adjAreas ∧
   ∀ other, other ∈ areas → other ∈ adjAreas → other = area).
Proof.
  intros Hareas Hnd. unfold findCommonArea. rewrite Hareas.
  rewrite <- (filter_singleton (λ a, a ∈ adjAreas) areas area Hnd).
  unfold_M.
  destruct (filter _ areas) as [|x [|y rest]]; cbn.
  - split; done.
  - split; [by intros [= ->] | by intros [= ->]].
  - split; done.
Qed.

Lemma findCommonArea_unique_witness :
  (findCommonArea SparkScenario.cfg_areas (Some {[ "a2"; "a3" ]}) "node-2"
     SparkScenario.st1).1
  = Returned (Some (Some "a2")).
Proof.
  apply (findCommonArea_unique SparkScenario.cfg_areas ["a1"; "a2"]).
  - reflexivity.
  - apply (bool_decide_unpack _). by vm_compute.
  - split; [apply (bool_decide_unpack _); by vm_compute|].
    split; [apply (bool_decide_unpack _); by vm_compute|].
    intros other Hin Hadj.
    apply elem_of_cons in Hin as [-> | Hin].
    + exfalso. revert Hadj. apply (proj1 (bool_decide_eq_false _)).
      by vm_compute.
    + by apply list_elem_of_singleton in Hin.
Defined.

End ReceptionWitness.

(* ===================================================================== *)
(** * Computations that keep a relation between states                    *)
(* ===================================================================== *)

Section HoldsFacts.
Import StateExn.
Context {S : Type} (P : S → Prop) (R : S → S → Prop).
Context `{!Reflexive R, !Transitive R}.

Lemma holds_ret {A} (a : A) : holds P R (ret a).
Proof. by intros st HP. Qed.

Lemma holds_throw {A} (what : string) : holds P R (throw (A := A) what).
Proof. by intros st HP. Qed.

Lemma holds_get : holds P R get.
Proof. by intros st HP. Qed.

Lemma holds_at {V} (m : gmap string V) (key : string) : holds P R (at_ m key).
Proof. intros st HP. unfold at_. by destruct (m !! key). Qed.

Lemma holds_modify (f : S → S) :
  (∀ st, P st → R st (f st) ∧ P (f st)) → holds P R (modify f).
Proof. intros Hf st HP. by apply Hf. Qed.

Lemma holds_bind {A B} (m : M S A) (k : A → M S B) :
  holds P R m → (∀ a, holds P R (k a)) → holds P R (bind m k).
Proof.
  intros Hm Hk st HP. destruct (Hm st HP) as [HR HP']. unfold bind.
  destruct (m st) as [[a|what] st1]; cbn in *; [|done].
  destruct (Hk a st1 HP') as [HR' HP'']. split; [by etrans | done].
Qed.

(** After [get], the continuation runs from the state it was given. *)
Lemma holds_get_bind {B} (k : S → M S B) :
  (∀ st, P st → R st (k st st).2 ∧ P (k st st).2) → holds P R (bind get k).
Proof. intros Hk st HP. by apply Hk. Qed.

(** The same, for a continuation that needs no more of the state than
    [P]. *)
Lemma holds_get_bind_pre {B} (k : S → M S B) :
  (∀ a, P a → holds P R (k a)) → holds P R (bind get k).
Proof. intros Hk st HP. by apply (Hk st HP). Qed.

End HoldsFacts.

(* ===================================================================== *)
(** * Spark: the labels of the tracked neighbors                           *)
(* ===================================================================== *)

Section LabelInvariant.
Import StateExn SparkFsm Spark.

#[local] Instance labels_step_refl : Reflexive labels_step.
Proof. by intros st Hinv. Qed.

#[local] Instance labels_step_trans : Transitive labels_step.
Proof. intros st1 st2 st3 H12 H23 Hinv. auto. Qed.

(** Lookups in the two-level maps of neighbors after an update. *)
Lemma lookup2_alter {V} (f : V → V) (ifName_ name i n : string)
    (m : gmap string (gmap string V)) :
  alter (alter f name) ifName_ m !! i ≫= (.!! n)
  = if decide (i = ifName_ ∧ n = name) then f <$> (m !! i ≫= (.!! n))
    else m !! i ≫= (.!! n).
Proof.
  rewrite lookup_alter.
  destruct (decide (ifName_ = i)) as [->|Hi].
  - destruct (m !! i) as [ifN|]; cbn; [|by destruct (decide _)].
    rewrite lookup_alter.
    destruct (decide (name = n)) as [->|Hn].
    + by rewrite decide_True.
    + rewrite decide_False; [done|]. by intros [_ ->].
  - rewrite decide_False; [done|]. by intros [-> _].
Qed.

Lemma lookup2_insert {V} (x : V) (ifName_ name i n : string)
    (ifN : gmap string V) (m : gmap string (gmap string V)) :
  <[ifName_ := <[name := x]> ifN]> m !! i ≫= (.!! n)
  = if decide (i = ifName_) then
      (if decide (n = name) then Some x else ifN !! n)
    else m !! i ≫= (.!! n).
Proof.
  rewrite lookup_insert.
  destruct (decide (ifName_ = i)) as [->|Hi].
  - rewrite decide_True by done. cbn. rewrite lookup_insert.
    by destruct (decide (name = n)) as [->|Hn];
      [rewrite decide_True | rewrite decide_False].
  - by rewrite decide_False.
Qed.

Lemma lookup2_delete {V} (ifName_ name i n : string) (ifN : gmap string V)
    (m : gmap string (gmap string V)) :
  <[ifName_ := delete name ifN]> m !! i ≫= (.!! n)
  = if decide (i = ifName_) then
      (if decide (n = name) then None else ifN !! n)
    else m !! i ≫= (.!! n).
Proof.
  rewrite lookup_insert.
  destruct (decide (ifName_ = i)) as [->|Hi].
  - rewrite decide_True by done. cbn. rewrite lookup_delete.
    by destruct (decide (name = n)) as [->|Hn];
      [rewrite decide_True | rewrite decide_False].
  - by rewrite decide_False.
Qed.

(** The invariant depends on the labels in the slots and on the allocated
    labels only. *)
Lemma labels_inv_same (st st' : SparkState) :
  (∀ k i n, label_at st' k i n = label_at st k i n) →
  allocatedLabels_ st ⊆ allocatedLabels_ st' →
  labels_inv st → labels_inv st'.
Proof.
  intros Hsame Hsub Hinv k i n l Hl. rewrite Hsame in Hl.
  destruct (Hinv k i n l Hl) as [Hin Huniq]. split; [by apply Hsub|].
  intros k' i' n' Hl'. rewrite Hsame in Hl'. by apply Huniq.
Qed.

(** A neighbor enters a free slot with a label that was not allocated. *)
Lemma labels_inv_insert (st st' : SparkState) (k0 : bool) (i0 n0 : string)
    (l : Z) :
  allocatedLabels_ st ⊆ allocatedLabels_ st' →
  l ∈ allocatedLabels_ st' → l ∉ allocatedLabels_ st →
  label_at st' k0 i0 n0 = Some l →
  (∀ k i n, (k, i, n) ≠ (k0, i0, n0) →
            label_at st' k i n = label_at st k i n) →
  labels_inv st → labels_inv st'.
Proof.
  intros Hsub Hl Hfresh Hslot Hother Hinv k i n l' Hl'.
  destruct (decide ((k, i, n) = (k0, i0, n0))) as [[= -> -> ->]|Hne].
  - rewrite Hslot in Hl'. injection Hl' as <-. split; [done|].
    intros k' i' n' Hl'.
    destruct (decide ((k', i', n') = (k0, i0, n0))) as [|Hne']; [done|].
    rewrite Hother in Hl' by done. by destruct (Hinv _ _ _ _ Hl').
  - rewrite Hother in Hl' by done.
    destruct (Hinv _ _ _ _ Hl') as [Hin Huniq]. split; [by apply Hsub|].
    intros k' i' n' Hl''.
    destruct (decide ((k', i', n') = (k0, i0, n0))) as [[= -> -> ->]|Hne'].
    + rewrite Hslot in Hl''. by injection Hl'' as <-.
    + rewrite Hother in Hl'' by done. by apply Huniq.
Qed.

(** A neighbor leaves its slot, and its label is released. *)
Lemma labels_inv_remove (st st' : SparkState) (k0 : bool) (i0 n0 : string)
    (l : Z) :
  allocatedLabels_ st' = allocatedLabels_ st ∖ {[l]} →
  label_at st k0 i0 n0 = Some l →
  label_at st' k0 i0 n0 = None →
  (∀ k i n, (k, i, n) ≠ (k0, i0, n0) →
            label_at st' k i n = label_at st k i n) →
  labels_inv st → labels_inv st'.
Proof.
  intros Halloc Hslot Hgone Hother Hinv k i n l' Hl'.
  assert (∀ k i n l', label_at st' k i n = Some l' →
                      (k, i, n) ≠ (k0, i0, n0) ∧
                      label_at st k i n = Some l') as Hback.
  { intros k1 i1 n1 l1 Hl1.
    destruct (decide ((k1, i1, n1) = (k0, i0, n0))) as [[= -> -> ->]|Hne].
    - by rewrite Hgone in Hl1.
    - by rewrite Hother in Hl1. }
  destruct (Hback _ _ _ _ Hl') as [Hne Hl].
  destruct (Hinv _ _ _ _ Hl) as [Hin Huniq]. split.
  - rewrite Halloc. apply elem_of_difference. split; [done|].
    rewrite elem_of_singleton. intros ->.
    destruct Hne. symmetry. by apply Huniq.
  - intros k' i' n' Hl''. apply Huniq. by apply Hback.
Qed.

Local Abbreviation keeps := (holds (λ _ : SparkState, True) labels_step).

Lemma keeps_modify_same (f : SparkState → SparkState) :
  (∀ st k i n, label_at (f st) k i n = label_at st k i n) →
  (∀ st, allocatedLabels_ st ⊆ allocatedLabels_ (f st)) →
  keeps (modify f).
Proof.
  intros Hsame Hsub. apply holds_modify. intros st _. split; [|done].
  intros Hinv. by apply (labels_inv_same st).
Qed.

Lemma keeps_modifyNeighbor (ifName_ name : string)
    (f : Neighbor → Neighbor) :
  (∀ n, label (f n) = label n) → keeps (modifyNeighbor ifName_ name f).
Proof.
  intros Hf. apply keeps_modify_same; [|done].
  intros st [] i n; cbn; [done|]. rewrite lookup2_alter.
  destruct (decide _); [|done].
  destruct (neighbors_ st !! i ≫= (.!! n)); cbn; [|done]. by rewrite Hf.
Qed.

Lemma keeps_modifySpark2Neighbor (ifName_ name : string)
    (f : Spark2Neighbor → Spark2Neighbor) :
  (∀ n, s_label (f n) = s_label n) →
  keeps (modifySpark2Neighbor ifName_ name f).
Proof.
  intros Hf. apply keeps_modify_same; [|done].
  intros st [] i n; cbn; [|done]. rewrite lookup2_alter.
  destruct (decide _); [|done].
  destruct (spark2Neighbors_ st !! i ≫= (.!! n)); cbn; [|done].
  by rewrite Hf.
Qed.

Create HintDb keeps discriminated.

(** A step of a computation that keeps the labels of the neighbors; the
    functions already dealt with are in the database [keeps]. *)
Ltac keeps_step :=
  lazymatch goal with
  | |- holds _ _ (ret _) => apply holds_ret; solve [apply _]
  | |- holds _ _ (throw _) => apply holds_throw; solve [apply _]
  | |- holds _ _ (at_ _ _) => apply holds_at; solve [apply _]
  | |- holds _ _ get => apply holds_get; solve [apply _]
  | |- holds _ _ (modifyNeighbor _ _ _) =>
      apply keeps_modifyNeighbor; by intros []
  | |- holds _ _ (modifySpark2Neighbor _ _ _) =>
      apply keeps_modifySpark2Neighbor; by intros []
  | |- holds _ _ (bind _ _) =>
      (apply holds_bind; try (solve [apply _])); [|intros]
  | |- holds _ _ (match ?x with _ => _ end) => destruct x
  | |- holds _ _ (modify _) =>
      apply keeps_modify_same;
      [ by intros ? [] ? ? | intros ?; cbn; first [done | set_solver] ]
  | |- _ => solve [auto 1 with keeps nocore]
  end.

Lemma keeps_addStatValue (key : string) (value : Z) :
  keeps (addStatValue key value).
Proof. unfold addStatValue. keeps_step. Qed.

Lemma keeps_report (event : SparkNeighborEvent) : keeps (report event).
Proof. unfold report. keeps_step. Qed.

#[local] Hint Resolve keeps_addStatValue keeps_report : keeps.

Lemma keeps_sanityCheckHelloPkt (cfg : Config)
    (domain name remoteIf : string) (version : Z) :
  keeps (sanityCheckHelloPkt cfg domain name remoteIf version).
Proof. unfold sanityCheckHelloPkt. repeat keeps_step. Qed.

Lemma keeps_validateV4AddressSubnet (env : Env) (ifName_ v4 : string) :
  keeps (validateV4AddressSubnet env ifName_ v4).
Proof. unfold validateV4AddressSubnet. repeat keeps_step. Qed.

Lemma keeps_findCommonArea (cfg : Config) (adjAreas : option (gset string))
    (name : string) :
  keeps (findCommonArea cfg adjAreas name).
Proof. unfold findCommonArea. repeat keeps_step. Qed.

Lemma keeps_getNeighbor (ifName_ name : string) :
  keeps (getNeighbor ifName_ name).
Proof. unfold getNeighbor. repeat keeps_step. Qed.

Lemma keeps_getSpark2Neighbor (ifName_ name : string) :
  keeps (getSpark2Neighbor ifName_ name).
Proof. unfold getSpark2Neighbor. repeat keeps_step. Qed.

#[local] Hint Resolve keeps_sanityCheckHelloPkt keeps_validateV4AddressSubnet
  keeps_findCommonArea keeps_getNeighbor keeps_getSpark2Neighbor : keeps.

Lemma keeps_processNeighborRttChange (ifName_ : string)
    (originator : SparkNeighbor) (newRtt : Z) :
  keeps (processNeighborRttChange ifName_ originator newRtt).
Proof. unfold processNeighborRttChange. repeat keeps_step. Qed.

#[local] Hint Resolve keeps_processNeighborRttChange : keeps.

Lemma keeps_stepDetector_addValue (env : Env) (ifName_ name : string)
    (time value : Z) :
  keeps (stepDetector_addValue env ifName_ name time value).
Proof. unfold stepDetector_addValue. repeat keeps_step. Qed.

Lemma keeps_CHECK (b : bool) (what : string) : keeps (Spark.CHECK b what).
Proof. unfold Spark.CHECK. repeat keeps_step. Qed.

Lemma keeps_nextState (s : SparkNeighState) (event : SparkNeighEvent) :
  keeps (nextState s event).
Proof. unfold nextState. repeat keeps_step. Qed.

Lemma keeps_sendHandshakeMsg (env : Env) (ifName_ : string)
    (isAdjEstablished : bool) :
  keeps (sendHandshakeMsg env ifName_ isAdjEstablished).
Proof. unfold sendHandshakeMsg. repeat keeps_step. Qed.

Lemma keeps_notifySparkNeighborEvent (eventType : SparkNeighborEventType)
    (ifName_ : string) (originator : SparkNeighbor) (rttUs label : Z)
    (flood : bool) :
  keeps (notifySparkNeighborEvent eventType ifName_ originator rttUs label
           flood).
Proof. unfold notifySparkNeighborEvent. apply keeps_report. Qed.

#[local] Hint Resolve keeps_stepDetector_addValue keeps_CHECK keeps_nextState
  keeps_sendHandshakeMsg keeps_notifySparkNeighborEvent : keeps.

(** However [getNewLabelForIface] ends, it touches the allocated labels
    only, and only adds to them; a label it returns is new. *)
Lemma getNewLabelForIface_outcome (env : Env) (ifName_ : string)
    (st : SparkState) :
  let '(result, st') := getNewLabelForIface env ifName_ st in
  neighbors_ st' = neighbors_ st ∧
  spark2Neighbors_ st' = spark2Neighbors_ st ∧
  allocatedLabels_ st ⊆ allocatedLabels_ st' ∧
  ∀ l, result = Returned l →
       (l ∉ allocatedLabels_ st) ∧ l ∈ allocatedLabels_ st'.
Proof.
  destruct (interfaceDb_ st !! ifName_) as [iface|] eqn:Hif.
  - destruct (getNewLabelForIface_cases env ifName_ iface st Hif)
      as [[Hfree ->] | [_ (l & Hscan & ->)]]; cbn.
    + split; [done|]. split; [done|]. split; [set_solver|].
      intros l [= <-]. split; [done | set_solver].
    + apply scanDown_spec in Hscan as (Hfree & _ & _).
      split; [done|]. split; [done|]. split; [set_solver|].
      intros l'. destruct (l <? (kSrLocalRange env).1); [done|].
      intros [= <-]. split; [done | set_solver].
  - unfold getNewLabelForIface. unfold_M. rewrite Hif. done.
Qed.

Lemma keeps_getNewLabelForIface (env : Env) (ifName_ : string) :
  keeps (getNewLabelForIface env ifName_).
Proof.
  intros st _. split; [|done]. intros Hinv.
  pose proof (getNewLabelForIface_outcome env ifName_ st) as Hout.
  destruct (getNewLabelForIface env ifName_ st) as [result st'].
  destruct Hout as (Hn & Hs & Hsub & _). cbn.
  apply (labels_inv_same st); [|done|done].
  intros [] ? ?; unfold label_at; by rewrite ?Hn, ?Hs.
Qed.

(** A new neighbor is tracked with the label just allocated for it. *)
Lemma labels_inv_track (st st1 : SparkState) (ifName_ name : string)
    (ifNeighbors : gmap string Neighbor) (nb : Neighbor) :
  neighbors_ st !! ifName_ = Some ifNeighbors →
  ifNeighbors !! name = None →
  neighbors_ st1 = neighbors_ st →
  spark2Neighbors_ st1 = spark2Neighbors_ st →
  allocatedLabels_ st ⊆ allocatedLabels_ st1 →
  label nb ∉ allocatedLabels_ st → label nb ∈ allocatedLabels_ st1 →
  labels_inv st →
  labels_inv (set_neighbors_
                (<[ifName_ := <[name := nb]> ifNeighbors]> (neighbors_ st1))
                st1).
Proof.
  intros Hif Hnone Hn Hs Hsub Hfresh Hin.
  apply (labels_inv_insert _ _ false ifName_ name (label nb));
    try done.
  - cbn. rewrite lookup2_insert. by rewrite !decide_True.
  - intros [] i n Hne; cbn; [by rewrite Hs|].
    rewrite lookup2_insert, Hn.
    destruct (decide (i = ifName_)) as [->|]; [|done].
    rewrite Hif. cbn. destruct (decide (n = name)) as [->|]; [|done].
    by destruct Hne.
Qed.

(** A tracked neighbor is replaced by one with the same label. *)
Lemma labels_inv_replace (st : SparkState) (ifName_ name : string)
    (ifNeighbors : gmap string Neighbor) (nb nb' : Neighbor) :
  neighbors_ st !! ifName_ = Some ifNeighbors →
  ifNeighbors !! name = Some nb →
  label nb' = label nb →
  labels_inv st →
  labels_inv (set_neighbors_
                (<[ifName_ := <[name := nb']> ifNeighbors]> (neighbors_ st))
                st).
Proof.
  intros Hif Hnb Hlabel. apply labels_inv_same; [|done].
  intros [] i n; cbn; [done|]. rewrite lookup2_insert.
  destruct (decide (i = ifName_)) as [->|]; [|done].
  rewrite Hif. cbn. destruct (decide (n = name)) as [->|]; [|done].
  rewrite Hnb. cbn. by rewrite Hlabel.
Qed.

Lemma keeps_validateHelloPacket (env : Env) (cfg : Config)
    (ifName_ : string) (pkt : SparkHelloPacket) :
  keeps (validateHelloPacket env cfg ifName_ pkt).
Proof.
  unfold validateHelloPacket.
  keeps_step; [keeps_step|]. keeps_step; [keeps_step|].
  keeps_step; [repeat keeps_step|]. keeps_step; [keeps_step|].
  apply holds_get_bind. intros st _. split; [|done]. intros Hinv.
  unfold_M.
  destruct (neighbors_ st !! ifName_) as [ifNeighbors|] eqn:Hif; [|done].
  destruct (ifNeighbors !! nodeName (originator (payload pkt)))
    as [nb|] eqn:Hnb.
  - destruct (_ <=? _); cbn.
    + by eapply labels_inv_replace.
    + destruct (_ && _); cbn; by eapply labels_inv_replace.
  - pose proof (getNewLabelForIface_outcome env ifName_ st) as Hout.
    destruct (getNewLabelForIface env ifName_ st) as [[l|what] st1].
    + destruct Hout as (Hn & Hs & Hsub & Hl).
      destruct (Hl l eq_refl) as [Hfresh Hin]. cbn.
      by eapply labels_inv_track.
    + destruct Hout as (Hn & Hs & Hsub & _). cbn.
      apply (labels_inv_same st); [|done|done].
      intros [] ? ?; unfold label_at; by rewrite ?Hn, ?Hs.
Qed.

#[local] Hint Resolve keeps_getNewLabelForIface keeps_validateHelloPacket
  : keeps.

Lemma keeps_processSparkHello (env : Env) (cfg : Config)
    (pkt : SparkHelloPacket) (ifName_ : string) (myRecvTime : Z) :
  keeps (processSparkHello env cfg pkt ifName_ myRecvTime).
Proof. unfold processSparkHello. repeat keeps_step. Qed.

Lemma lookup2_alter_delete {V} (ifName_ name i n : string)
    (m : gmap string (gmap string V)) :
  alter (delete name) ifName_ m !! i ≫= (.!! n)
  = if decide (i = ifName_ ∧ n = name) then None else m !! i ≫= (.!! n).
Proof.
  rewrite lookup_alter.
  destruct (decide (ifName_ = i)) as [->|Hi].
  - destruct (m !! i) as [ifN|]; cbn; [|by destruct (decide _)].
    rewrite lookup_delete.
    destruct (decide (name = n)) as [->|Hn].
    + by rewrite decide_True.
    + rewrite decide_False; [done|]. by intros [_ ->].
  - rewrite decide_False; [done|]. by intros [-> _].
Qed.

Lemma keeps_processNeighborHoldTimeout (ifName_ name : string) :
  keeps (processNeighborHoldTimeout ifName_ name).
Proof.
  intros st _. split; [|done]. intros Hinv.
  unfold processNeighborHoldTimeout. unfold_M.
  destruct (neighbors_ st !! ifName_) as [ifNeighbors|] eqn:Hif; [|done].
  destruct (ifNeighbors !! name) as [nb|] eqn:Hnb; [|done].
  assert (label_at st false ifName_ name = Some (label nb)) as Hslot
    by (cbn; rewrite Hif; cbn; by rewrite Hnb).
  destruct (isAdjacent nb); cbn;
    apply (labels_inv_remove st _ false ifName_ name (label nb));
    try done;
    try (cbn; rewrite lookup2_delete; by rewrite !decide_True);
    (intros [] i n Hne; cbn; [done|]; rewrite lookup2_delete;
     destruct (decide (i = ifName_)) as [->|]; [|done];
     rewrite Hif; cbn; destruct (decide (n = name)) as [->|]; [|done];
     by destruct Hne).
Qed.

Lemma keeps_processNegotiateTimeout (ifName_ name : string) :
  keeps (processNegotiateTimeout ifName_ name).
Proof. unfold processNegotiateTimeout. repeat keeps_step. Qed.

Lemma keeps_processHandshakeMsg (env : Env) (cfg : Config)
    (msg : SparkHandshakeMsg) (ifName_ : string) :
  keeps (processHandshakeMsg env cfg msg ifName_).
Proof. unfold processHandshakeMsg. repeat keeps_step. Qed.

Lemma newSpark2Neighbor_outcome (domain name remoteIf : string)
    (label seqNum : Z) (st : SparkState) :
  let '(result, st') :=
    newSpark2Neighbor domain name remoteIf label seqNum st in
  st' = st ∧ ∀ nb, result = Returned nb → s_label nb = label.
Proof.
  unfold newSpark2Neighbor, Spark.CHECK. unfold_M.
  repeat (destruct (negb _); cbn; [|done]).
  split; [done|]. by intros nb [= <-].
Qed.

(** A new Spark2 neighbor is tracked with the label just allocated. *)
Lemma labels_inv_track2 (st st1 : SparkState) (ifName_ name : string)
    (ifNeighbors : gmap string Spark2Neighbor) (nb : Spark2Neighbor) :
  spark2Neighbors_ st !! ifName_ = Some ifNeighbors →
  ifNeighbors !! name = None →
  neighbors_ st1 = neighbors_ st →
  spark2Neighbors_ st1 = spark2Neighbors_ st →
  allocatedLabels_ st ⊆ allocatedLabels_ st1 →
  s_label nb ∉ allocatedLabels_ st → s_label nb ∈ allocatedLabels_ st1 →
  labels_inv st →
  labels_inv (set_spark2Neighbors_
                (<[ifName_ := <[name := nb]> ifNeighbors]>
                   (spark2Neighbors_ st1)) st1).
Proof.
  intros Hif Hnone Hn Hs Hsub Hfresh Hin.
  apply (labels_inv_insert _ _ true ifName_ name (s_label nb));
    try done.
  - cbn. rewrite lookup2_insert. by rewrite !decide_True.
  - intros [] i n Hne; cbn; [|by rewrite Hn].
    rewrite lookup2_insert, Hs.
    destruct (decide (i = ifName_)) as [->|]; [|done].
    rewrite Hif. cbn. destruct (decide (n = name)) as [->|]; [|done].
    by destruct Hne.
Qed.

Lemma keeps_processHelloMsg (env : Env) (cfg : Config)
    (msg : SparkHelloMsg) (ifName_ : string) :
  keeps (processHelloMsg env cfg msg ifName_).
Proof.
  unfold processHelloMsg.
  keeps_step; [keeps_step|]. keeps_step; [keeps_step|].
  apply holds_get_bind. intros st _. split; [|done]. intros Hinv.
  destruct (spark2Neighbors_ st !! ifName_) as [ifNeighbors|] eqn:Hif;
    [|done].
  assert (∀ A (m : M A) st, keeps m → labels_inv st → labels_inv (m st).2)
    as Hrun by (intros A m st0 Hm; by apply Hm).
  destruct (ifNeighbors !! m_nodeName msg) as [nb|] eqn:Hnb.
  - destruct (decide (state nb = WARM)) as [|_];
      [apply Hrun; [repeat keeps_step | done]|].
    destruct (decide (state nb = ESTABLISHED)) as [Hest|_];
      [|apply Hrun; [repeat keeps_step | done]].
    destruct (m_neighborInfos msg !! myNodeName_ cfg);
      [apply Hrun; [repeat keeps_step | done]|].
    unfold modifySpark2Neighbor, nextState, notifySparkNeighborEvent.
    rewrite Hest. unfold_M. cbn.
    apply (labels_inv_remove st _ true ifName_ (m_nodeName msg)
             (s_label nb)); try done.
    + cbn. rewrite Hif. cbn. by rewrite Hnb.
    + cbn. rewrite lookup2_alter_delete. by rewrite decide_True.
    + intros [] i n0 Hne; cbn; [|done].
      rewrite lookup2_alter_delete, !lookup2_alter.
      destruct (decide _) as [[-> ->]|_]; [by destruct Hne|].
      by destruct (spark2Neighbors_ st !! i ≫= (.!! n0)).
  - pose proof (getNewLabelForIface_outcome env ifName_ st) as Hout.
    unfold bind at 1.
    destruct (getNewLabelForIface env ifName_ st) as [[l|what] st1].
    + destruct Hout as (Hn & Hs & Hsub & Hl).
      destruct (Hl l eq_refl) as [Hfresh Hin].
      pose proof (newSpark2Neighbor_outcome (m_domainName msg)
                    (m_nodeName msg) (m_ifName msg) l
                    (to_uint64 (m_seqNum msg)) st1) as Hnew.
      unfold bind at 1.
      destruct (newSpark2Neighbor _ _ _ _ _ st1) as [[new|what] st2].
      * destruct Hnew as [-> Hlabel]. specialize (Hlabel new eq_refl).
        unfold bind at 1. unfold modify at 1.
        apply Hrun; [repeat keeps_step|].
        eapply labels_inv_track2; try done; by rewrite Hlabel.
      * destruct Hnew as [-> _]. cbn.
        apply (labels_inv_same st); [|done|done].
        intros [] ? ?; unfold label_at; by rewrite ?Hn, ?Hs.
    + destruct Hout as (Hn & Hs & Hsub & _). cbn.
      apply (labels_inv_same st); [|done|done].
      intros [] ? ?; unfold label_at; by rewrite ?Hn, ?Hs.
Qed.

#[local] Hint Resolve keeps_processSparkHello keeps_processHelloMsg
  keeps_processHandshakeMsg : keeps.

Lemma keeps_parsePacket (env : Env) (rx : Received) :
  keeps (parsePacket env rx).
Proof. unfold parsePacket. repeat keeps_step. Qed.

Lemma keeps_processHelloPacket (env : Env) (cfg : Config) (rx : Received) :
  keeps (processHelloPacket env cfg rx).
Proof.
  unfold processHelloPacket, processHeartbeatMsg.
  keeps_step; [apply keeps_parsePacket|]. repeat keeps_step.
Qed.

(** X13: The labels of the tracked neighbors, of Spark and of Spark2, stay
    allocated and different from each other through every received packet and
    every timeout, whether the handler returns or throws. *)
Theorem labels_stay_unique (env : Env) (cfg : Config) (st : SparkState) :
  labels_inv st →
  (∀ rx, labels_inv (processHelloPacket env cfg rx st).2) ∧
  (∀ ifName_ name,
      labels_inv (processNeighborHoldTimeout ifName_ name st).2) ∧
  (∀ ifName_ name,
      labels_inv (processNegotiateTimeout ifName_ name st).2).
Proof.
  intros Hinv. split; [|split]; intros.
  - by apply keeps_processHelloPacket.
  - by apply keeps_processNeighborHoldTimeout.
  - by apply keeps_processNegotiateTimeout.
Qed.

Lemma scenario_label_at (k : bool) (i n : string) (l : Z) :
  label_at SparkScenario.st1 k i n = Some l →
  (k, i, n, l) = (false, "iface1", "node-2", 59999).
Proof.
  destruct k; cbn.
  - destruct (decide (i = "iface1")) as [->|Hi].
    + by rewrite lookup_singleton_eq.
    + by rewrite lookup_singleton_ne.
  - destruct (decide (i = "iface1")) as [->|Hi].
    + rewrite lookup_singleton_eq. cbn.
      destruct (decide (n = "node-2")) as [->|Hn].
      * rewrite lookup_singleton_eq. cbn. by intros [= <-].
      * by rewrite lookup_singleton_ne.
    + by rewrite lookup_singleton_ne.
Qed.

Lemma scenario_labels_inv : labels_inv SparkScenario.st1.
Proof.
  intros k i n l [= -> -> -> ->]%scenario_label_at. split.
  - cbn. by apply elem_of_singleton.
  - by intros k' i' n' [= -> -> ->]%scenario_label_at.
Defined.

Lemma labels_stay_unique_witness :
  labels_inv SparkScenario.st1 ∧
  labels_inv
    (processHelloPacket SparkScenario.env_wire SparkScenario.cfg
       (mkReceived 120 10000 "fe80::2" 255 2000 "hello-8" 3)
       SparkScenario.st1).2.
Proof.
  split; [apply scenario_labels_inv|].
  exact (proj1 (labels_stay_unique SparkScenario.env_wire SparkScenario.cfg
                  SparkScenario.st1 scenario_labels_inv)
           (mkReceived 120 10000 "fe80::2" 255 2000 "hello-8" 3)).
Defined.

End LabelInvariant.

(* ===================================================================== *)
(** * Spark: a neighbor is reported up only when it has heard this node    *)
(* ===================================================================== *)

Section NeighborUp.
Import StateExn SparkFsm Spark.
Context (n : Z).

#[local] Instance no_neighbor_up_refl : Reflexive no_neighbor_up.
Proof. intros st. exists []. by split. Qed.

#[local] Instance no_neighbor_up_trans : Transitive no_neighbor_up.
Proof.
  intros st1 st2 st3 (new1 & E1 & H1) (new2 & E2 & H2).
  exists (new2 ++ new1). split.
  - by rewrite E2, E1, app_assoc.
  - by apply Forall_app.
Qed.

Local Abbreviation quiet :=
  (holds (λ st : SparkState, mySeqNum_ st = n) no_neighbor_up).

Lemma quiet_modify (f : SparkState → SparkState) :
  (∀ st, reported (f st) = reported st) →
  (∀ st, mySeqNum_ (f st) = mySeqNum_ st) →
  quiet (modify f).
Proof.
  intros Hr Hs. apply holds_modify. intros st Hn. split.
  - exists []. by rewrite Hr.
  - by rewrite Hs.
Qed.

Lemma quiet_report (event : SparkNeighborEvent) :
  eventType event ≠ NEIGHBOR_UP → quiet (report event).
Proof.
  intros Hne. apply holds_modify. intros st Hn. split; [|done].
  exists [event]. split; [done|]. by repeat constructor.
Qed.

Create HintDb quiet discriminated.

(** A step of a computation that reports no neighbor as up. *)
Ltac quiet_step :=
  lazymatch goal with
  | |- holds _ _ (ret _) => apply holds_ret; solve [apply _]
  | |- holds _ _ (throw _) => apply holds_throw; solve [apply _]
  | |- holds _ _ (at_ _ _) => apply holds_at; solve [apply _]
  | |- holds _ _ get => apply holds_get; solve [apply _]
  | |- holds _ _ (report _) => apply quiet_report; by cbn
  | |- holds _ _ (modifyNeighbor _ _ _) =>
      unfold modifyNeighbor; by apply quiet_modify
  | |- holds _ _ (modifySpark2Neighbor _ _ _) =>
      unfold modifySpark2Neighbor; by apply quiet_modify
  | |- holds _ _ (addStatValue _ _) =>
      unfold addStatValue; by apply quiet_modify
  | |- holds _ _ (bind _ _) =>
      (apply holds_bind; try (solve [apply _])); [|intros]
  | |- holds _ _ (match ?x with _ => _ end) => destruct x
  | |- holds _ _ (modify _) => by apply quiet_modify
  | |- _ => solve [auto 1 with quiet nocore]
  end.

Lemma quiet_sanityCheckHelloPkt (cfg : Config)
    (domain name remoteIf : string) (version : Z) :
  quiet (sanityCheckHelloPkt cfg domain name remoteIf version).
Proof. unfold sanityCheckHelloPkt. repeat quiet_step. Qed.

Lemma quiet_validateV4AddressSubnet (env : Env) (ifName_ v4 : string) :
  quiet (validateV4AddressSubnet env ifName_ v4).
Proof. unfold validateV4AddressSubnet. repeat quiet_step. Qed.

Lemma quiet_getNewLabelForIface (env : Env) (ifName_ : string) :
  quiet (getNewLabelForIface env ifName_).
Proof. unfold getNewLabelForIface. repeat quiet_step. Qed.

#[local] Hint Resolve quiet_sanityCheckHelloPkt quiet_validateV4AddressSubnet
  quiet_getNewLabelForIface : quiet.

Lemma quiet_validateHelloPacket (env : Env) (cfg : Config)
    (ifName_ : string) (pkt : SparkHelloPacket) :
  quiet (validateHelloPacket env cfg ifName_ pkt).
Proof. unfold validateHelloPacket. repeat quiet_step. Qed.

Lemma quiet_findCommonArea (cfg : Config) (adjAreas : option (gset string))
    (name : string) :
  quiet (findCommonArea cfg adjAreas name).
Proof. unfold findCommonArea. repeat quiet_step. Qed.

Lemma quiet_getNeighbor (ifName_ name : string) :
  quiet (getNeighbor ifName_ name).
Proof. unfold getNeighbor. repeat quiet_step. Qed.

#[local] Hint Resolve quiet_validateHelloPacket quiet_findCommonArea
  quiet_getNeighbor : quiet.

Lemma quiet_processNeighborRttChange (ifName_ : string)
    (originator : SparkNeighbor) (newRtt : Z) :
  quiet (processNeighborRttChange ifName_ originator newRtt).
Proof. unfold processNeighborRttChange. repeat quiet_step. Qed.

#[local] Hint Resolve quiet_processNeighborRttChange : quiet.

Lemma quiet_stepDetector_addValue (env : Env) (ifName_ name : string)
    (time value : Z) :
  quiet (stepDetector_addValue env ifName_ name time value).
Proof. unfold stepDetector_addValue. repeat quiet_step. Qed.

#[local] Hint Resolve quiet_stepDetector_addValue : quiet.

Lemma quiet_processSparkHello (env : Env) (cfg : Config)
    (pkt : SparkHelloPacket) (ifName_ : string) (myRecvTime : Z) :
  ¬ reflects_me cfg pkt n →
  quiet (processSparkHello env cfg pkt ifName_ myRecvTime).
Proof.
  intros Hnot.
  assert (match neighborInfos (payload pkt) !! myNodeName_ cfg with
          | Some myInfo => to_uint64 (r_seqNum myInfo) <? n
          | None => false
          end = false) as Hfound.
  { destruct (neighborInfos (payload pkt) !! myNodeName_ cfg)
      as [myInfo|] eqn:Hinfo; [|done].
    apply Z.ltb_ge. destruct (Z.le_gt_cases n (to_uint64 (r_seqNum myInfo)))
      as [|Hlt]; [done|].
    destruct Hnot. exists myInfo. split; [done | lia]. }
  unfold processSparkHello.
  repeat first
    [ match goal with
      | |- holds _ _ (bind get _) =>
          apply holds_get_bind_pre; intros ? Hseq; cbn zeta;
          rewrite ?Hseq, ?Hfound; cbn [negb andb]
      end
    | quiet_step ].
Qed.

Lemma quiet_CHECK (b : bool) (what : string) : quiet (Spark.CHECK b what).
Proof. unfold Spark.CHECK. repeat quiet_step. Qed.

Lemma quiet_nextState (s : SparkNeighState) (event : SparkNeighEvent) :
  quiet (nextState s event).
Proof. unfold nextState. repeat quiet_step. Qed.

#[local] Hint Resolve quiet_CHECK quiet_nextState : quiet.

Lemma quiet_newSpark2Neighbor (domain name remoteIf : string)
    (label seqNum : Z) :
  quiet (newSpark2Neighbor domain name remoteIf label seqNum).
Proof. unfold newSpark2Neighbor. repeat quiet_step. Qed.

Lemma quiet_sendHandshakeMsg (env : Env) (ifName_ : string)
    (isAdjEstablished : bool) :
  quiet (sendHandshakeMsg env ifName_ isAdjEstablished).
Proof. unfold sendHandshakeMsg. repeat quiet_step. Qed.

#[local] Hint Resolve quiet_newSpark2Neighbor quiet_sendHandshakeMsg : quiet.

Lemma quiet_processHelloMsg (env : Env) (cfg : Config)
    (msg : SparkHelloMsg) (ifName_ : string) :
  quiet (processHelloMsg env cfg msg ifName_).
Proof.
  unfold processHelloMsg, notifySparkNeighborEvent. repeat quiet_step.
Qed.

Lemma quiet_processNegotiateTimeout (ifName_ name : string) :
  quiet (processNegotiateTimeout ifName_ name).
Proof.
  unfold processNegotiateTimeout, getSpark2Neighbor. repeat quiet_step.
Qed.

Lemma quiet_processHandshakeMsg (env : Env) (cfg : Config)
    (msg : SparkHandshakeMsg) (ifName_ : string) (st : SparkState) :
  mySeqNum_ st = n →
  ¬ (∃ ifNeighbors nb,
       spark2Neighbors_ st !! ifName_ = Some ifNeighbors ∧
       ifNeighbors !! h_nodeName msg = Some nb ∧ state nb = NEGOTIATE) →
  no_neighbor_up st (processHandshakeMsg env cfg msg ifName_ st).2.
Proof.
  intros Hseq Hnot. unfold processHandshakeMsg.
  unfold bind at 1, get at 1. unfold bind at 1, at_ at 1.
  destruct (spark2Neighbors_ st !! ifName_) as [ifNeighbors|] eqn:Hif;
    [|reflexivity].
  unfold ret at 1. cbn beta iota.
  destruct (ifNeighbors !! h_nodeName msg) as [nb|] eqn:Hnb;
    [|reflexivity].
  rewrite (bool_decide_eq_false_2 (state nb = NEGOTIATE))
    by (intros Hneg; destruct Hnot; by exists ifNeighbors, nb).
  cbn [negb].
  assert (quiet ((if negb (isAdjEstablished msg)
                  then sendHandshakeMsg env ifName_
                         (bool_decide (state nb = ESTABLISHED))
                  else ret tt) ;; ret tt)) as Hquiet
    by (repeat quiet_step).
  by apply Hquiet.
Qed.

End NeighborUp.

Section NeighborUpTheorems.
Import StateExn SparkFsm Spark.

(** X14: A hello processed the old Spark way reports no neighbor as up unless
    it reflects this node with a sequence number below the one this node sends
    next: adjacency is declared only with a neighbor that has heard this node. *)
Theorem neighbor_up_needs_reflection (env : Env) (cfg : Config)
    (pkt : SparkHelloPacket) (ifName_ : string) (myRecvTime : Z)
    (st : SparkState) :
  ¬ reflects_me cfg pkt (mySeqNum_ st) →
  no_neighbor_up st (processSparkHello env cfg pkt ifName_ myRecvTime st).2.
Proof.
  intros Hnot.
  by apply (quiet_processSparkHello (mySeqNum_ st) env cfg pkt ifName_
              myRecvTime Hnot).
Qed.

Lemma neighbor_up_needs_reflection_witness :
  no_neighbor_up SparkScenario.st1
    (processSparkHello SparkScenario.env SparkScenario.cfg
       (SparkScenario.hello_unheard SparkScenario.node2 8) "iface1" 2000
       SparkScenario.st1).2.
Proof.
  apply (neighbor_up_needs_reflection SparkScenario.env SparkScenario.cfg).
  intros (myInfo & Hinfo & _). by cbn in Hinfo.
Defined.

(** X15: In Spark2 a neighbor is reported up only by a handshake received while
    the neighbor is in NEGOTIATE: a hello never reports a neighbor as up, nor
    does the negotiate timeout, nor a handshake from a neighbor in another
    state. *)
Theorem spark2_up_needs_negotiate (env : Env) (cfg : Config)
    (ifName_ : string) (st : SparkState) :
  (∀ msg, no_neighbor_up st (processHelloMsg env cfg msg ifName_ st).2) ∧
  (∀ name, no_neighbor_up st (processNegotiateTimeout ifName_ name st).2) ∧
  (∀ msg,
     ¬ (∃ ifNeighbors nb,
          spark2Neighbors_ st !! ifName_ = Some ifNeighbors ∧
          ifNeighbors !! h_nodeName msg = Some nb ∧ state nb = NEGOTIATE) →
     no_neighbor_up st (processHandshakeMsg env cfg msg ifName_ st).2).
Proof.
  split; [|split].
  - intros msg.
    by apply (quiet_processHelloMsg (mySeqNum_ st) env cfg msg ifName_).
  - intros name.
    by apply (quiet_processNegotiateTimeout (mySeqNum_ st) ifName_ name).
  - intros msg Hnot. by apply (quiet_processHandshakeMsg (mySeqNum_ st)).
Qed.

Lemma spark2_up_needs_negotiate_witness :
  no_neighbor_up SparkScenario.st1
    (processHandshakeMsg SparkScenario.env SparkScenario.cfg
       (mkSparkHandshakeMsg "node-2" false 5000 30000 "fe80::2"
          "192.168.0.2" 2018 60001 60002)
       "iface1" SparkScenario.st1).2.
Proof.
  apply (spark2_up_needs_negotiate SparkScenario.env SparkScenario.cfg
           "iface1" SparkScenario.st1).
  intros (ifNeighbors & nb & Hif & Hnb & _).
  change (({[ "iface1" := ∅ ]} : gmap string (gmap string Spark2Neighbor))
          !! "iface1" = Some ifNeighbors) in Hif.
  rewrite lookup_singleton_eq in Hif. injection Hif as <-. done.
Defined.

End NeighborUpTheorems.

(* ===================================================================== *)
(** * Spark2: how a neighbor becomes established                           *)
(* ===================================================================== *)

Section Spark2Handlers.
Import StateExn SparkFsm Spark.
Context (env : Env) (cfg : Config).

Lemma alter2_insert {V} (f : V → V) (ifName_ name : string)
    (ifNeighbors : gmap string V) (nb : V)
    (m : gmap string (gmap string V)) :
  m !! ifName_ = Some ifNeighbors → ifNeighbors !! name = Some nb →
  alter (alter f name) ifName_ m
  = <[ifName_ := <[name := f nb]> ifNeighbors]> m.
Proof.
  intros Hif Hnb. apply map_eq. intros i.
  rewrite lookup_alter, lookup_insert.
  destruct (decide (ifName_ = i)) as [<-|]; [|done].
  rewrite Hif. cbn. f_equal. apply map_eq. intros j.
  rewrite lookup_alter, lookup_insert.
  destruct (decide (name = j)) as [<-|]; [|done]. by rewrite Hnb.
Qed.

Lemma alter2_insert_insert {V} (f : V → V) (ifName_ name : string)
    (ifNeighbors : gmap string V) (x : V)
    (m : gmap string (gmap string V)) :
  alter (alter f name) ifName_ (<[ifName_ := <[name := x]> ifNeighbors]> m)
  = <[ifName_ := <[name := f x]> ifNeighbors]> m.
Proof. by rewrite !alter_insert_eq. Qed.

(** The first hello of a neighbor: it is tracked in WARM with the label
    preferred for the interface. *)
Lemma processHelloMsg_new (msg : SparkHelloMsg) (ifName_ : string)
    (iface : Interface) (ifNeighbors : gmap string Spark2Neighbor)
    (st : SparkState) :
  let label := (kSrLocalRange env).1 + ifIndex iface in
  let nb := mkSpark2Neighbor (m_domainName msg) (m_nodeName msg)
              (m_ifName msg) label (to_uint64 (m_seqNum msg)) WARM
              false false "" "" 0 0 0 0 0 0 in
  ¬ invalid_hello cfg (m_domainName msg) (m_nodeName msg) (m_version msg) →
  m_domainName msg ≠ "" → m_nodeName msg ≠ "" → m_ifName msg ≠ "" →
  interfaceDb_ st !! ifName_ = Some iface →
  spark2Neighbors_ st !! ifName_ = Some ifNeighbors →
  ifNeighbors !! m_nodeName msg = None →
  label ∉ allocatedLabels_ st →
  processHelloMsg env cfg msg ifName_ st
  = (Returned tt,
     set_spark2Neighbors_
       (<[ifName_ := <[m_nodeName msg := nb]> ifNeighbors]>
          (spark2Neighbors_ st))
       (set_allocatedLabels_ ({[label]} ∪ allocatedLabels_ st) st)).
Proof.
  intros label nb Hvalid Hdom Hname Hrif Hiface Hif Hnb Hfree.
  unfold processHelloMsg. unfold bind at 1.
  rewrite (sanityCheckHelloPkt_valid cfg _ _ _ _ st Hvalid).
  destruct (decide (SUCCESS = FAILURE)) as [|_]; [done|].
  unfold bind at 1, get at 1. rewrite Hif, Hnb.
  unfold bind at 1.
  rewrite (getNewLabelForIface_preferred env ifName_ iface st Hiface Hfree).
  fold label. unfold newSpark2Neighbor, Spark.CHECK, modifySpark2Neighbor,
    nextState.
  rewrite !bool_decide_eq_false_2 by done. unfold_M. cbn.
  rewrite (bool_decide_eq_true_2 (IDLE = IDLE)) by done. cbn.
  unfold set_spark2Neighbors_. cbn. by rewrite !alter_insert_eq.
Qed.

(** A hello from a neighbor in WARM that reflects this node promotes the
    neighbor to NEGOTIATE and starts its two timers. *)
Lemma processHelloMsg_warm (msg : SparkHelloMsg) (ifName_ : string)
    (ifNeighbors : gmap string Spark2Neighbor) (nb : Spark2Neighbor)
    (myInfo : ReflectedNeighborInfo) (st : SparkState) :
  ¬ invalid_hello cfg (m_domainName msg) (m_nodeName msg) (m_version msg) →
  spark2Neighbors_ st !! ifName_ = Some ifNeighbors →
  ifNeighbors !! m_nodeName msg = Some nb →
  state nb = WARM →
  m_neighborInfos msg !! myNodeName_ cfg = Some myInfo →
  to_uint64 (r_seqNum myInfo) < mySeqNum_ st →
  processHelloMsg env cfg msg ifName_ st
  = (Returned tt,
     set_spark2Neighbors_
       (<[ifName_ :=
            <[m_nodeName msg :=
                set_state NEGOTIATE
                  (set_timers true true
                     (set_s_seqNum (to_uint64 (m_seqNum msg)) nb))]>
              ifNeighbors]>
          (spark2Neighbors_ st)) st).
Proof.
  intros Hvalid Hif Hnb Hwarm Hinfo Hseq.
  unfold processHelloMsg. unfold bind at 1.
  rewrite (sanityCheckHelloPkt_valid cfg _ _ _ _ st Hvalid).
  destruct (decide (SUCCESS = FAILURE)) as [|_]; [done|].
  unfold bind at 1, get at 1. rewrite Hif, Hnb, Hinfo.
  destruct (decide (state nb = WARM)) as [_|]; [|done].
  destruct (Z.geb_spec (to_uint64 (r_seqNum myInfo)) (mySeqNum_ st));
    [lia|].
  unfold modifySpark2Neighbor, nextState. rewrite Hwarm. unfold_M. cbn.
  unfold set_spark2Neighbors_. cbn. f_equal. f_equal.
  rewrite (alter2_insert _ _ _ _ _ _ Hif Hnb).
  by rewrite !alter2_insert_insert.
Qed.

Lemma validateV4_accepted_any {A} (st : SparkState) (ifName_ v4Addr : string)
    (k : PacketValidationResult → M A) :
  v4_accepted env cfg st ifName_ v4Addr →
  bind (if enableV4_ cfg && enableSubnetValidation_ cfg
        then validateV4AddressSubnet env ifName_ v4Addr
        else ret SUCCESS) k st
  = k SUCCESS st.
Proof.
  intros [-> | (iface & Hif & Hvalid & Hsub)]; [done|].
  destruct (enableV4_ cfg && enableSubnetValidation_ cfg); [|done].
  unfold validateV4AddressSubnet. unfold_M. by rewrite Hif, Hvalid, Hsub.
Qed.

(** [sendHandshakeMsg] on a tracked interface returns, and touches only
    the log of sent handshakes and the counters. *)
Lemma sendHandshakeMsg_outcome (ifName_ : string) (isAdjEstablished : bool)
    (iface : Interface) (st : SparkState) :
  interfaceDb_ st !! ifName_ = Some iface →
  ∃ st', sendHandshakeMsg env ifName_ isAdjEstablished st = (Returned tt, st')
         ∧ mySeqNum_ st' = mySeqNum_ st
         ∧ interfaceDb_ st' = interfaceDb_ st
         ∧ neighbors_ st' = neighbors_ st
         ∧ spark2Neighbors_ st' = spark2Neighbors_ st
         ∧ allocatedLabels_ st' = allocatedLabels_ st
         ∧ reported st' = reported st.
Proof.
  intros Hif. unfold sendHandshakeMsg. unfold_M. rewrite Hif.
  destruct (handshakeBytesSent env ifName_ isAdjEstablished);
    eexists; by repeat split.
Qed.

(** A handshake from a neighbor in NEGOTIATE, on a tracked interface and
    with an accepted v4 address: the neighbor is ESTABLISHED with the
    negotiated parameters, its timers are reset and it is reported up. *)
Lemma processHandshakeMsg_negotiate (msg : SparkHandshakeMsg)
    (ifName_ : string) (iface : Interface)
    (ifNeighbors : gmap string Spark2Neighbor) (nb : Spark2Neighbor)
    (st : SparkState) :
  let nb' := set_timers false false
               (set_state ESTABLISHED (set_negotiated cfg msg nb)) in
  interfaceDb_ st !! ifName_ = Some iface →
  spark2Neighbors_ st !! ifName_ = Some ifNeighbors →
  ifNeighbors !! h_nodeName msg = Some nb →
  state nb = NEGOTIATE →
  v4_accepted env cfg st ifName_ (h_transportAddressV4 msg) →
  ∃ st', processHandshakeMsg env cfg msg ifName_ st = (Returned tt, st') ∧
         spark2Neighbors_ st'
         = <[ifName_ := <[h_nodeName msg := nb']> ifNeighbors]>
             (spark2Neighbors_ st) ∧
         allocatedLabels_ st' = allocatedLabels_ st ∧
         reported st'
         = mkSparkNeighborEvent NEIGHBOR_UP ifName_ (toThrift env nb')
             (s_rtt nb') (s_label nb') true None :: reported st.
Proof.
  intros nb' Hiface Hif Hnb Hneg Hv4.
  unfold processHandshakeMsg.
  unfold bind at 1, get at 1. unfold bind at 1, at_ at 1. rewrite Hif.
  unfold ret at 1. cbn beta iota. rewrite Hnb.
  rewrite (bool_decide_eq_true_2 (state nb = NEGOTIATE)) by done.
  cbn [negb].
  assert (∃ st1, (if negb (isAdjEstablished msg)
                  then sendHandshakeMsg env ifName_
                         (bool_decide (state nb = ESTABLISHED))
                  else ret tt) st = (Returned tt, st1)
                 ∧ mySeqNum_ st1 = mySeqNum_ st
                 ∧ interfaceDb_ st1 = interfaceDb_ st
                 ∧ neighbors_ st1 = neighbors_ st
                 ∧ spark2Neighbors_ st1 = spark2Neighbors_ st
                 ∧ allocatedLabels_ st1 = allocatedLabels_ st
                 ∧ reported st1 = reported st)
    as (st1 & E1 & _ & Hdb & _ & Hs & Ha & Hr).
  { destruct (negb (isAdjEstablished msg)).
    - by eapply sendHandshakeMsg_outcome.
    - by exists st. }
  unfold bind at 1. rewrite E1.
  rewrite validateV4_accepted_any
    by (destruct Hv4 as [?|(i & ? & ?)]; [by left|];
        right; exists i; by rewrite Hdb).
  destruct (decide (SUCCESS = FAILURE)) as [|_]; [done|].
  unfold modifySpark2Neighbor, nextState, getSpark2Neighbor,
    notifySparkNeighborEvent.
  rewrite Hneg. unfold_M. cbn.
  rewrite Hs.
  rewrite (alter2_insert _ _ _ _ _ _ Hif Hnb).
  rewrite !alter2_insert_insert, !lookup_insert_eq. cbn.
  eexists. split; [reflexivity|]. cbn. by rewrite Hr.
Qed.

(** X16: Spark2 establishes an adjacency in three steps: the first hello of an
    unknown neighbor is tracked (WARM) with the label preferred for the
    interface, a hello that reflects this node with a sequence number it has
    sent promotes the neighbor (NEGOTIATE), and a handshake with an accepted v4
    address establishes it: the neighbor is ESTABLISHED with that label, both
    timers reset and the larger of the two heartbeat hold times, and exactly
    one event, NEIGHBOR_UP with the label, has been reported. *)
Theorem spark2_establishment (ifName_ : string) (iface : Interface)
    (hello1 hello2 : SparkHelloMsg) (myInfo : ReflectedNeighborInfo)
    (handshake : SparkHandshakeMsg)
    (ifNeighbors : gmap string Spark2Neighbor) (st : SparkState) :
  let name := m_nodeName hello1 in
  let label := (kSrLocalRange env).1 + ifIndex iface in
  interfaceDb_ st !! ifName_ = Some iface →
  spark2Neighbors_ st !! ifName_ = Some ifNeighbors →
  ifNeighbors !! name = None →
  label ∉ allocatedLabels_ st →
  ¬ invalid_hello cfg (m_domainName hello1) name (m_version hello1) →
  m_domainName hello1 ≠ "" → name ≠ "" → m_ifName hello1 ≠ "" →
  m_nodeName hello2 = name →
  ¬ invalid_hello cfg (m_domainName hello2) name (m_version hello2) →
  m_neighborInfos hello2 !! myNodeName_ cfg = Some myInfo →
  to_uint64 (r_seqNum myInfo) < mySeqNum_ st →
  h_nodeName handshake = name →
  v4_accepted env cfg st ifName_ (h_transportAddressV4 handshake) →
  ∃ st' nb,
    (processHelloMsg env cfg hello1 ifName_ ;;
     processHelloMsg env cfg hello2 ifName_ ;;
     processHandshakeMsg env cfg handshake ifName_) st
    = (Returned tt, st') ∧
    spark2Neighbors_ st' !! ifName_ ≫= (.!! name) = Some nb ∧
    state nb = ESTABLISHED ∧ s_label nb = label ∧
    negotiateTimer nb = false ∧ negotiateHoldTimer nb = false ∧
    heartbeatHoldTime nb
    = Z.max (h_holdTime handshake) (myHeartbeatHoldTime_ cfg) ∧
    allocatedLabels_ st' = {[label]} ∪ allocatedLabels_ st ∧
    reported st'
    = mkSparkNeighborEvent NEIGHBOR_UP ifName_ (toThrift env nb) (s_rtt nb)
        label true None :: reported st.
Proof.
  intros name label Hiface Hif Hnone Hfree Hv1 Hdom Hname Hrif Hn2 Hv2 Hinfo
    Hseq Hn3 Hv4.
  unfold bind at 1.
  rewrite (processHelloMsg_new hello1 ifName_ iface ifNeighbors st)
    by done.
  fold name label.
  set (nb1 := mkSpark2Neighbor _ _ _ _ _ _ _ _ _ _ _ _ _ _ _ _).
  set (st1 := set_spark2Neighbors_ _ _).
  assert (spark2Neighbors_ st1 !! ifName_
          = Some (<[name := nb1]> ifNeighbors)) as Hif1
    by (subst st1; cbn; by rewrite lookup_insert_eq).
  unfold bind at 1.
  rewrite (processHelloMsg_warm hello2 ifName_ (<[name := nb1]> ifNeighbors)
             nb1 myInfo st1);
    [|by rewrite Hn2|done|by rewrite Hn2, lookup_insert_eq|done|done|done].
  rewrite Hn2.
  set (nb2 := set_state NEGOTIATE _).
  set (st2 := set_spark2Neighbors_ _ st1).
  destruct (processHandshakeMsg_negotiate handshake ifName_ iface
              (<[name := nb2]> (<[name := nb1]> ifNeighbors)) nb2 st2)
    as (st3 & E3 & Hs3 & Ha3 & Hr3); try done.
  - subst st2. cbn. by rewrite lookup_insert_eq.
  - by rewrite Hn3, lookup_insert_eq.
  - rewrite E3. rewrite Hn3 in Hs3. revert Hs3 Hr3.
    set (nb3 := set_timers false false _). intros Hs3 Hr3.
    exists st3, nb3. split; [done|]. split.
    { rewrite Hs3, lookup_insert_eq. cbn. by rewrite lookup_insert_eq. }
    repeat split; try done.
Qed.

(** X17: The negotiate hold timer of a neighbor in NEGOTIATE takes it back to
    WARM and resets the negotiate timer; for a neighbor in any other state the
    process aborts on a failed CHECK, the state untouched. *)
Theorem processNegotiateTimeout_back_to_warm (ifName_ name : string)
    (ifNeighbors : gmap string Spark2Neighbor) (nb : Spark2Neighbor)
    (st : SparkState) :
  spark2Neighbors_ st !! ifName_ = Some ifNeighbors →
  ifNeighbors !! name = Some nb →
  (state nb = NEGOTIATE →
   processNegotiateTimeout ifName_ name st
   = (Returned tt,
      set_spark2Neighbors_
        (<[ifName_ :=
             <[name := set_timers false (negotiateHoldTimer nb)
                         (set_state WARM nb)]> ifNeighbors]>
           (spark2Neighbors_ st)) st)) ∧
  (state nb ≠ NEGOTIATE →
   ∃ what, processNegotiateTimeout ifName_ name st = (Thrown what, st)).
Proof.
  intros Hif Hnb. unfold processNegotiateTimeout, getSpark2Neighbor,
    modifySpark2Neighbor, nextState, Spark.CHECK.
  split.
  - intros Hneg. unfold_M. rewrite Hif, Hnb, Hneg.
    rewrite (bool_decide_eq_true_2 (NEGOTIATE = NEGOTIATE)) by done. cbn.
    unfold set_spark2Neighbors_. cbn. f_equal. f_equal.
    rewrite (alter2_insert _ _ _ _ _ _ Hif Hnb).
    by rewrite alter2_insert_insert.
  - intros Hneg. unfold_M. rewrite Hif, Hnb.
    rewrite (bool_decide_eq_false_2 (state nb = NEGOTIATE)) by done.
    by eexists.
Qed.

(** X18: A hello from an established neighbor that no longer lists this node
    drops the adjacency: the neighbor is reported down with its label, the
    label is released and the neighbor is forgotten. *)
Theorem processHelloMsg_drops_adjacency (msg : SparkHelloMsg)
    (ifName_ : string) (ifNeighbors : gmap string Spark2Neighbor)
    (nb : Spark2Neighbor) (st : SparkState) :
  ¬ invalid_hello cfg (m_domainName msg) (m_nodeName msg) (m_version msg) →
  spark2Neighbors_ st !! ifName_ = Some ifNeighbors →
  ifNeighbors !! m_nodeName msg = Some nb →
  state nb = ESTABLISHED →
  m_neighborInfos msg !! myNodeName_ cfg = None →
  ∃ st', processHelloMsg env cfg msg ifName_ st = (Returned tt, st') ∧
         spark2Neighbors_ st'
         = <[ifName_ := delete (m_nodeName msg) ifNeighbors]>
             (spark2Neighbors_ st) ∧
         allocatedLabels_ st' = allocatedLabels_ st ∖ {[s_label nb]} ∧
         reported st'
         = mkSparkNeighborEvent NEIGHBOR_DOWN ifName_ (toThrift env nb)
             (s_rtt nb) (s_label nb) true None :: reported st.
Proof.
  intros Hvalid Hif Hnb Hest Hinfo.
  unfold processHelloMsg. unfold bind at 1.
  rewrite (sanityCheckHelloPkt_valid cfg _ _ _ _ st Hvalid).
  destruct (decide (SUCCESS = FAILURE)) as [|_]; [done|].
  unfold bind at 1, get at 1. rewrite Hif, Hnb, Hinfo.
  destruct (decide (state nb = WARM)) as [Hw|_]; [congruence|].
  destruct (decide (state nb = ESTABLISHED)) as [_|]; [|done].
  unfold modifySpark2Neighbor, nextState, notifySparkNeighborEvent.
  rewrite Hest. unfold_M. cbn.
  eexists. split; [reflexivity|]. cbn. split; [|done].
  rewrite (alter2_insert _ _ _ _ _ _ Hif Hnb).
  rewrite alter2_insert_insert, alter_insert_eq.
  by rewrite delete_insert_eq.
Qed.

End Spark2Handlers.

Section Spark2Witness.
Import StateExn SparkFsm Spark.

Lemma spark2_establishment_witness :
  let hello1 := mkSparkHelloMsg "terragraph" "node-2" "iface2" 1 ∅
                  20191122 true in
  let hello2 := mkSparkHelloMsg "terragraph" "node-2" "iface2" 2
                  {[ "node-1" := mkReflectedNeighborInfo 4 0 0 ]}
                  20191122 false in
  let handshake := mkSparkHandshakeMsg "node-2" false 7000 30000 "fe80::2"
                     "192.168.0.2" 2018 60001 60002 in
  ∃ st' nb,
    (processHelloMsg SparkScenario.env SparkScenario.cfg hello1 "iface1" ;;
     processHelloMsg SparkScenario.env SparkScenario.cfg hello2 "iface1" ;;
     processHandshakeMsg SparkScenario.env SparkScenario.cfg handshake
       "iface1") SparkScenario.st0
    = (Returned tt, st') ∧
    spark2Neighbors_ st' !! "iface1" ≫= (.!! "node-2") = Some nb ∧
    state nb = ESTABLISHED ∧ s_label nb = 60000 ∧
    heartbeatHoldTime nb = 7000.
Proof.
  intros hello1 hello2 handshake.
  destruct (spark2_establishment SparkScenario.env SparkScenario.cfg
              "iface1" SparkScenario.iface1 hello1 hello2
              (mkReflectedNeighborInfo 4 0 0) handshake ∅ SparkScenario.st0)
    as (st' & nb & E & Hnb & Hstate & Hlabel & _ & _ & Hhold & _).
  - reflexivity.
  - reflexivity.
  - reflexivity.
  - apply (proj1 (bool_decide_eq_false _)). by vm_compute.
  - intros [H|[H|H]]; [done | by destruct H | vm_compute in H; done].
  - done.
  - done.
  - done.
  - reflexivity.
  - intros [H|[H|H]]; [done | by destruct H | vm_compute in H; done].
  - reflexivity.
  - by vm_compute.
  - reflexivity.
  - by left.
  - exists st', nb. by repeat split.
Defined.

Lemma processNegotiateTimeout_back_to_warm_witness :
  let nb := mkSpark2Neighbor "terragraph" "node-2" "iface2" 60000 2
              NEGOTIATE true true "" "" 0 0 0 0 0 0 in
  let st := set_spark2Neighbors_ {[ "iface1" := {[ "node-2" := nb ]} ]}
              SparkScenario.st0 in
  (processNegotiateTimeout "iface1" "node-2" st).1 = Returned tt.
Proof.
  intros nb st.
  destruct (processNegotiateTimeout_back_to_warm "iface1" "node-2"
              {[ "node-2" := nb ]} nb st) as [Hneg _].
  - reflexivity.
  - reflexivity.
  - by rewrite Hneg.
Defined.

Lemma processHelloMsg_drops_adjacency_witness :
  let nb := mkSpark2Neighbor "terragraph" "node-2" "iface2" 60000 2
              ESTABLISHED false false "" "" 0 0 0 0 0 0 in
  let st := set_allocatedLabels_ {[ 60000 ]}
              (set_spark2Neighbors_ {[ "iface1" := {[ "node-2" := nb ]} ]}
                 SparkScenario.st0) in
  ∃ st', processHelloMsg SparkScenario.env SparkScenario.cfg
           (mkSparkHelloMsg "terragraph" "node-2" "iface2" 3 ∅ 20191122
              false) "iface1" st = (Returned tt, st') ∧
         allocatedLabels_ st' = {[ 60000 ]} ∖ {[ 60000 ]}.
Proof.
  intros nb st.
  destruct (processHelloMsg_drops_adjacency SparkScenario.env
              SparkScenario.cfg
              (mkSparkHelloMsg "terragraph" "node-2" "iface2" 3 ∅ 20191122
                 false) "iface1" {[ "node-2" := nb ]} nb st)
    as (st' & E & _ & Ha & _).
  - intros [H|[H|H]]; [done | by destruct H | vm_compute in H; done].
  - reflexivity.
  - reflexivity.
  - reflexivity.
  - reflexivity.
  - by exists st'.
Defined.

End Spark2Witness.

(* ===================================================================== *)
(** * The KvStore client: what a call leaves behind                        *)
(* ===================================================================== *)

Section ClientPersists.
Import StateExn KvStoreTypes KvStoreClientInternal.
Context (env : Env).

(** What follows the storing of the record in [persistKey] keeps the
    records: the backoff, the callback, the marking as pending and the
    advertising. *)
Lemma persistKey_tail_kept (key : string) (tv : Value) (b : ExponentialBackoff)
    (callback valueChange hasTtlChanged : bool) (version ttlVersion ttl_ : Z)
    (area : string) (st : ClientState) :
  kept st
    ((modify (λ st, set_backoffs_ (<[key := b]> (backoffs_ st)) st) ;;
      (if callback && valueChange
       then modify (λ st, set_callbackLog ((key, tv) :: callbackLog st) st)
       else ret tt) ;;
      (if valueChange
       then modify (λ st, set_keysToAdvertise_
              (<[area := {[key]} ∪ sub area (keysToAdvertise_ st)]>
                 (keysToAdvertise_ st)) st)
       else ret tt) ;;
      advertisePendingKeys env ;;
      scheduleTtlUpdates env key version ttlVersion ttl_ hasTtlChanged area ;;
      ret true) st).2.
Proof.
  assert (∀ (f : ClientState → ClientState),
            (∀ st, persistedKeyVals_ (f st) = persistedKeyVals_ st) →
            (∀ st, keyTtlBackoffs_ (f st) = keyTtlBackoffs_ st) →
            (∀ st a, is_Some (keysToAdvertise_ st !! a) →
                     is_Some (keysToAdvertise_ (f st) !! a)) →
            ∀ st, kept st (modify f st).2) as Hmodify.
  { intros f Hp Ht Hk st0. split.
    - intros a. cbn. rewrite Hp, Ht. repeat split; auto.
    - intros a. cbn. by rewrite Hp. }
  apply kept_bind; [by apply Hmodify|]. intros.
  apply kept_bind.
  { destruct (callback && valueChange);
      [by apply Hmodify | apply kept_refl]. }
  intros. apply kept_bind.
  { destruct valueChange; [|apply kept_refl].
    apply Hmodify; try done. intros ? ?. cbn. apply is_Some_insert. }
  intros. apply kept_bind; [apply kept_advertisePendingKeys|].
  intros. apply kept_bind; [apply kept_scheduleTtlUpdates|].
  intros. apply kept_refl.
Qed.

(** Once the record is stored, it stays. *)
Lemma persistKey_stored (key : string) (tv : Value)
    (callback valueChange hasTtlChanged : bool) (area : string)
    (st1 : ClientState) :
  sub area
    (persistedKeyVals_
       ((modify (λ st, set_persistedKeyVals_
           (<[area := <[key := tv]> (sub area (persistedKeyVals_ st))]>
              (persistedKeyVals_ st)) st) ;;
         modify (λ st, set_backoffs_
           (<[key := mkBackoff (kInitialBackoff env) (kMaxBackoff env) []]>
              (backoffs_ st)) st) ;;
         (if callback && valueChange
          then modify (λ st, set_callbackLog ((key, tv) :: callbackLog st)
                               st)
          else ret tt) ;;
         (if valueChange
          then modify (λ st, set_keysToAdvertise_
                 (<[area := {[key]} ∪ sub area (keysToAdvertise_ st)]>
                    (keysToAdvertise_ st)) st)
          else ret tt) ;;
         advertisePendingKeys env ;;
         scheduleTtlUpdates env key (version tv) (ttlVersion tv) (ttl tv)
           hasTtlChanged area ;;
         ret true) st1).2) !! key = Some tv.
Proof.
  unfold bind at 1, modify at 1.
  match goal with
  | |- context [(?m ?s).2] =>
      destruct (persistKey_tail_kept key tv
                  (mkBackoff (kInitialBackoff env) (kMaxBackoff env) [])
                  callback valueChange hasTtlChanged (version tv)
                  (ttlVersion tv) (ttl tv) area s) as [_ Hsame]
  end.
  rewrite (Hsame area). cbn. by rewrite sub_insert_eq, lookup_insert_eq.
Qed.

(** X19: After [persistKey key value ttl], whether it returns or the
    advertising throws, the client persists for the key a record with that
    value and that ttl, of positive version; it is the record that was
    persisted before, or a record of this node. The record the call starts
    from, persisted or of the store, has a value and a positive version. *)
Theorem persistKey_persists (key value_ : string) (ttl_ : Z) (area : string)
    (st : ClientState) :
  (∀ v, currentValue env st key area = Some v →
        0 < version v ∧ is_Some (value v)) →
  ∃ r, sub area (persistedKeyVals_ (persistKey env key value_ ttl_ area st).2)
         !! key = Some r ∧
       value r = Some value_ ∧ ttl r = ttl_ ∧ 0 < version r ∧
       (sub area (persistedKeyVals_ st) !! key = Some r ∨
        originatorId r = nodeId_ env).
Proof.
  intros Hcur. unfold currentValue in Hcur. unfold persistKey.
  unfold bind at 1. unfold modify at 1.
  unfold bind at 1. unfold modify at 1.
  unfold bind at 1. unfold modify at 1.
  set (st1 := set_keysToAdvertise_ _ _).
  assert (sub area (persistedKeyVals_ st1) = sub area (persistedKeyVals_ st))
    as Hp1 by (subst st1; cbn; by rewrite sub_touch).
  unfold bind at 1. unfold get at 1. rewrite Hp1.
  match goal with
  | |- context [bind _ ?k st1] => set (K := k)
  end.
  (* what follows the retrieval of the record to start from *)
  assert (∀ tv0, 0 ≤ version tv0 → is_Some (value tv0) →
                 (version tv0 = 0 →
                  value tv0 = Some value_ ∧
                  originatorId tv0 = nodeId_ env) →
                 ∃ r, sub area (persistedKeyVals_ (K (Some tv0) st1).2)
                        !! key = Some r ∧
                      value r = Some value_ ∧ ttl r = ttl_ ∧
                      0 < version r ∧ originatorId r = nodeId_ env)
    as Hgen.
  { intros tv0 Hver [stored Hval] Hzero. subst K. cbn beta iota.
    destruct (Z.eqb_spec (version tv0) 0) as [Hz|Hnz].
    - destruct (Hzero Hz) as [Hv Ho]. eexists. split.
      + apply (persistKey_stored key
                 (set_value tv0 1 (originatorId tv0) (value tv0) ttl_
                    (ttlVersion tv0))
                 (bool_decide (key ∈ keyCallbacks_ st1)) true).
      + cbn. repeat split; try done.
    - destruct (bool_decide (originatorId tv0 ≠ nodeId_ env)
                || bool_decide (value tv0 ≠ Some value_)) eqn:Hchange.
      + eexists. split.
        * apply (persistKey_stored key
                   (set_value tv0 (version tv0 + 1) (nodeId_ env)
                      (Some value_) ttl_ 0)
                   (bool_decide (key ∈ keyCallbacks_ st1)) true).
        * cbn. repeat split; try done. lia.
      + apply orb_false_iff in Hchange as [Ho Hv].
        apply bool_decide_eq_false, dec_stable in Ho.
        apply bool_decide_eq_false, dec_stable in Hv.
        eexists. split.
        * apply (persistKey_stored key
                   (set_value tv0 (version tv0) (originatorId tv0)
                      (value tv0) ttl_ (ttlVersion tv0))
                   (bool_decide (key ∈ keyCallbacks_ st1)) false).
        * cbn. repeat split; try done. lia. }
  destruct (sub area (persistedKeyVals_ st) !! key) as [p|] eqn:Ep.
  - destruct (Hcur p eq_refl) as [Hver [stored Hval]]. rewrite Hval.
    destruct (bool_decide (stored = value_) && bool_decide (ttl p = ttl_))
      eqn:Hsame.
    + apply andb_true_iff in Hsame as [Hs Ht].
      apply bool_decide_eq_true in Hs, Ht. subst stored.
      exists p. split; [|repeat split; try done; by left].
      subst K. unfold bind at 1. unfold ret at 1. cbn beta iota.
      unfold ret. cbn [snd]. by rewrite Hp1.
    + destruct (sub area (keyTtlBackoffs_ st1) !! key) as [ttlIt|].
      * destruct (Hgen (set_value p (version p) (originatorId p)
                          (Some stored) (ttl p) (ttlVersion ttlIt.1)))
          as (r & Hr & ? & ? & ? & ?);
          [cbn; lia | by eexists | cbn; intros; lia |].
        exists r. split; [exact Hr|]. repeat split; try done. by right.
      * destruct (Hgen p) as (r & Hr & ? & ? & ? & ?);
          [lia | by rewrite Hval | intros; lia |].
        exists r. split; [exact Hr|]. repeat split; try done. by right.
  - unfold bind at 1. unfold bind at 1.
    change (getKey env key area st1)
      with (Returned (kvStoreGet env (kvStoreSets st) area key), st1).
    cbn beta iota. unfold ret at 1. cbn beta iota.
    destruct (kvStoreGet env (kvStoreSets st) area key) as [v|] eqn:Eg.
    + destruct (Hcur v eq_refl) as [Hver Hval].
      destruct (Hgen v) as (r & Hr & ? & ? & ? & ?);
        [lia | done | intros; lia |].
      exists r. split; [exact Hr|]. repeat split; try done. by right.
    + destruct (Hgen (createThriftValue 0 (nodeId_ env) (Some value_) ttl_ 0
                        None))
        as (r & Hr & ? & ? & ? & ?); [done | by eexists | done |].
      exists r. split; [exact Hr|]. repeat split; try done. by right.
Qed.

End ClientPersists.

Section ClientPersistsWitness.
Import StateExn KvStoreTypes KvStoreClientInternal.

Lemma persistKey_persists_witness :
  ∃ r, sub "0"
         (persistedKeyVals_
            (persistKey ClientScenario.env "key2" "value" 1000 "0"
               ClientScenario.st0).2) !! "key2" = Some r ∧
       value r = Some "value" ∧ ttl r = 1000 ∧ 0 < version r ∧
       (sub "0" (persistedKeyVals_ ClientScenario.st0) !! "key2" = Some r ∨
        originatorId r = "node-1").
Proof.
  apply (persistKey_persists ClientScenario.env "key2" "value" 1000 "0"
           ClientScenario.st0).
  intros v Hv. by vm_compute in Hv.
Defined.

End ClientPersistsWitness.

(* ===================================================================== *)
(** * The KvStore client: one backoff per key, whatever the area           *)
(* ===================================================================== *)

Section ClientBackoffs.
Import StateExn KvStoreTypes KvStoreClientInternal.
Context (env : Env) (key other : string).

Lemma advertisePendingKey_no_backoff (area k : string)
    (acc : Z * gmap string Value * list string) (st : ClientState) :
  backoffs_ st !! key = None →
  let '(result, st') := advertisePendingKey env area k acc st in
  backoffs_ st' !! key = None ∧
  keysToAdvertise_ st' = keysToAdvertise_ st ∧
  (k = key → result = Thrown "std::out_of_range") ∧
  (∀ what, result = Thrown what → what = "std::out_of_range").
Proof.
  intros Hb. destruct acc as [[timeout keyVals] keys].
  unfold advertisePendingKey. unfold_M.
  destruct (sub area (persistedKeyVals_ st) !! k) as [v|];
    [|by repeat split; [|intros ? [= <-]]].
  destruct (backoffs_ st !! k) as [b|] eqn:Hk;
    [|by repeat split; [|intros ? [= <-]]].
  assert (k ≠ key) as Hne by (intros ->; congruence).
  destruct (canTryNow env b); cbn.
  - by rewrite lookup_insert_ne.
  - done.
Qed.

Lemma pendingKeys_loop_no_backoff (area : string) (l : list string)
    (acc : Z * gmap string Value * list string) (st : ClientState) :
  backoffs_ st !! key = None →
  let '(result, st') := forM (advertisePendingKey env area) l acc st in
  backoffs_ st' !! key = None ∧
  keysToAdvertise_ st' = keysToAdvertise_ st ∧
  (key ∈ l → result = Thrown "std::out_of_range") ∧
  (∀ what, result = Thrown what → what = "std::out_of_range").
Proof.
  revert acc st. induction l as [|k l IH]; intros acc st Hb; cbn.
  - split; [done|]. split; [done|]. split; [|done].
    by intros ?%elem_of_nil.
  - pose proof (advertisePendingKey_no_backoff area k acc st Hb) as Hk.
    unfold bind.
    destruct (advertisePendingKey env area k acc st) as [[acc'|what] st1].
    + destruct Hk as (Hb1 & Hk1 & Hthrow & _).
      specialize (IH acc' st1 Hb1).
      destruct (forM _ l acc' st1) as [result st'].
      destruct IH as (Hb' & Hk' & Hin & Hwhat).
      split; [done|]. split; [by rewrite Hk'|]. split; [|done].
      intros [->|Hl]%elem_of_cons; [by specialize (Hthrow eq_refl)|auto].
    + destruct Hk as (Hb1 & Hk1 & _ & Hwhat).
      split; [done|]. split; [done|].
      rewrite (Hwhat what eq_refl). split; [done|]. by intros ? [= <-].
Qed.

Lemma advertisePendingArea_no_backoff (a : string) (timeout : Z)
    (st : ClientState) :
  backoffs_ st !! key = None →
  key ∈ sub other (keysToAdvertise_ st) →
  let '(result, st') := advertisePendingArea env a timeout st in
  (a = other → result = Thrown "std::out_of_range") ∧
  (∀ what, result = Thrown what → what = "std::out_of_range") ∧
  (∀ t, result = Returned t →
        backoffs_ st' !! key = None ∧
        key ∈ sub other (keysToAdvertise_ st')).
Proof.
  intros Hb Hin. unfold advertisePendingArea.
  unfold bind at 1. unfold get at 1. cbn beta iota.
  destruct (decide (sub a (keysToAdvertise_ st) = ∅)) as [Hempty|_].
  { unfold ret. split; [|by split; [|intros ? _]].
    intros ->. rewrite Hempty in Hin. by apply not_elem_of_empty in Hin. }
  unfold bind at 1. unfold modify at 1. cbn beta iota.
  set (st1 := set_persistedKeyVals_ _ st).
  pose proof (pendingKeys_loop_no_backoff a
                (elements (sub a (keysToAdvertise_ st))) (timeout, ∅, [])
                st1 Hb) as Hloop.
  unfold bind at 1.
  destruct (forM _ _ _ st1) as [[[[timeout' keyVals] keys]|what] st2].
  2:{ destruct Hloop as (_ & _ & _ & Hwhat).
      rewrite (Hwhat what eq_refl).
      split; [done|]. split; [by intros ? [= <-]|done]. }
  destruct Hloop as (Hb2 & Hk2 & Hthrow & _).
  assert (a ≠ other) as Hne.
  { intros ->. by specialize (Hthrow (proj2 (elem_of_elements _ _) Hin)). }
  change (keysToAdvertise_ st1) with (keysToAdvertise_ st) in Hk2.
  assert (∀ ok st3,
            setKeysHelper env keyVals a st2 = (Returned ok, st3) →
            backoffs_ st3 = backoffs_ st2 ∧
            keysToAdvertise_ st3 = keysToAdvertise_ st2) as Hset.
  { intros ok st3. unfold setKeysHelper.
    destruct (decide (keyVals = ∅)); unfold_M; by intros [= _ <-]. }
  assert (∀ what st3,
            setKeysHelper env keyVals a st2 ≠ (Thrown what, st3)) as Hnever.
  { intros what st3. unfold setKeysHelper.
    destruct (decide (keyVals = ∅)); by unfold_M. }
  unfold bind at 1.
  destruct (setKeysHelper env keyVals a st2) as [[ok|what] st3] eqn:Hhelper;
    [|by destruct (Hnever what st3)].
  destruct (Hset ok st3 eq_refl) as [Hb3 Hk3].
  destruct ok; unfold_M.
  - split; [done|]. split; [done|]. intros _ _. split.
    + change (backoffs_ st3 !! key = None). by rewrite Hb3.
    + unfold sub at 1. cbn. rewrite lookup_insert_ne by done.
      rewrite Hk3, Hk2. exact Hin.
  - split; [done|]. split; [done|]. intros _ _. split; [by rewrite Hb3|].
    rewrite Hk3, Hk2. exact Hin.
Qed.

Lemma pendingAreas_loop_no_backoff (l : list string) (timeout : Z)
    (st : ClientState) :
  backoffs_ st !! key = None →
  key ∈ sub other (keysToAdvertise_ st) →
  other ∈ l →
  (forM (advertisePendingArea env) l timeout st).1 =
    Thrown "std::out_of_range".
Proof.
  revert timeout st. induction l as [|a l IH]; intros timeout st Hb Hin Hl.
  { by apply elem_of_nil in Hl. }
  cbn [forM]. unfold bind.
  pose proof (advertisePendingArea_no_backoff a timeout st Hb Hin) as Harea.
  destruct (advertisePendingArea env a timeout st) as [[t|what] st1].
  - destruct Harea as (Hthrow & _ & Hkeep).
    destruct (Hkeep t eq_refl) as [Hb1 Hin1].
    apply elem_of_cons in Hl as [<-|Hl]; [by specialize (Hthrow eq_refl)|].
    by apply IH.
  - destruct Harea as (_ & Hwhat & _). by rewrite (Hwhat what eq_refl).
Qed.

(** A key that waits to be advertised in some area while [backoffs_]
    holds nothing for it makes [advertisePendingKeys] throw. *)
Lemma advertisePendingKeys_needs_backoff (st : ClientState) :
  backoffs_ st !! key = None →
  key ∈ sub other (keysToAdvertise_ st) →
  (advertisePendingKeys env st).1 = Thrown "std::out_of_range".
Proof.
  intros Hb Hin. unfold advertisePendingKeys.
  unfold bind at 1. unfold get at 1. cbn beta iota.
  assert (other ∈ elements (dom (keysToAdvertise_ st))) as Hl.
  { apply elem_of_elements, elem_of_dom. unfold sub in Hin.
    destruct (keysToAdvertise_ st !! other); [done|].
    by apply not_elem_of_empty in Hin. }
  pose proof (pendingAreas_loop_no_backoff _ (kMaxBackoff env) st Hb Hin Hl)
    as Hloop.
  unfold bind.
  destruct (forM _ _ _ st) as [[t|what] st1]; cbn in Hloop; [done|].
  by injection Hloop as ->.
Qed.

(** X20: [backoffs_] is keyed by the key alone, the other maps by area and key.
    [unsetKey] in one area therefore removes the backoff that the same key,
    still waiting in another area, needs: the next [advertisePendingKeys]
    throws [std::out_of_range]. *)
Theorem unsetKey_breaks_other_area (area : string) (st : ClientState) :
  area ≠ other →
  key ∈ sub other (keysToAdvertise_ st) →
  (advertisePendingKeys env (unsetKey key area st).2).1 =
    Thrown "std::out_of_range".
Proof.
  intros Hne Hin. apply advertisePendingKeys_needs_backoff.
  - unfold unsetKey. unfold_M. apply lookup_delete_eq.
  - unfold unsetKey. unfold_M. unfold sub at 1. cbn.
    by rewrite lookup_insert_ne.
Qed.

End ClientBackoffs.

Section ClientBackoffsWitness.
Import StateExn KvStoreTypes KvStoreClientInternal.

(** "key1" is persisted in area "0" and then, while the store refuses
    requests, in area "1", where it stays pending; it is then unset in
    area "0". *)
Lemma unsetKey_breaks_other_area_witness :
  let st := (persistKey ClientScenario.env_down "key1" "value1" 1000 "1"
               ClientScenario.st0).2 in
  "key1" ∈ sub "1" (keysToAdvertise_ st) ∧
  (advertisePendingKeys ClientScenario.env_down
     (unsetKey "key1" "0" st).2).1 = Thrown "std::out_of_range".
Proof.
  intros st.
  assert ("key1" ∈ sub "1" (keysToAdvertise_ st)) as Hin.
  { apply (bool_decide_unpack _). by vm_compute. }
  split; [exact Hin|].
  apply (unsetKey_breaks_other_area ClientScenario.env_down "key1" "1" "0"
           st); [done|exact Hin].
Defined.

End ClientBackoffsWitness.

(* ===================================================================== *)
(** * The KvStore client: publications, [setKey] and [clearKey]            *)
(* ===================================================================== *)

Section ClientHolds.
Import StateExn KvStoreTypes KvStoreClientInternal.

Lemma holds_forM {A B} (P : ClientState → Prop)
    (R : ClientState → ClientState → Prop)
    `{!Reflexive R, !Transitive R} (f : A → B → M B) (l : list A) :
  (∀ x acc, holds P R (f x acc)) → ∀ acc, holds P R (forM f l acc).
Proof.
  intros Hf. induction l as [|x l IH]; intros acc; cbn [forM].
  - by apply holds_ret.
  - apply holds_bind; [done|apply Hf|apply IH].
Qed.

End ClientHolds.

(** A step through a computation of the client, for a relation that
    every [modify] of it keeps by [tac]. *)
Ltac client_step tac :=
  lazymatch goal with
  | |- StateExn.holds _ _ (StateExn.bind StateExn.get _) =>
      apply holds_get_bind_pre; [intros ? _]
  | |- StateExn.holds _ _ (StateExn.bind _ _) =>
      apply holds_bind; [solve [apply _]| |intros]
  | |- StateExn.holds _ _ (StateExn.ret _) =>
      apply holds_ret; solve [apply _]
  | |- StateExn.holds _ _ (StateExn.at_ _ _) =>
      apply holds_at; solve [apply _]
  | |- StateExn.holds _ _ (StateExn.modify _) =>
      apply holds_modify; intros ? _; split; [tac|done]
  | |- StateExn.holds _ _ (KvStoreClientInternal.forM _ _ _) =>
      apply holds_forM; [solve [apply _]..|intros]
  | |- StateExn.holds _ _ (match ?x with _ => _ end) => destruct x
  end.

Section PublicationFacts.
Import StateExn KvStoreTypes KvStoreClientInternal.
Context (env : Env) (kDefaultArea : string).

(** [c'] is the record [c] as the client may have bumped it, and it beats
    the received record [r]. *)
Local Abbreviation bumped c c' :=
  (value c' = value c ∧ ttl c' = ttl c ∧
   ((version c' = version c ∧ originatorId c' = originatorId c) ∨
    (version c < version c' ∧ originatorId c' = nodeId_ env))).

Local Abbreviation beats r c' :=
  (version r < version c' ∨
   (version c' = version r ∧ originatorId r = nodeId_ env ∧
    value r = value c')).

Ltac unfold_MS :=
  unfold processKeyVal, modifyClient, onClient, notify;
  unfold_M.

(** The comparisons of a branch, as propositions. *)
Ltac comparisons :=
  repeat match goal with
    | H : (_ <? _) = true |- _ => apply Z.ltb_lt in H
    | H : (_ <? _) = false |- _ => apply Z.ltb_ge in H
    | H : (_ =? _) = true |- _ => apply Z.eqb_eq in H
    | H : (_ =? _) = false |- _ => apply Z.eqb_neq in H
    | H : bool_decide _ = true |- _ => apply bool_decide_eq_true_1 in H
    | H : bool_decide _ = false |- _ => apply bool_decide_eq_false_1 in H
    | H : negb _ = true |- _ => apply negb_true_iff in H
    | H : negb _ = false |- _ => apply negb_false_iff in H
    | H : _ && _ = true |- _ => apply andb_true_iff in H as [? ?]
    | H : _ || _ = false |- _ => apply orb_false_iff in H as [? ?]
    end.

(** The branches of a computation, innermost condition first. *)
Ltac split_cases :=
  repeat match goal with
    | |- context [match ?x with _ => _ end] =>
        lazymatch x with
        | context [match _ with _ => _ end] => fail
        | _ => destruct x; cbn
        end
    end.

(** A received record leaves the records of the other keys alone. *)
Lemma processKeyVal_other (area k key : string) (r : Value)
    (s : Subscriber) :
  k ≠ key →
  ∃ s', processKeyVal env area k r s = (Returned tt, s') ∧
        sub area (persistedKeyVals_ (client s')) !! key
        = sub area (persistedKeyVals_ (client s)) !! key ∧
        sub area (keyTtlBackoffs_ (client s')) !! key
        = sub area (keyTtlBackoffs_ (client s)) !! key.
Proof.
  intros Hne. unfold_MS. split_cases.
  all: cbn; (eexists; split; [reflexivity|]); cbn.
  all: by rewrite ?sub_insert_eq, ?lookup_insert_ne, ?lookup_delete_ne
         by done.
Qed.

(** A received record of a persisted key. *)
Lemma processKeyVal_self (area key : string) (r c : Value)
    (s : Subscriber) :
  sub area (persistedKeyVals_ (client s)) !! key = Some c →
  ∃ s' c', processKeyVal env area key r s = (Returned tt, s') ∧
           sub area (persistedKeyVals_ (client s')) !! key = Some c' ∧
           bumped c c' ∧ (is_Some (value r) → beats r c').
Proof.
  intros Hc. unfold_MS.
  destruct (value r) as [v|] eqn:Hv.
  2:{ exists s, c. split; [done|]. split; [done|]. split; [tauto|].
      by intros [? [=]]. }
  destruct (kvCallback_ s); cbn; rewrite Hc.
  all: destruct (sub area (keyTtlBackoffs_ (client s)) !! key)
         as [[sv b]|]; cbn.
  all: destruct (version r <? version c) eqn:Hold; cbn.
  all: try (eexists _, c; split; [reflexivity|]; split; [exact Hc|];
            split; [tauto|]; intros _; left; by apply Z.ltb_lt).
  all: destruct (version c <? version r) eqn:Hnew; cbn.
  all: destruct (bool_decide (originatorId r ≠ nodeId_ env)) eqn:Horig; cbn.
  all: destruct (bool_decide (value c ≠ Some v)) eqn:Hval; cbn.
  all: try destruct (ttlVersion sv <? ttlVersion r); cbn.
  all: try destruct (ttlVersion c <? ttlVersion r); cbn.
  all: try destruct (0 <? ttlVersion r); cbn.
  all: try destruct (bool_decide (key ∈ keyCallbacks_ (client s))); cbn.
  all: eexists _, _; (split; [reflexivity|]); cbn.
  all: rewrite sub_insert_eq, lookup_insert_eq.
  all: (split; [reflexivity|]); cbn.
  all: comparisons.
  all: split;
    [ split; [done|]; split; [done|];
      first [ left; split; [lia|done] | right; split; [lia|done] ]
    | intros _;
      first [ left; lia
            | right; split; [lia|];
              split; [by apply dec_stable | symmetry; by apply dec_stable] ] ].
Qed.

Lemma processKeyVal_persisted (area k key : string) (r c : Value)
    (s : Subscriber) :
  sub area (persistedKeyVals_ (client s)) !! key = Some c →
  ∃ s' c', processKeyVal env area k r s = (Returned tt, s') ∧
           sub area (persistedKeyVals_ (client s')) !! key = Some c' ∧
           bumped c c' ∧ (k = key → is_Some (value r) → beats r c').
Proof.
  intros Hc. destruct (decide (k = key)) as [->|Hne].
  - destruct (processKeyVal_self area key r c s Hc) as (s' & c' & E & H).
    exists s', c'. split; [done|]. destruct H as (? & ? & ?). auto.
  - destruct (processKeyVal_other area k key r s Hne) as (s' & E & Hp & _).
    exists s', c. split; [done|]. split; [by rewrite Hp|].
    split; [tauto|done].
Qed.

Lemma beats_bumped (r c c' : Value) : beats r c → bumped c c' → beats r c'.
Proof.
  intros [Hlt|(Hv & Ho & Hval)] (Hval' & _ & [[Hsame _]|[Hup _]]).
  - left. lia.
  - left. lia.
  - right. by rewrite Hsame, Hval'.
  - left. lia.
Qed.

Lemma bumped_trans (c c1 c2 : Value) :
  bumped c c1 → bumped c1 c2 → bumped c c2.
Proof.
  intros (Hv & Ht & H) (Hv' & Ht' & H').
  split; [congruence|]. split; [congruence|].
  destruct H as [[? ?]|[? ?]], H' as [[? ?]|[? ?]].
  - left. split; congruence.
  - right. split; [lia|done].
  - right. split; [lia|congruence].
  - right. split; [lia|done].
Qed.

Lemma processKeyVals_persisted (area key : string)
    (l : list (string * Value)) (s : Subscriber) (c : Value) :
  sub area (persistedKeyVals_ (client s)) !! key = Some c →
  ∃ s' c', forEach (λ kv, processKeyVal env area kv.1 kv.2) l s
           = (Returned tt, s') ∧
           sub area (persistedKeyVals_ (client s')) !! key = Some c' ∧
           bumped c c' ∧
           ∀ r, (key, r) ∈ l → is_Some (value r) → beats r c'.
Proof.
  revert s c. induction l as [|[k r] l IH]; intros s c Hc.
  { exists s, c. split; [done|]. split; [done|]. split; [tauto|].
    by intros r ?%elem_of_nil. }
  destruct (processKeyVal_persisted area k key r c s Hc)
    as (s1 & c1 & E1 & Hc1 & Hb1 & Hbeat1).
  destruct (IH s1 c1 Hc1) as (s' & c' & E & Hc' & Hb & Hbeat).
  exists s', c'. cbn [forEach]. unfold bind. cbn [fst snd]. rewrite E1.
  split; [done|]. split; [done|].
  split; [by apply (bumped_trans c c1 c')|].
  intros r0 [Heq|Hin]%elem_of_cons Hsome.
  - injection Heq as Hk ->.
    by apply (beats_bumped r c1 c'); [apply Hbeat1|].
  - by apply Hbeat.
Qed.

Lemma processExpiredKeys_client (publication : Publication.t)
    (s : Subscriber) :
  client (processExpiredKeys publication s).2 = client s.
Proof.
  unfold processExpiredKeys.
  revert s. induction (Publication.expiredKeys publication) as [|k l IH];
    intros s; [done|].
  cbn [forEach]. unfold notify. unfold_M.
  by destruct (kvCallback_ s),
       (bool_decide (k ∈ keyCallbacks_ (client s))); cbn; rewrite IH.
Qed.

(** X21: [processPublication] keeps every record the client persists, with its
    value and ttl, and bumps it to a version of this node where it has to;
    afterwards the persisted record has a higher version than a received record
    of the key, unless that one is the client's own advertisement come back. *)
Theorem processPublication_reasserts (publication : Publication.t)
    (s : Subscriber) (key : string) (c : Value) :
  let area := default kDefaultArea (Publication.area publication) in
  sub area (persistedKeyVals_ (client s)) !! key = Some c →
  ∃ c',
    sub area
      (persistedKeyVals_
         (client (processPublication env kDefaultArea publication s).2))
      !! key = Some c' ∧
    value c' = value c ∧ ttl c' = ttl c ∧
    ((version c' = version c ∧ originatorId c' = originatorId c) ∨
     (version c < version c' ∧ originatorId c' = nodeId_ env)) ∧
    ∀ r, Publication.keyVals publication !! key = Some r →
         is_Some (value r) →
         version r < version c' ∨
         (version c' = version r ∧ originatorId r = nodeId_ env ∧
          value r = value c').
Proof.
  intros area Hc. unfold processPublication. fold area.
  unfold modifyClient, onClient.
  unfold bind at 1. unfold modify at 1. cbn beta iota.
  unfold bind at 1. unfold modify at 1. cbn beta iota.
  unfold bind at 1. unfold modify at 1. cbn beta iota.
  match goal with
  | |- context [bind _ _ ?s0] => set (s1 := s0)
  end.
  assert (sub area (persistedKeyVals_ (client s1)) !! key = Some c) as Hc1.
  { subst s1. cbn. by rewrite sub_touch. }
  destruct (processKeyVals_persisted area key
              (map_to_list (Publication.keyVals publication)) s1 c Hc1)
    as (s2 & c' & E & Hc' & Hb & Hbeat).
  unfold bind at 1. rewrite E.
  exists c'.
  assert (sub area
            (persistedKeyVals_ (advertisePendingKeys env (client s2)).2)
            !! key = Some c') as Hc3.
  { destruct (kept_advertisePendingKeys env (client s2)) as [_ Hsame].
    by rewrite Hsame. }
  split.
  { unfold bind.
    destruct (advertisePendingKeys env (client s2)) as [[[]|what] st3];
      cbn in Hc3 |- *; [|done].
    destruct (bool_decide _); [|done].
    by rewrite processExpiredKeys_client. }
  destruct Hb as (? & ? & ?). split; [done|]. split; [done|]. split; [done|].
  intros r Hr. apply Hbeat. by apply elem_of_map_to_list.
Qed.


Local Abbreviation same_ttl :=
  (λ st st' : ClientState, keyTtlBackoffs_ st' = keyTtlBackoffs_ st).

#[local] Instance same_ttl_refl : Reflexive same_ttl.
Proof. by intros st. Qed.

#[local] Instance same_ttl_trans : Transitive same_ttl.
Proof. intros st1 st2 st3 H12 H23. cbn in *. congruence. Qed.

Lemma same_ttl_advertisePendingKeys (st : ClientState) :
  keyTtlBackoffs_ (advertisePendingKeys env st).2 = keyTtlBackoffs_ st.
Proof.
  assert (holds (λ _, True) same_ttl (advertisePendingKeys env)) as H.
  { unfold advertisePendingKeys, advertisePendingArea, advertisePendingKey,
      setKeysHelper.
    repeat client_step ltac:(reflexivity). }
  by apply H.
Qed.


Lemma processKeyVal_lost (area key : string) (r sv : Value)
    (b : ExponentialBackoff) (s : Subscriber) :
  sub area (persistedKeyVals_ (client s)) !! key = None →
  sub area (keyTtlBackoffs_ (client s)) !! key = Some (sv, b) →
  is_Some (value r) →
  version sv < version r ∨
  (version r = version sv ∧
   String.ltb (originatorId sv) (originatorId r) = true) →
  ∃ s', processKeyVal env area key r s = (Returned tt, s') ∧
        sub area (persistedKeyVals_ (client s')) !! key = None ∧
        sub area (keyTtlBackoffs_ (client s')) !! key = None.
Proof.
  intros Hp Ht [v Hv] Hlost. unfold_MS. rewrite Hv.
  assert ((version sv <? version r)
          || ((version r =? version sv)
              && String.ltb (originatorId sv) (originatorId r)) = true)
    as Hcond.
  { destruct Hlost as [Hlt|[Heq Hltb]].
    - apply Z.ltb_lt in Hlt. by rewrite Hlt.
    - apply Z.eqb_eq in Heq. rewrite Heq, Hltb. by rewrite orb_true_r. }
  destruct (kvCallback_ s); cbn; rewrite Hp, Ht, Hcond; cbn.
  all: destruct (bool_decide (key ∈ keyCallbacks_ (client s))); cbn.
  all: destruct (keyPrefixFilterCallback_ s && keyPrefixFilter_ s key r);
    cbn.
  all: eexists; (split; [reflexivity|]); cbn.
  all: rewrite sub_insert_eq, lookup_delete_eq.
  all: by split.
Qed.

Lemma processKeyVal_unset (area key : string) (r : Value) (s : Subscriber) :
  sub area (persistedKeyVals_ (client s)) !! key = None →
  sub area (keyTtlBackoffs_ (client s)) !! key = None →
  ∃ s', processKeyVal env area key r s = (Returned tt, s') ∧
        sub area (persistedKeyVals_ (client s')) !! key = None ∧
        sub area (keyTtlBackoffs_ (client s')) !! key = None.
Proof.
  intros Hp Ht. unfold_MS.
  destruct (value r); [|by exists s].
  destruct (kvCallback_ s); cbn; rewrite Hp, Ht; cbn.
  all: destruct (bool_decide (key ∈ keyCallbacks_ (client s))); cbn.
  all: destruct (keyPrefixFilterCallback_ s && keyPrefixFilter_ s key r);
    cbn.
  all: eexists; (split; [reflexivity|]); cbn.
  all: by split.
Qed.

Lemma processKeyVals_lost (area key : string) (r sv : Value)
    (b : ExponentialBackoff) (l : list (string * Value)) (s : Subscriber) :
  is_Some (value r) →
  version sv < version r ∨
  (version r = version sv ∧
   String.ltb (originatorId sv) (originatorId r) = true) →
  (∀ r', (key, r') ∈ l → r' = r) →
  sub area (persistedKeyVals_ (client s)) !! key = None →
  sub area (keyTtlBackoffs_ (client s)) !! key = None ∨
  sub area (keyTtlBackoffs_ (client s)) !! key = Some (sv, b) →
  ∃ s', forEach (λ kv, processKeyVal env area kv.1 kv.2) l s
        = (Returned tt, s') ∧
        sub area (persistedKeyVals_ (client s')) !! key = None ∧
        (sub area (keyTtlBackoffs_ (client s')) !! key = None ∨
         (sub area (keyTtlBackoffs_ (client s)) !! key = Some (sv, b) ∧
          ∀ r', (key, r') ∉ l)).
Proof.
  intros Hsome Hlost. revert s.
  induction l as [|[k r'] l IH]; intros s Hl Hp Ht.
  { exists s. split; [done|]. split; [done|].
    destruct Ht as [Ht|Ht]; [by left|right]. split; [done|].
    by intros ? ?%elem_of_nil. }
  assert (∃ s1, processKeyVal env area k r' s = (Returned tt, s1) ∧
                sub area (persistedKeyVals_ (client s1)) !! key = None ∧
                (sub area (keyTtlBackoffs_ (client s1)) !! key = None ∨
                 (sub area (keyTtlBackoffs_ (client s1)) !! key
                  = Some (sv, b) ∧
                  sub area (keyTtlBackoffs_ (client s)) !! key
                  = Some (sv, b) ∧ k ≠ key))) as (s1 & E1 & Hp1 & Ht1).
  { destruct (decide (k = key)) as [->|Hne].
    - rewrite (Hl r') by (apply elem_of_cons; by left).
      destruct Ht as [Ht|Ht].
      + destruct (processKeyVal_unset area key r s Hp Ht)
          as (s1 & E1 & Hp1 & Ht1).
        exists s1. auto.
      + destruct (processKeyVal_lost area key r sv b s Hp Ht Hsome Hlost)
          as (s1 & E1 & Hp1 & Ht1).
        exists s1. auto.
    - destruct (processKeyVal_other area k key r' s Hne)
        as (s1 & E1 & Hp1 & Ht1).
      exists s1. split; [done|]. rewrite Hp1, Ht1. split; [done|].
      destruct Ht as [Ht|Ht]; auto. }
  destruct (IH s1) as (s' & E & Hp' & Ht').
  { intros r0 Hin. apply Hl. apply elem_of_cons. by right. }
  { done. }
  { destruct Ht1 as [Ht1|[Ht1 _]]; auto. }
  exists s'. cbn [forEach]. unfold bind. cbn [fst snd]. rewrite E1.
  split; [done|]. split; [done|].
  destruct Ht' as [Ht'|[Ht' Hnot]]; [by left|].
  destruct Ht1 as [Ht1|(_ & Ht1 & Hne)]; [congruence|].
  right. split; [done|]. intros r0 [[= Hk _]|Hin]%elem_of_cons.
  - by destruct Hne.
  - by apply (Hnot r0).
Qed.

(** X22: a key that the client has set but does not persist, and whose ttl it
    refreshes, is given up when a publication brings a record of the key with a
    higher version, or with the same version from a greater originator: the
    refreshing of its ttl is cancelled. *)
Theorem processPublication_cancels_ttl (publication : Publication.t)
    (s : Subscriber) (key : string) (r sv : Value)
    (b : ExponentialBackoff) :
  let area := default kDefaultArea (Publication.area publication) in
  sub area (persistedKeyVals_ (client s)) !! key = None →
  sub area (keyTtlBackoffs_ (client s)) !! key = Some (sv, b) →
  Publication.keyVals publication !! key = Some r →
  is_Some (value r) →
  version sv < version r ∨
  (version r = version sv ∧
   String.ltb (originatorId sv) (originatorId r) = true) →
  sub area
    (keyTtlBackoffs_
       (client (processPublication env kDefaultArea publication s).2))
    !! key = None.
Proof.
  intros area Hp Ht Hr Hsome Hlost. unfold processPublication. fold area.
  unfold modifyClient, onClient.
  unfold bind at 1. unfold modify at 1. cbn beta iota.
  unfold bind at 1. unfold modify at 1. cbn beta iota.
  unfold bind at 1. unfold modify at 1. cbn beta iota.
  match goal with
  | |- context [bind _ _ ?s0] => set (s1 := s0)
  end.
  destruct (processKeyVals_lost area key r sv b
              (map_to_list (Publication.keyVals publication)) s1 Hsome Hlost)
    as (s2 & E & _ & Ht2).
  { intros r' Hin%elem_of_map_to_list. congruence. }
  { subst s1. cbn. by rewrite sub_touch. }
  { right. subst s1. cbn. by rewrite sub_touch. }
  destruct Ht2 as [Ht2|[_ Hnot]].
  2:{ destruct (Hnot r). by apply elem_of_map_to_list. }
  unfold bind at 1. rewrite E.
  assert (sub area
            (keyTtlBackoffs_ (advertisePendingKeys env (client s2)).2)
            !! key = None) as Ht3.
  { by rewrite same_ttl_advertisePendingKeys. }
  unfold bind.
  destruct (advertisePendingKeys env (client s2)) as [[[]|what] st3];
    cbn in Ht3 |- *; [|done].
  destruct (bool_decide _); [|done].
  by rewrite processExpiredKeys_client.
Qed.

End PublicationFacts.

Section SetKeyFacts.
Import StateExn KvStoreTypes KvStoreClientInternal.
Context (env : Env).

Local Abbreviation sends_more :=
  (λ st st' : ClientState, kvStoreSets st ⊆ kvStoreSets st').

#[local] Instance sends_more_refl : Reflexive sends_more.
Proof. by intros st. Qed.

#[local] Instance sends_more_trans : Transitive sends_more.
Proof. intros st1 st2 st3 H12 H23. cbn in *. by etrans. Qed.

Lemma sends_more_scheduleTtlUpdates (key : string)
    (version ttlVersion ttl : Z) (advertiseImmediately : bool)
    (area : string) (st : ClientState) :
  kvStoreSets st
  ⊆ kvStoreSets (scheduleTtlUpdates env key version ttlVersion ttl
                   advertiseImmediately area st).2.
Proof.
  assert (holds (λ _, True) sends_more
            (scheduleTtlUpdates env key version ttlVersion ttl
               advertiseImmediately area)) as H.
  { unfold scheduleTtlUpdates, advertiseTtlUpdates, advertiseTtlArea,
      advertiseTtlUpdate, setKeysHelper.
    repeat client_step
      ltac:(cbn; first [reflexivity|apply list_subseteq_cons; reflexivity]).
  }
  by apply H.
Qed.


Lemma scheduleTtlUpdates_scheduled (key : string)
    (version ttlVersion ttl : Z) (advertiseImmediately : bool)
    (area : string) (st : ClientState) :
  key ∈ dom (sub area (keyTtlBackoffs_
               (scheduleTtlUpdates env key version ttlVersion ttl
                  advertiseImmediately area st).2))
  ↔ ttl ≠ kTtlInfinity env.
Proof.
  unfold scheduleTtlUpdates. unfold bind at 1. unfold modify at 1.
  cbn beta iota.
  destruct (decide (ttl = kTtlInfinity env)) as [Heq|Hne].
  - unfold modify. cbn. rewrite sub_insert_eq, dom_delete.
    split; [|done]. intros Hin. set_unfold. tauto.
  - unfold bind at 1. unfold modify at 1. cbn beta iota.
    match goal with
    | |- context [advertiseTtlUpdates env ?s] =>
        destruct (advertiseTtlUpdates_returns env s)
          as (st' & E & _ & _ & _ & Hdom)
    end.
    rewrite E. cbn [snd]. rewrite Hdom. cbn.
    rewrite sub_insert_eq, dom_insert. split; [done|]. intros _.
    set_unfold. by left.
Qed.

(** X23: [setKey] without a version sends the store the record of this node
    with one version more than the store has for the key, or with version 1,
    and returns whether the store took it; it persists nothing and refreshes
    the ttl of the key from then on exactly when the ttl is finite. *)
Theorem setKey_next_version (key value_ : string) (ttl_ : Z)
    (area : string) (st : ClientState) :
  let next :=
    match kvStoreGet env (kvStoreSets st) area key with
    | Some current => version current + 1
    | None => 1
    end in
  let sent := mkValue next (nodeId_ env) (Some value_) ttl_ 0 (Some 0) in
  let ok := kvStoreSet env (kvStoreSets st) area {[ key := sent ]} in
  ∃ st', setKey env key value_ 0 ttl_ area st = (Returned ok, st') ∧
         (area, {[ key := sent ]}, ok) ∈ kvStoreSets st' ∧
         same_persisted st st' ∧
         backoffs_ st' = backoffs_ st ∧
         keysToAdvertise_ st' = keysToAdvertise_ st ∧
         (key ∈ dom (sub area (keyTtlBackoffs_ st'))
          ↔ ttl_ ≠ kTtlInfinity env).
Proof.
  intros next sent ok.
  assert (buildThriftValue env key value_ 0 ttl_ area st
          = (Returned sent, st)) as Ebuild.
  { unfold buildThriftValue. change (to_uint32 0 =? 0) with true.
    unfold_M. unfold_M. subst sent next.
    by destruct (kvStoreGet env (kvStoreSets st) area key). }
  set (st1 := set_kvStoreSets
                ((area, {[ key := sent ]}, ok) :: kvStoreSets st) st).
  assert (setKeysHelper env {[ key := sent ]} area st
          = (Returned ok, st1)) as Eset.
  { unfold setKeysHelper.
    destruct (decide (({[ key := sent ]} : gmap string Value) = ∅))
      as [Hempty|_]; [|done].
    by apply map_non_empty_singleton in Hempty. }
  destruct (scheduleTtlUpdates_returns env key (version sent)
              (ttlVersion sent) ttl_ false area st1)
    as (st' & E & Hp & Hb & Hk).
  exists st'. split.
  { unfold setKey. unfold bind at 1. rewrite Ebuild.
    unfold bind at 1. rewrite Eset.
    unfold bind at 1. by rewrite E. }
  pose proof (sends_more_scheduleTtlUpdates key (version sent)
                (ttlVersion sent) ttl_ false area st1) as Hsent.
  pose proof (scheduleTtlUpdates_scheduled key (version sent)
                (ttlVersion sent) ttl_ false area st1) as Hdom.
  rewrite E in Hsent, Hdom. cbn [snd] in Hsent, Hdom.
  split; [apply Hsent; subst st1; cbn; apply elem_of_cons; by left|].
  split; [intros a; by rewrite Hp|].
  split; [by rewrite Hb|]. split; [by rewrite Hk|]. done.
Qed.


(** X24: [clearKey] returns; the client then persists, advertises and refreshes
    nothing for the key in the area, and has no backoff for it. When the store
    has no record of the key nothing is sent; otherwise one request is sent,
    with the new value in a record of this node that has one version more than
    the store's and ttl version 0. *)
Theorem clearKey_outcome (key keyValue : string) (ttl_ : Z) (area : string)
    (st : ClientState) :
  ∃ st', clearKey env key keyValue ttl_ area st = (Returned tt, st') ∧
         sub area (persistedKeyVals_ st') !! key = None ∧
         (key ∉ sub area (keysToAdvertise_ st')) ∧
         sub area (keyTtlBackoffs_ st') !! key = None ∧
         backoffs_ st' !! key = None ∧
         kvStoreSets st'
         = match kvStoreGet env (kvStoreSets st) area key with
           | None => kvStoreSets st
           | Some current =>
               let sent :=
                 {[ key := mkValue (version current + 1) (nodeId_ env)
                             (Some keyValue) ttl_ 0 (hash current) ]} in
               (area, sent, kvStoreSet env (kvStoreSets st) area sent)
               :: kvStoreSets st
           end.
Proof.
  unfold clearKey, unsetKey. unfold_M. unfold_M. cbn.
  destruct (kvStoreGet env (kvStoreSets st) area key) as [current|].
  - unfold setKeysHelper.
    destruct (decide (_ = ∅)) as [Hempty|_];
      [by apply map_non_empty_singleton in Hempty|].
    unfold_M. eexists. split; [reflexivity|]. cbn.
    rewrite !sub_insert_eq, !lookup_delete_eq.
    split; [done|]. split; [set_unfold; tauto|done].
  - eexists. split; [reflexivity|]. cbn.
    rewrite !sub_insert_eq, !lookup_delete_eq.
    split; [done|]. split; [set_unfold; tauto|done].
Qed.

End SetKeyFacts.

Section PublicationWitness.
Import StateExn KvStoreTypes KvStoreClientInternal.

(** "node-2" has overwritten "key1", which the client persists with
    version 1, by version 5. *)
Lemma processPublication_reasserts_witness :
  ∃ c',
    sub "0"
      (persistedKeyVals_
         (client (processPublication ClientScenario.env "0"
                    ClientScenario.publication
                    ClientScenario.subscriber).2))
      !! "key1" = Some c' ∧
    value c' = Some "value1" ∧ ttl c' = - 2 ^ 31 ∧
    ((version c' = 1 ∧ originatorId c' = "node-1") ∨
     (1 < version c' ∧ originatorId c' = "node-1")) ∧
    ∀ r, Publication.keyVals ClientScenario.publication !! "key1" = Some r →
         is_Some (value r) →
         version r < version c' ∨
         (version c' = version r ∧ originatorId r = "node-1" ∧
          value r = value c').
Proof.
  apply (processPublication_reasserts ClientScenario.env "0"
           ClientScenario.publication ClientScenario.subscriber "key1"
           ClientScenario.stored).
  vm_compute. reflexivity.
Defined.

(** "node-2" has overwritten "key3", which the client has set with
    version 1, by version 2. *)
Lemma processPublication_cancels_ttl_witness :
  sub "0"
    (keyTtlBackoffs_
       (client (processPublication ClientScenario.env "0"
                  ClientScenario.publication ClientScenario.subscriber).2))
    !! "key3" = None.
Proof.
  apply (processPublication_cancels_ttl ClientScenario.env "0"
           ClientScenario.publication ClientScenario.subscriber "key3"
           (mkValue 2 "node-2" (Some "theirs") 1000 0 None)
           (mkValue 1 "node-1" None 1000 0 (Some 0))
           (mkBackoff 250 251 [ReportError])).
  - vm_compute. reflexivity.
  - vm_compute. reflexivity.
  - vm_compute. reflexivity.
  - by eexists.
  - left. cbn. lia.
Defined.

End PublicationWitness.
